(** * Karton command-line front end (karton/main.py)

    A shallow embedding of [karton/main.py] together with the part of
    Python 2.7's [argparse] the program drives, and the statements of
    the dispatch layer's specification proved against it.

    Layout:
    - [Py]: Python values, exceptions, and the state-and-exception monad;
    - [Argparse]: the grammar objects and the parsing engine of Python 2.7's
      [argparse], restricted to the features [main.py] uses;
    - [Logging]: Karton's own [logging] module (its file is not part of the
      sources at hand; modelled from the specification);
    - [Karton]: [main.py] itself;
    - the theorems. *)

From Stdlib Require Import ZArith String Ascii List Lia.
From stdpp Require Import base option list strings pretty gmap fin_maps.

Local Open Scope string_scope.
Local Open Scope list_scope.

(* ===================================================================== *)
(** * Python values, exceptions and effects *)
(* ===================================================================== *)

Module Py.

(** The values that end up in an [argparse.Namespace] of this program. *)
Inductive Value :=
| VNone
| VBool (b : bool)
| VStr (s : string)
| VList (l : list string).

#[global] Instance Value_eq_dec : EqDecision Value.
Proof. solve_decision. Defined.

(** Python truth value. *)
Definition truthy (v : Value) : bool :=
  match v with
  | VNone => false
  | VBool b => b
  | VStr s => negb (String.eqb s "")
  | VList l => match l with [] => false | _ => true end
  end.

(** Exceptions. [SystemExit] and [KeyboardInterrupt] derive from
    [BaseException] only; everything else here derives from [Exception]. *)
Inductive exn :=
| SystemExit (code : Z)
| KeyboardInterrupt
| ArgumentError (argument_name : option string) (message : string)
| PyError (cls : string) (message : string).

#[global] Instance exn_eq_dec : EqDecision exn.
Proof. solve_decision. Defined.

(** [isinstance(e, Exception)] *)
Definition is_Exception (e : exn) : bool :=
  match e with
  | SystemExit _ | KeyboardInterrupt => false
  | ArgumentError _ _ | PyError _ _ => true
  end.

(** [str(e)], as used by ['%s' % exc]. *)
Definition str_exn (e : exn) : string :=
  match e with
  | SystemExit code => pretty code
  | KeyboardInterrupt => ""
  | ArgumentError None m => m
  | ArgumentError (Some n) m => "argument " ++ n ++ ": " ++ m
  | PyError _ m => m
  end.

(** Result of running a piece of Python code. *)
Inductive Res (A : Type) :=
| Ret (a : A)
| Raise (e : exn).
Arguments Ret {A} a.
Arguments Raise {A} e.

(** State-passing computations that may raise.  State written before a
    [raise] stays written. *)
Definition SE (S A : Type) : Type := S -> Res A * S.

Definition ret {S A} (a : A) : SE S A := fun s => (Ret a, s).
Definition raise {S A} (e : exn) : SE S A := fun s => (Raise e, s).
Definition bind {S A B} (m : SE S A) (k : A -> SE S B) : SE S B :=
  fun s => match m s with
           | (Ret a, s') => k a s'
           | (Raise e, s') => (Raise e, s')
           end.
Definition get {S} : SE S S := fun s => (Ret s, s).
Definition put {S} (s : S) : SE S unit := fun _ => (Ret tt, s).
Definition modify {S} (f : S -> S) : SE S unit := fun s => (Ret tt, f s).

(** [try: m  except <filter>: h] *)
Definition try_except {S A} (m : SE S A) (catches : exn -> bool)
    (h : exn -> SE S A) : SE S A :=
  fun s => match m s with
           | (Ret a, s') => (Ret a, s')
           | (Raise e, s') => if catches e then h e s' else (Raise e, s')
           end.

(** Run a computation over a part [T] of the state [S]. *)
Definition zoom {S T A} (proj : S -> T) (upd : T -> S -> S) (m : SE T A)
    : SE S A :=
  fun s => let '(r, t) := m (proj s) in (r, upd t s).

#[global] Instance SE_ret {S} : MRet (SE S) := fun A a => ret a.
#[global] Instance SE_bind {S} : MBind (SE S) := fun A B k m => bind m k.

(** [for x in l: body(x)] *)
Fixpoint for_each {S A} (l : list A) (body : A -> SE S unit) : SE S unit :=
  match l with
  | [] => ret tt
  | x :: l' => body x;; for_each l' body
  end.

(** [o if o is not None else d] *)
Definition or_else {A} (o : option A) (d : A) : A :=
  match o with Some a => a | None => d end.

(** ** String helpers (Python [str] methods) *)

Definition startswith (s p : string) : bool := String.prefix p s.

Fixpoint contains_char (c : ascii) (s : string) : bool :=
  match s with
  | EmptyString => false
  | String c' s' => if Ascii.eqb c c' then true else contains_char c s'
  end.

(** [s.split(c, 1)] when [c in s]: the text before and after the first
    occurrence. *)
Fixpoint split_once (c : ascii) (s : string) : option (string * string) :=
  match s with
  | EmptyString => None
  | String c' s' =>
      if Ascii.eqb c c' then Some (EmptyString, s')
      else match split_once c s' with
           | Some (a, b) => Some (String c' a, b)
           | None => None
           end
  end.

(** [s.lstrip(c)] *)
Fixpoint lstrip (c : ascii) (s : string) : string :=
  match s with
  | String c' s' => if Ascii.eqb c c' then lstrip c s' else s
  | EmptyString => EmptyString
  end.

(** [s.replace(a, b)] for single characters *)
Fixpoint replace_char (a b : ascii) (s : string) : string :=
  match s with
  | EmptyString => EmptyString
  | String c s' => String (if Ascii.eqb c a then b else c) (replace_char a b s')
  end.

(** [sep.join(l)] *)
Definition join (sep : string) (l : list string) : string := String.concat sep l.

(** [repr(s)] for a string without quotes, backslashes or control
    characters. *)
Definition repr (s : string) : string := "'" ++ s ++ "'".

(** [os.path.basename] on POSIX: what follows the last slash. *)
Fixpoint basename (s : string) : string :=
  match s with
  | EmptyString => EmptyString
  | String c s' => if contains_char "/" s then basename s' else s
  end.

(** [s.splitlines()]: a final newline does not open another line. *)
Fixpoint splitlines_from (cur : string) (s : string) : list string :=
  match s with
  | EmptyString => match cur with EmptyString => [] | _ => [cur] end
  | String c s' =>
      if Ascii.eqb c "010" then cur :: splitlines_from EmptyString s'
      else splitlines_from (cur ++ String c EmptyString) s'
  end.
Definition splitlines (s : string) : list string := splitlines_from EmptyString s.

End Py.

(* ===================================================================== *)
(** * Python 2.7 [argparse]: grammar objects *)
(* ===================================================================== *)

(** The standard library is not part of the program; this is a model of the
    part of it that [main.py] drives: parsers with the default prefix
    character [-], the default conflict handler ([error]), no argument
    groups of the program's own, no [type=], [choices=] or [required=]
    keywords, and the actions [store], [store_const], [store_true],
    [store_false], [help] and the sub-parsers action. *)

Module Argparse.
Import Py.

Definition SUPPRESS : string := "==SUPPRESS==".
Definition _UNRECOGNIZED_ARGS_ATTR : string := "_unrecognized_args".

Inductive Nargs :=
| NargsNone                 (* nargs=None: one argument *)
| NargsNum (n : nat)        (* nargs=n *)
| NargsOptional             (* '?' *)
| NargsZeroOrMore           (* '*' *)
| NargsOneOrMore            (* '+' *)
| NargsRemainder            (* argparse.REMAINDER, '...' *)
| NargsParser.              (* argparse.PARSER, 'A...' *)

#[global] Instance Nargs_eq_dec : EqDecision Nargs.
Proof. solve_decision. Defined.

(** The [action=] keyword. *)
Inductive ActionName :=
| AStore | AStoreConst | AStoreTrue | AStoreFalse | AHelp.

(** Keyword arguments of [add_argument]; [None] is an absent keyword. *)
Record Kwargs := {
  kw_dest : option string;
  kw_action : option ActionName;
  kw_nargs : option Nargs;
  kw_const : option Value;
  kw_default : option Value;
  kw_metavar : option string;
  kw_help : option string;
}.

Definition no_kwargs : Kwargs :=
  {| kw_dest := None; kw_action := None; kw_nargs := None; kw_const := None;
     kw_default := None; kw_metavar := None; kw_help := None |}.

(** What an action object does when it is called. *)
Inductive ActionKind :=
| KStore                    (* _StoreAction *)
| KStoreConst               (* _StoreConstAction and its two subclasses *)
| KHelp                     (* _HelpAction *)
| KSubParsers               (* _SubParsersAction *)
    (prog_prefix : string)
    (name_parser_map : list (string * nat))     (* OrderedDict name -> parser *)
    (choices_actions : list (string * string)). (* (name, help) pseudo-actions *)

(** An [argparse.Action] object. *)
Record Action := {
  option_strings : list string;
  dest : string;
  nargs : Nargs;
  const : Value;
  default : Value;
  required : bool;
  help : option string;
  metavar : option string;
  kind : ActionKind;
}.

(** An [ArgumentParser] object: [_actions] in the order they were added. *)
Record Parser := {
  prog : string;
  description : option string;
  actions : list Action;
}.

(** Parser objects live in a store and are referred to by their index, so
    that the sub-parser held by the sub-parsers action, the one held by a
    [CommandInfo] and the one a local variable names are one object. *)
Abbreviation Heap := (list Parser).

(** An [argparse.Namespace]: attribute name to value. *)
Abbreviation Namespace := (gmap string Value).

Definition is_subparsers (a : Action) : bool :=
  match kind a with KSubParsers _ _ _ => true | _ => false end.

Definition is_suppress (v : Value) : bool :=
  match v with VStr s => String.eqb s SUPPRESS | _ => false end.

(** [dict.__setitem__] on an [OrderedDict]: a known key keeps its place. *)
Fixpoint odict_set {V} (k : string) (v : V) (d : list (string * V))
    : list (string * V) :=
  match d with
  | [] => [(k, v)]
  | (k', v') :: d' =>
      if String.eqb k k' then (k, v) :: d' else (k', v') :: odict_set k v d'
  end.

Fixpoint odict_get {V} (k : string) (d : list (string * V)) : option V :=
  match d with
  | [] => None
  | (k', v') :: d' => if String.eqb k k' then Some v' else odict_get k d'
  end.

(** [self._option_string_actions.get(s)] *)
Definition find_option (acts : list Action) (s : string) : option Action :=
  List.find (fun a => existsb (String.eqb s) (option_strings a)) acts.

(** [_get_action_name] *)
Definition _get_action_name (a : Action) : option string :=
  match option_strings a with
  | _ :: _ => Some (join "/" (option_strings a))
  | [] =>
      match metavar a with
      | Some m => if String.eqb m SUPPRESS
                  then (if String.eqb (dest a) SUPPRESS then None else Some (dest a))
                  else Some m
      | None => if String.eqb (dest a) SUPPRESS then None else Some (dest a)
      end
  end.

(** ** Action objects from keyword arguments *)

Definition starts_with_dash (s : string) : bool :=
  match s with String "-" _ => true | _ => false end.

Definition is_long_option (s : string) : bool :=
  match s with String "-" (String "-" _) => true | _ => false end.

(** The action class's constructor applied to the keywords that
    [_get_optional_kwargs] or [_get_positional_kwargs] produced.  A keyword
    the constructor does not take is a [TypeError]. *)
Definition make_action (opts : list string) (dest : string) (required : bool)
    (kw : Kwargs) : Res Action :=
  let unexpected := Raise (PyError "TypeError" "__init__() got an unexpected keyword argument") in
  match or_else (kw_action kw) AStore with
  | AStore =>
      if decide (kw_nargs kw = Some (NargsNum 0)) then
        Raise (PyError "ValueError" "nargs for store actions must be > 0")
      else if bool_decide (kw_const kw <> None /\ kw_const kw <> Some VNone
                           /\ kw_nargs kw <> Some NargsOptional) then
        Raise (PyError "ValueError" "nargs must be '?' to supply const")
      else
        Ret {| option_strings := opts; dest := dest;
               nargs := or_else (kw_nargs kw) NargsNone;
               const := or_else (kw_const kw) VNone;
               default := or_else (kw_default kw) VNone;
               required := required; help := kw_help kw;
               metavar := kw_metavar kw; kind := KStore |}
  | AStoreConst =>
      match kw_nargs kw, kw_const kw with
      | Some _, _ => unexpected
      | None, None =>
          Raise (PyError "TypeError" "__init__() takes at least 4 arguments")
      | None, Some c =>
          Ret {| option_strings := opts; dest := dest; nargs := NargsNum 0;
                 const := c; default := or_else (kw_default kw) VNone;
                 required := required; help := kw_help kw;
                 metavar := kw_metavar kw; kind := KStoreConst |}
      end
  | AStoreTrue | AStoreFalse =>
      let b := match or_else (kw_action kw) AStore with
               | AStoreFalse => false | _ => true end in
      match kw_nargs kw, kw_const kw, kw_metavar kw with
      | None, None, None =>
          Ret {| option_strings := opts; dest := dest; nargs := NargsNum 0;
                 const := VBool b;
                 default := or_else (kw_default kw) (VBool (negb b));
                 required := required; help := kw_help kw;
                 metavar := None; kind := KStoreConst |}
      | _, _, _ => unexpected
      end
  | AHelp =>
      match kw_nargs kw, kw_const kw, kw_metavar kw, required with
      | None, None, None, false =>
          Ret {| option_strings := opts; dest := dest; nargs := NargsNum 0;
                 const := VNone;
                 default := or_else (kw_default kw) (VStr SUPPRESS);
                 required := false; help := kw_help kw;
                 metavar := None; kind := KHelp |}
      | _, _, _, _ => unexpected
      end
  end.

End Argparse.

(* ===================================================================== *)
(** * The process: streams, the store, observable events *)
(* ===================================================================== *)

Module Sys.
Import Py Argparse.

Inductive stream := stdout | stderr.

Inductive level := LInfo | LVerbose | LError.

(** What an invocation does that can be observed from outside, in order.
    Help and usage texts are argparse's [HelpFormatter] output for a parser;
    the event records the parser object as it was when printed. *)
Inductive event :=
| Write (f : stream) (text : string)
| PrintHelp (f : stream) (P : Parser)
| PrintUsage (f : stream) (P : Parser)
| SetVerbose (b : bool)
| Log (l : level) (msg : string)
| Traceback (e : exn).

Definition Out := list event.

(** Process state: the verbosity flag of Karton's logging module, the
    events so far, and the store of parser objects. *)
Record World := {
  verbosity : bool;
  trace : Out;
  heap : Heap;
}.

Abbreviation M := (SE World).

Definition emit (e : event) : SE Out unit := modify (fun t => t ++ [e]).

Definition with_trace (t : Out) (w : World) : World :=
  {| verbosity := verbosity w; trace := t; heap := heap w |}.
Definition with_heap (h : Heap) (w : World) : World :=
  {| verbosity := verbosity w; trace := trace w; heap := h |}.
Definition with_verbosity (b : bool) (w : World) : World :=
  {| verbosity := b; trace := trace w; heap := heap w |}.

(** Output-only code run in the process. *)
Definition io {A} (m : SE Out A) : M A := zoom trace with_trace m.

(** How the interpreter ends the process when the module's top-level code
    finishes with result [r]: [SystemExit(n)] is the exit status [n]; any
    other uncaught exception prints a traceback and exits with status 1. *)
Definition exit_status {A} (r : Res A * World) : Z * Out :=
  match r with
  | (Ret _, w) => (0%Z, trace w)
  | (Raise (SystemExit n), w) => (n, trace w)
  | (Raise e, w) => (1%Z, trace w ++ [Traceback e])
  end.

End Sys.

(* ===================================================================== *)
(** * Python 2.7 [argparse]: the methods of [argparse.ArgumentParser] *)
(* ===================================================================== *)

Module ArgumentParser.
Import Py Argparse Sys.

(** ** Object store *)

Definition alloc (P : Parser) : M nat :=
  fun w => (Ret (length (heap w)), with_heap (heap w ++ [P]) w).

Definition load (p : nat) : M Parser :=
  fun w => match heap w !! p with
           | Some P => (Ret P, w)
           | None => (Raise (PyError "ReferenceError" "no such parser object"), w)
           end.

Definition store (p : nat) (P : Parser) : M unit :=
  modify (fun w => with_heap (<[p := P]> (heap w)) w).

(** ** [add_argument] *)

(** [_get_optional_kwargs]: the flags must start with [-]; the destination
    is the [dest=] keyword or is inferred from the first long flag, else
    from the first flag. *)
Definition _get_optional_kwargs (args : list string) (kw : Kwargs)
    : Res (list string * string) :=
  match List.find (fun s => negb (starts_with_dash s)) args with
  | Some "" => Raise (PyError "IndexError" "string index out of range")
  | Some _ =>
      Raise (PyError "ValueError" "invalid option string: must start with a character '-'")
  | None =>
      match kw_dest kw with
      | Some d => Ret (args, d)
      | None =>
          let dest_option_string :=
            match List.filter is_long_option args with
            | l :: _ => l
            | [] => List.hd "" args
            end in
          let d := lstrip "-" dest_option_string in
          if String.eqb d "" then
            Raise (PyError "ValueError" "dest= is required for options like this")
          else Ret (args, replace_char "-" "_" d)
      end
  end.

(** [_get_positional_kwargs]: whether the positional is marked required. *)
Definition positional_required (kw : Kwargs) : bool :=
  match kw_nargs kw with
  | Some NargsOptional => false
  | Some NargsZeroOrMore => bool_decide (kw_default kw = None)
  | _ => true
  end.

(** [_check_conflict] with the [error] conflict handler. *)
Definition _check_conflict (P : Parser) (a : Action) : Res unit :=
  match List.filter (fun s => bool_decide (is_Some (find_option (actions P) s)))
                    (option_strings a) with
  | [] => Ret tt
  | confl =>
      Raise (ArgumentError (_get_action_name a)
               ("conflicting option string(s): " ++ join ", " confl))
  end.

Definition lift_res {S A} (r : Res A) : SE S A := fun s => (r, s).

Definition append_action (a : Action) (P : Parser) : Parser :=
  {| prog := prog P; description := description P;
     actions := actions P ++ [a] |}.

(** [_add_action] *)
Definition _add_action (p : nat) (a : Action) : M Action :=
  P ← load p;
  lift_res (_check_conflict P a);;
  store p (append_action a P);;
  mret a.

(** [parser.add_argument] on the parser object [p], with its positional
    arguments [args] and its keywords [kw]. *)
Definition add_argument (p : nat) (args : list string) (kw : Kwargs)
    : M Action :=
  let positional :=
    match args with
    | [] => true
    | [a] => negb (starts_with_dash a)
    | _ => false
    end in
  a ← match args with
      | [""] => raise (PyError "IndexError" "string index out of range")
      | _ =>
          if positional then
            match args, kw_dest kw with
            | [name], Some _ =>
                raise (PyError "ValueError" "dest supplied twice for positional argument")
            | [name], None =>
                lift_res (make_action [] name (positional_required kw) kw)
            | _, Some d =>
                lift_res (make_action [] d (positional_required kw) kw)
            | _, None =>
                raise (PyError "TypeError" "_get_positional_kwargs() takes exactly 2 arguments")
            end
          else
            '(opts, d) ← lift_res (_get_optional_kwargs args kw);
            lift_res (make_action opts d false kw)
      end;
  _add_action p a.

(** ** Creating parsers *)

(** [ArgumentParser(prog=..., description=...)] with [add_help=True]. *)
Definition new_parser (prog : string) (description : option string) : M nat :=
  p ← alloc {| prog := prog; description := description; actions := [] |};
  add_argument p ["-h"; "--help"]
    {| kw_dest := None; kw_action := Some AHelp; kw_nargs := None;
       kw_const := None; kw_default := Some (VStr SUPPRESS);
       kw_metavar := None;
       kw_help := Some "show this help message and exit" |};;
  mret p.

(** [HelpFormatter._format_args] for a positional, without line wrapping *)
Definition format_positional (a : Action) : string :=
  let m := or_else (metavar a) (dest a) in
  match nargs a with
  | NargsNone => m
  | NargsNum n => join " " (List.repeat m n)
  | NargsOptional => "[" ++ m ++ "]"
  | NargsZeroOrMore => "[" ++ m ++ " [" ++ m ++ " ...]]"
  | NargsOneOrMore => m ++ " [" ++ m ++ " ...]"
  | NargsRemainder => "..."
  | NargsParser => m ++ " ..."
  end.

Definition set_actions (l : list Action) (P : Parser) : Parser :=
  {| prog := prog P; description := description P; actions := l |}.

Definition set_kind (k : ActionKind) (a : Action) : Action :=
  {| option_strings := option_strings a; dest := dest a; nargs := nargs a;
     const := const a; default := default a; required := required a;
     help := help a; metavar := metavar a; kind := k |}.

(** ** Output and exit *)

Definition print_help (f : stream) (P : Parser) : SE Out unit :=
  emit (PrintHelp f P).

Definition print_usage (f : stream) (P : Parser) : SE Out unit :=
  emit (PrintUsage f P).

(** [self.exit(status, message)] *)
Definition exit {A} (status : Z) (message : string) : SE Out A :=
  (if String.eqb message "" then mret tt else emit (Write stderr message));;
  raise (SystemExit status).

Definition nl : string := String "010" EmptyString.

(** [argparse.ArgumentParser.error]: the usage on standard error, the
    message, exit status 2. *)
Definition argparse_error (P : Parser) (message : string) : SE Out Empty_set :=
  print_usage stderr P;;
  exit 2 (prog P ++ ": error: " ++ message ++ nl).

Definition argument_error {A} (a : Action) (message : string) : SE Out A :=
  raise (ArgumentError (_get_action_name a) message).

(** ** Argument-count patterns

    argparse turns the argument strings into a pattern string over [A]
    (argument), [O] (option) and [-] (the [--] separator), and matches the
    regular expression of each action's [nargs] against it. *)

Inductive sym := sA | sO | sDash.
Inductive quant := One | Opt | Star.
Inductive cls := cA | cDash | cADash | cAO | cAny.

Definition in_cls (c : cls) (x : sym) : bool :=
  match c, x with
  | cA, sA | cDash, sDash => true
  | cADash, sA | cADash, sDash => true
  | cAO, sA | cAO, sO => true
  | cAny, _ => true
  | _, _ => false
  end.

Definition item : Type := cls * quant.

Fixpoint sep_A (n : nat) : list item :=
  match n with
  | 0 => []
  | 1 => [(cA, One)]
  | S n' => (cA, One) :: (cDash, Star) :: sep_A n'
  end.

(** [_get_nargs_pattern]; for an option, the [-*] and [-] parts are
    removed. *)
Definition _get_nargs_pattern (a : Action) : list item :=
  let pat :=
    match nargs a with
    | NargsNone => [(cDash, Star); (cA, One); (cDash, Star)]
    | NargsOptional => [(cDash, Star); (cA, Opt); (cDash, Star)]
    | NargsZeroOrMore => [(cDash, Star); (cADash, Star)]
    | NargsOneOrMore => [(cDash, Star); (cA, One); (cADash, Star)]
    | NargsRemainder => [(cAny, Star)]
    | NargsParser => [(cDash, Star); (cA, One); (cAny, Star)]
    | NargsNum n => [(cDash, Star)] ++ sep_A n ++ [(cDash, Star)]
    end in
  match option_strings a with
  | [] => pat
  | _ :: _ =>
      List.map (fun it => match it with
                          | (cADash, q) => (cA, q)
                          | (cAny, q) => (cAO, q)
                          | _ => it
                          end)
        (List.filter (fun it => match it with (cDash, _) => false | _ => true end) pat)
  end.

(** Greedy matching with backtracking, as [re.match] does it: anchored at
    the start, longest repetition first. *)
Fixpoint match_star {R} (c : cls) (s : list sym) (k : list sym -> option R)
    : option R :=
  match s with
  | x :: s' =>
      if in_cls c x then
        match match_star c s' k with
        | Some r => Some r
        | None => k s
        end
      else k s
  | [] => k []
  end.

Fixpoint match_items {R} (its : list item) (s : list sym)
    (k : list sym -> option R) : option R :=
  match its with
  | [] => k s
  | (c, One) :: r =>
      match s with
      | x :: s' => if in_cls c x then match_items r s' k else None
      | [] => None
      end
  | (c, Opt) :: r =>
      match (match s with
             | x :: s' => if in_cls c x then match_items r s' k else None
             | [] => None
             end) with
      | Some v => Some v
      | None => match_items r s k
      end
  | (c, Star) :: r => match_star c s (fun s' => match_items r s' k)
  end.

(** The lengths of the groups, one group per action. *)
Fixpoint match_groups (gs : list (list item)) (s : list sym) : option (list nat) :=
  match gs with
  | [] => Some []
  | g :: gs' =>
      match_items g s
        (fun s' => option_map (cons (length s - length s')) (match_groups gs' s'))
  end.

(** [_match_arguments_partial]: the longest prefix of the actions whose
    patterns match. *)
Fixpoint _match_arguments_partial_upto (i : nat) (acts : list Action)
    (s : list sym) : list nat :=
  match i with
  | 0 => []
  | S i' =>
      match match_groups (List.map _get_nargs_pattern (List.firstn i acts)) s with
      | Some r => r
      | None => _match_arguments_partial_upto i' acts s
      end
  end.

Definition _match_arguments_partial (acts : list Action) (s : list sym)
    : list nat :=
  _match_arguments_partial_upto (length acts) acts s.

(** [_match_argument] *)
Definition _match_argument (a : Action) (s : list sym) : SE Out nat :=
  match match_groups [_get_nargs_pattern a] s with
  | Some (n :: _) => mret n
  | _ =>
      argument_error a
        (match nargs a with
         | NargsNone => "expected one argument"
         | NargsOptional => "expected at most one argument"
         | NargsOneOrMore => "expected at least one argument"
         | NargsNum n => "expected " ++ pretty n ++ " argument(s)"
         | NargsZeroOrMore => "expected * argument(s)"
         | NargsRemainder => "expected ... argument(s)"
         | NargsParser => "expected A... argument(s)"
         end)
  end.

(** ** Telling options from arguments *)

Record OptTuple := {
  ot_action : option Action;
  ot_option_string : string;
  ot_explicit_arg : option string;
}.

Definition is_digit (c : ascii) : bool :=
  (48 <=? nat_of_ascii c)%nat && (nat_of_ascii c <=? 57)%nat.

Fixpoint all_digits (s : string) : bool :=
  match s with
  | EmptyString => true
  | String c s' => is_digit c && all_digits s'
  end.

Definition nonempty (s : string) : bool := negb (String.eqb s "").

(** The regular expression [^-\d+$|^-\d*\.\d+$] *)
Definition _negative_number_matcher (s : string) : bool :=
  match s with
  | String "-" r =>
      (nonempty r && all_digits r)
      || match split_once "." r with
         | Some (a, b) => all_digits a && nonempty b && all_digits b
         | None => false
         end
  | _ => false
  end.

Definition all_option_strings (P : Parser) : list string :=
  remove_dups (List.flat_map option_strings (actions P)).

Definition _has_negative_number_optionals (P : Parser) : bool :=
  existsb _negative_number_matcher (all_option_strings P).

(** [_get_option_tuples]: the options that [option_string] abbreviates. *)
Definition _get_option_tuples (P : Parser) (option_string : string)
    : list OptTuple :=
  if is_long_option option_string then
    let '(option_prefix, explicit_arg) :=
      match split_once "=" option_string with
      | Some (a, b) => (a, Some b)
      | None => (option_string, None)
      end in
    List.map (fun os => {| ot_action := find_option (actions P) os;
                           ot_option_string := os;
                           ot_explicit_arg := explicit_arg |})
      (List.filter (fun os => startswith os option_prefix) (all_option_strings P))
  else
    let short_option_prefix := String.substring 0 2 option_string in
    let short_explicit_arg :=
      String.substring 2 (String.length option_string - 2) option_string in
    List.flat_map
      (fun os =>
         if String.eqb os short_option_prefix then
           [{| ot_action := find_option (actions P) os;
               ot_option_string := os;
               ot_explicit_arg := Some short_explicit_arg |}]
         else if startswith os option_string then
           [{| ot_action := find_option (actions P) os;
               ot_option_string := os;
               ot_explicit_arg := None |}]
         else [])
      (all_option_strings P).

Section Methods.

(** [self.error], which a subclass may override; it does not return. *)
Variable error : Parser -> string -> SE Out Empty_set.

Definition fail_with {A} (P : Parser) (message : string) : SE Out A :=
  x ← error P message; match x : Empty_set with end.

(** [parser.add_subparsers(dest=..., metavar=...)].  The result names the
    sub-parsers action by the parser that owns it (a parser has at most
    one). *)
Definition add_subparsers (p : nat) (dest : option string)
    (metavar : option string) : M nat :=
  P ← load p;
  (if existsb is_subparsers (actions P) then
     io (fail_with P "cannot have multiple subparser arguments")
   else mret tt);;
  let positionals :=
    List.filter (fun a => bool_decide (option_strings a = [])) (actions P) in
  let prog_prefix := join " " (prog P :: List.map format_positional positionals) in
  _add_action p
    {| option_strings := []; dest := or_else dest SUPPRESS;
       nargs := NargsParser; const := VNone; default := VNone;
       required := false; help := None; metavar := metavar;
       kind := KSubParsers prog_prefix [] [] |};;
  mret p.

(** What [add_parser] does to the sub-parsers action: the pseudo-action
    for the help listing when [help=] is given, and the entry of the
    name-to-parser map. *)
Definition add_choice (name : string) (parser : nat) (help : option string)
    (a : Action) : Action :=
  match kind a with
  | KSubParsers pp npm ca =>
      set_kind
        (KSubParsers pp (odict_set name parser npm)
           (match help with
            | Some hl => ca ++ [(name, hl)]
            | None => ca
            end)) a
  | _ => a
  end.

(** [subparsers.add_parser(name, help=..., description=...)] *)
Definition add_parser (subparsers : nat) (name : string)
    (help : option string) (description : option string) : M nat :=
  P ← load subparsers;
  match List.find is_subparsers (actions P) with
  | None => raise (PyError "AttributeError" "no sub-parsers action")
  | Some sub =>
      match kind sub with
      | KSubParsers prog_prefix _ _ =>
          parser ← new_parser (prog_prefix ++ " " ++ name) description;
          P ← load subparsers;
          store subparsers
            (set_actions (List.map (add_choice name parser help) (actions P)) P);;
          mret parser
      | _ => raise (PyError "AttributeError" "no sub-parsers action")
      end
  end.

(** ** Parsing *)

(** [_parse_optional]: [None] for an argument, else the option it names
    (with [ot_action = None] when the parser has no such option). *)
Definition _parse_optional (P : Parser) (arg_string : string)
    : SE Out (option OptTuple) :=
  if String.eqb arg_string "" then mret None
  else if negb (starts_with_dash arg_string) then mret None
  else
    match find_option (actions P) arg_string with
    | Some a =>
        mret (Some {| ot_action := Some a; ot_option_string := arg_string;
                      ot_explicit_arg := None |})
    | None =>
        if (String.length arg_string =? 1)%nat then mret None
        else
          match (match split_once "=" arg_string with
                 | Some (option_string, explicit_arg) =>
                     match find_option (actions P) option_string with
                     | Some a =>
                         Some {| ot_action := Some a;
                                 ot_option_string := option_string;
                                 ot_explicit_arg := Some explicit_arg |}
                     | None => None
                     end
                 | None => None
                 end) with
          | Some t => mret (Some t)
          | None =>
              match _get_option_tuples P arg_string with
              | _ :: _ :: _ as option_tuples =>
                  fail_with P
                    ("ambiguous option: " ++ arg_string ++ " could match "
                     ++ join ", " (List.map ot_option_string option_tuples))
              | [option_tuple] => mret (Some option_tuple)
              | [] =>
                  if _negative_number_matcher arg_string
                     && negb (_has_negative_number_optionals P) then mret None
                  else if contains_char " " arg_string then mret None
                  else mret (Some {| ot_action := None;
                                     ot_option_string := arg_string;
                                     ot_explicit_arg := None |})
              end
          end
    end.

(** The option tuple of each argument string ([option_string_indices]) and
    the pattern string ([arg_strings_pattern]). *)
Fixpoint classify (P : Parser) (arg_strings : list string)
    : SE Out (list (option OptTuple) * list sym) :=
  match arg_strings with
  | [] => mret ([], [])
  | arg_string :: rest =>
      if String.eqb arg_string "--" then
        mret (None :: List.map (fun _ => None) rest,
              sDash :: List.map (fun _ => sA) rest)
      else
        option_tuple ← _parse_optional P arg_string;
        '(ts, ps) ← classify P rest;
        mret (option_tuple :: ts,
              (match option_tuple with Some _ => sO | None => sA end) :: ps)
  end.

(** [list.remove('--')] when present *)
Fixpoint remove_first_dashdash (l : list string) : list string :=
  match l with
  | [] => []
  | x :: l' => if String.eqb x "--" then l' else x :: remove_first_dashdash l'
  end.

(** [_get_values]; [None] stands for the [SUPPRESS] object itself. *)
Definition _get_values (a : Action) (arg_strings : list string)
    : SE Out (option Value) :=
  let arg_strings :=
    match nargs a with
    | NargsParser | NargsRemainder => arg_strings
    | _ => remove_first_dashdash arg_strings
    end in
  let of_default (v : Value) := if is_suppress v then None else Some v in
  match arg_strings, nargs a, option_strings a with
  | [], NargsOptional, _ :: _ => mret (of_default (const a))
  | [], NargsOptional, [] => mret (of_default (default a))
  | [], NargsZeroOrMore, [] =>
      mret (match default a with
            | VNone => Some (VList [])
            | v => of_default v
            end)
  | [arg_string], NargsNone, _ | [arg_string], NargsOptional, _ =>
      mret (Some (VStr arg_string))
  | _, NargsRemainder, _ => mret (Some (VList arg_strings))
  | _, NargsParser, _ =>
      match kind a, arg_strings with
      | KSubParsers _ npm _, value :: _ =>
          if bool_decide (is_Some (odict_get value npm)) then
            mret (Some (VList arg_strings))
          else
            argument_error a
              ("invalid choice: " ++ repr value ++ " (choose from "
               ++ join ", " (List.map (fun c => repr (fst c)) npm) ++ ")")
      | KSubParsers _ _ _, [] =>
          raise (PyError "IndexError" "list index out of range")
      | _, _ => mret (Some (VList arg_strings))
      end
  | _, _, _ => mret (Some (VList arg_strings))
  end.

Section ParseKnownArgs.

(** [parser.parse_known_args(arg_strings, namespace)] of a sub-parser. *)
Variable sub_parse :
  nat -> list string -> Namespace -> SE Out (Namespace * list string).

Variable P : Parser.

(** Calling the action object. *)
Definition call_action (a : Action) (ns : Namespace) (values : Value)
    : SE Out Namespace :=
  match kind a with
  | KStore => mret (<[dest a := values]> ns)
  | KStoreConst => mret (<[dest a := const a]> ns)
  | KHelp => print_help stdout P;; exit 0 ""
  | KSubParsers _ name_parser_map _ =>
      match values with
      | VList (parser_name :: arg_strings) =>
          let ns :=
            if String.eqb (dest a) SUPPRESS then ns
            else <[dest a := VStr parser_name]> ns in
          match odict_get parser_name name_parser_map with
          | None =>
              argument_error a
                ("unknown parser " ++ repr parser_name ++ " (choices: "
                 ++ join ", " (List.map fst name_parser_map) ++ ")")
          | Some parser =>
              '(ns, arg_strings) ← sub_parse parser arg_strings ns;
              match arg_strings with
              | [] => mret ns
              | _ :: _ =>
                  match ns !! _UNRECOGNIZED_ARGS_ATTR with
                  | None => mret (<[_UNRECOGNIZED_ARGS_ATTR := VList arg_strings]> ns)
                  | Some (VList l) =>
                      mret (<[_UNRECOGNIZED_ARGS_ATTR := VList (l ++ arg_strings)]> ns)
                  | Some _ =>
                      raise (PyError "AttributeError" "object has no attribute 'extend'")
                  end
              end
          end
      | _ => raise (PyError "IndexError" "list index out of range")
      end
  end.

(** [take_action] *)
Definition take_action (a : Action) (argument_strings : list string)
    (ns : Namespace) : SE Out Namespace :=
  argument_values ← _get_values a argument_strings;
  match argument_values with
  | None => mret ns
  | Some v => call_action a ns v
  end.

Variable arg_strings : list string.
Variable option_string_indices : list (option OptTuple).
Variable arg_strings_pattern : list sym.

Definition slice {A} (l : list A) (i j : nat) : list A :=
  List.firstn (j - i) (List.skipn i l).

Fixpoint take_positionals (acts : list Action) (arg_counts : list nat)
    (start_index : nat) (ns : Namespace) : SE Out (Namespace * nat) :=
  match acts, arg_counts with
  | a :: acts', arg_count :: arg_counts' =>
      ns' ← take_action a
              (slice arg_strings start_index (start_index + arg_count)) ns;
      take_positionals acts' arg_counts' (start_index + arg_count) ns'
  | _, _ => mret (ns, start_index)
  end.

(** The loop variables of [_parse_known_args] *)
Record LoopState := {
  ls_ns : Namespace;
  ls_positionals : list Action;
  ls_extras : list string;
}.

(** [consume_positionals] *)
Definition consume_positionals (st : LoopState) (start_index : nat)
    : SE Out (LoopState * nat) :=
  let arg_counts :=
    _match_arguments_partial (ls_positionals st)
      (List.skipn start_index arg_strings_pattern) in
  '(ns, stop) ← take_positionals (ls_positionals st) arg_counts start_index
                  (ls_ns st);
  mret ({| ls_ns := ns;
           ls_positionals := List.skipn (length arg_counts) (ls_positionals st);
           ls_extras := ls_extras st |}, stop).

(** The part of [consume_optional] for an option that carries an explicit
    argument ([--opt=arg], [-xarg], [-xyz]): the actions to take with their
    arguments. *)
Fixpoint explicit_tuples (no_explicit : Action -> string ->
                            SE Out (list (Action * list string) * nat))
    (start_index : nat) (a : Action) (option_string : string)
    (explicit_arg : string) {struct explicit_arg}
    : SE Out (list (Action * list string) * nat) :=
  arg_count ← _match_argument a [sA];
  if (arg_count =? 0)%nat && negb (is_long_option option_string) then
    match explicit_arg with
    | EmptyString => raise (PyError "IndexError" "string index out of range")
    | String c new_explicit_arg =>
        let option_string' := String "-" (String c EmptyString) in
        match find_option (actions P) option_string' with
        | Some a' =>
            '(rest, stop) ←
              match new_explicit_arg with
              | EmptyString => no_explicit a' option_string'
              | _ => explicit_tuples no_explicit start_index a' option_string'
                       new_explicit_arg
              end;
            mret ((a, []) :: rest, stop)
        | None =>
            argument_error a ("ignored explicit argument " ++ repr explicit_arg)
        end
    end
  else if (arg_count =? 1)%nat then
    mret ([(a, [explicit_arg])], S start_index)
  else
    argument_error a ("ignored explicit argument " ++ repr explicit_arg).

Fixpoint take_actions (l : list (Action * list string)) (ns : Namespace)
    : SE Out Namespace :=
  match l with
  | [] => mret ns
  | (a, args) :: l' => ns' ← take_action a args ns; take_actions l' ns'
  end.

(** [consume_optional] *)
Definition consume_optional (st : LoopState) (start_index : nat)
    : SE Out (LoopState * nat) :=
  match option_string_indices !! start_index with
  | Some (Some option_tuple) =>
      match ot_action option_tuple with
      | None =>
          mret ({| ls_ns := ls_ns st; ls_positionals := ls_positionals st;
                   ls_extras := ls_extras st
                                ++ slice arg_strings start_index (S start_index) |},
                S start_index)
      | Some a =>
          let no_explicit (a : Action) (option_string : string) :=
            let start := S start_index in
            arg_count ← _match_argument a (List.skipn start arg_strings_pattern);
            mret ([(a, slice arg_strings start (start + arg_count))],
                  start + arg_count) in
          '(action_tuples, stop) ←
            match ot_explicit_arg option_tuple with
            | Some explicit_arg =>
                explicit_tuples no_explicit start_index a
                  (ot_option_string option_tuple) explicit_arg
            | None => no_explicit a (ot_option_string option_tuple)
            end;
          ns ← take_actions action_tuples (ls_ns st);
          mret ({| ls_ns := ns; ls_positionals := ls_positionals st;
                   ls_extras := ls_extras st |}, stop)
      end
  | _ => raise (PyError "KeyError" "no option at this index")
  end.

Definition is_option_index (i : nat) : bool :=
  match option_string_indices !! i with
  | Some (Some _) => true
  | _ => false
  end.

(** The least option index that is at least [start_index], if any: the
    loop runs while there is one. *)
Definition next_option_string_index (start_index : nat) : option nat :=
  List.find (fun i => is_option_index i)
    (List.seq start_index (length option_string_indices - start_index)).

(** The [while start_index <= max_option_string_index] loop.  Every round
    moves [start_index] forward, so [length arg_strings] rounds are enough;
    [fuel] bounds them. *)
Fixpoint parse_loop (fuel : nat) (st : LoopState) (start_index : nat)
    : SE Out (LoopState * nat) :=
  match fuel with
  | 0 => mret (st, start_index)
  | S fuel' =>
      match next_option_string_index start_index with
      | None => mret (st, start_index)
      | Some next =>
          let optional (st : LoopState) (start_index : nat) :=
            let st :=
              if is_option_index start_index then st
              else {| ls_ns := ls_ns st; ls_positionals := ls_positionals st;
                      ls_extras := ls_extras st
                                   ++ slice arg_strings start_index next |} in
            let start_index :=
              if is_option_index start_index then start_index else next in
            '(st, stop) ← consume_optional st start_index;
            parse_loop fuel' st stop in
          if bool_decide (start_index <> next) then
            '(st, positionals_end_index) ← consume_positionals st start_index;
            if (start_index <? positionals_end_index)%nat then
              parse_loop fuel' st positionals_end_index
            else optional st positionals_end_index
          else optional st start_index
      end
  end.

End ParseKnownArgs.

(** [_parse_known_args].  The program gives no option [required=True] and
    no mutually exclusive group, and a positional left over is an error
    before the required-argument check, so that check never fires and is
    left out. *)
Definition _parse_known_args
    (sub_parse : nat -> list string -> Namespace -> SE Out (Namespace * list string))
    (P : Parser) (arg_strings : list string) (ns : Namespace)
    : SE Out (Namespace * list string) :=
  '(option_string_indices, arg_strings_pattern) ← classify P arg_strings;
  let positionals :=
    List.filter (fun a => bool_decide (option_strings a = [])) (actions P) in
  '(st, start_index) ←
    parse_loop sub_parse P arg_strings option_string_indices arg_strings_pattern
      (S (length arg_strings))
      {| ls_ns := ns; ls_positionals := positionals; ls_extras := [] |} 0;
  '(st, stop_index) ←
    consume_positionals sub_parse P arg_strings arg_strings_pattern st start_index;
  let extras := ls_extras st ++ List.skipn stop_index arg_strings in
  match ls_positionals st with
  | _ :: _ => fail_with P "too few arguments"
  | [] => mret (ls_ns st, extras)
  end.

(** The defaults [parse_known_args] puts into the namespace first. *)
Definition add_defaults (P : Parser) (ns : Namespace) : Namespace :=
  List.fold_left
    (fun ns a =>
       if negb (String.eqb (dest a) SUPPRESS)
          && bool_decide (ns !! dest a = None)
          && negb (is_suppress (default a))
       then <[dest a := default a]> ns else ns)
    (actions P) ns.

Definition is_ArgumentError (e : exn) : bool :=
  match e with ArgumentError _ _ => true | _ => false end.

(** [parse_known_args] on the parser object [p] of the store [h].  A
    sub-parser is parsed by the same method one level down; [depth] bounds
    the nesting, as the interpreter's recursion limit does. *)
Fixpoint parse_known_args (depth : nat) (h : Heap) (p : nat)
    (args : list string) (ns : Namespace) : SE Out (Namespace * list string) :=
  match depth with
  | 0 => raise (PyError "RuntimeError" "maximum recursion depth exceeded")
  | S depth' =>
      match h !! p with
      | None => raise (PyError "ReferenceError" "no such parser object")
      | Some P =>
          try_except
            ('(ns, args) ← _parse_known_args (parse_known_args depth' h) P args
                              (add_defaults P ns);
             match ns !! _UNRECOGNIZED_ARGS_ATTR with
             | Some (VList l) => mret (delete _UNRECOGNIZED_ARGS_ATTR ns, args ++ l)
             | Some _ => raise (PyError "TypeError" "extend() argument must be iterable")
             | None => mret (ns, args)
             end)
            is_ArgumentError
            (fun err => fail_with P (str_exn err))
      end
  end.

(** [parser.parse_args(args)] *)
Definition parse_args (h : Heap) (p : nat) (args : list string)
    : SE Out Namespace :=
  '(ns, argv) ← parse_known_args (S (length h)) h p args ∅;
  match argv with
  | [] => mret ns
  | _ :: _ =>
      match h !! p with
      | Some P => fail_with P ("unrecognized arguments: " ++ join " " argv)
      | None => raise (PyError "ReferenceError" "no such parser object")
      end
  end.

End Methods.

End ArgumentParser.

(* ===================================================================== *)
(** * Karton's [logging] module *)
(* ===================================================================== *)

(** [main.py] imports [die], [info], [verbose], [set_verbose] and
    [get_verbose] from Karton's own [logging] module. *)

Module Logging.
Import Py Argparse Sys.

(** Modelled from the spec: [logging.set_verbose] is missing from the
    sources at hand.  "A process-wide diagnostic sink consumes ... a
    verbosity toggle"; VerbosityState is "initialized to off at program
    start, set ... from the parsed verbosity flag".  Each call is recorded
    in the trace. *)
Definition set_verbose (b : bool) : M unit :=
  modify (fun w => with_verbosity b (with_trace (trace w ++ [SetVerbose b]) w)).

(** Modelled from the spec: [logging.get_verbose] is missing from the
    sources at hand; it reads VerbosityState. *)
Definition get_verbose : M bool :=
  fun w => (Ret (verbosity w), w).

(** Modelled from the spec: [logging.info] is missing from the sources at
    hand; "emit message at level". *)
Definition info (msg : string) : M unit := io (emit (Log LInfo msg)).

(** Modelled from the spec: [logging.verbose] is missing from the sources
    at hand; "emit message at level", the verbose level being shown when
    VerbosityState is on. *)
Definition verbose (msg : string) : M unit :=
  v ← get_verbose;
  if v : bool then io (emit (Log LVerbose msg)) else mret tt.

(** Modelled from the spec: [logging.die] is missing from the sources at
    hand; it "print[s] a ... error message ... and terminate[s] with a
    failure exit code", which is 1 ("1 ... internal/unknown-command fatal
    error"). *)
Definition die {A} (msg : string) : M A :=
  io (emit (Log LError msg));; raise (SystemExit 1).

End Logging.

(* ===================================================================== *)
(** * [karton/main.py] *)
(* ===================================================================== *)

Module Karton.
Import Py Argparse Sys ArgumentParser Logging.

Definition dq : string := String "034" EmptyString.

(** [class ArgumentParser(argparse.ArgumentParser)]: the overridden
    [error] method (lines 21-28). *)
Definition error (self : Parser) (message : string) : SE Out Empty_set :=
  if String.eqb message "too few arguments" then
    print_help stdout self;;
    raise (SystemExit 1)
  else
    argparse_error self message.

(** [class SharedArgument] (lines 31-57) *)
Record SharedArgument := {
  args : list string;
  kwargs : Kwargs;
}.

Definition add_to_parser (self : SharedArgument) (target_parser : nat) : M unit :=
  add_argument target_parser (args self) (kwargs self);; mret tt.

Definition add_group_to_parser (target_parser : nat)
    (shared_arguments : list SharedArgument) : M unit :=
  for_each shared_arguments (fun arg => add_to_parser arg target_parser).

(** A command's callback: a module-level handler, or the closure [do_help]
    of [run_karton], which is applied to the current values of the
    variables it captures when it is called. *)
Inductive Callback :=
| Handler (f : Namespace -> M unit)
| Closure_do_help.

(** [CommandInfo = namedtuple('CommandInfo', ['name', 'subparser', 'callback'])] *)
Record CommandInfo := {
  name : string;
  subparser : nat;
  callback : Callback;
}.

(** The handlers [do_run] ... [do_build] (lines 63-84). *)
Record Handlers := {
  do_run : Namespace -> M unit;
  do_shell : Namespace -> M unit;
  do_start : Namespace -> M unit;
  do_stop : Namespace -> M unit;
  do_status : Namespace -> M unit;
  do_build : Namespace -> M unit;
}.

(** In [main.py] every one of them is [pass]. *)
Definition pass : Namespace -> M unit := fun _ => mret tt.
Definition stub_handlers : Handlers :=
  {| do_run := pass; do_shell := pass; do_start := pass; do_stop := pass;
     do_status := pass; do_build := pass |}.

(** [add_command] (lines 97-103); the dictionary [all_commands] it writes
    to is passed in and handed back. *)
Definition add_command (subparsers : nat)
    (all_commands : gmap string CommandInfo)
    (command_name : string) (callback : Callback)
    (help description : option string)
    : M (nat * gmap string CommandInfo) :=
  command_subparser ← add_parser subparsers command_name help description;
  mret (command_subparser,
        <[command_name := {| name := command_name;
                             subparser := command_subparser;
                             callback := callback |}]> all_commands).

(** [add_to_every_command] (lines 105-107) *)
Definition add_to_every_command (all_commands : gmap string CommandInfo)
    (args : list string) (kwargs : Kwargs) : M unit :=
  for_each (map_to_list all_commands)
    (fun kv => add_argument (subparser (snd kv)) args kwargs;; mret tt).

(** [cd_args] (lines 110-124) *)
Definition cd_args : list SharedArgument :=
  [ {| args := ["--no-cd"];
       kwargs := {| kw_dest := Some "cd"; kw_action := Some AStoreConst;
                    kw_nargs := None; kw_const := Some (VStr "no");
                    kw_default := None; kw_metavar := None;
                    kw_help := Some "don't change the current directory in the container" |} |};
    {| args := ["--auto-cd"];
       kwargs := {| kw_dest := Some "cd"; kw_action := Some AStoreConst;
                    kw_nargs := None; kw_const := Some (VStr "auto");
                    kw_default := None; kw_metavar := None;
                    kw_help := Some "chanbge the current directory in the container only if the same is available in both container and host" |} |} ].

(** [getattr(namespace, name)] *)
Definition getattr (ns : Namespace) (attr : string) : M Value :=
  match ns !! attr with
  | Some v => mret v
  | None => raise (PyError "AttributeError"
                     ("'Namespace' object has no attribute '" ++ attr ++ "'"))
  end.

(** [str(value)], as used by ['%s' % value] *)
Definition str_value (v : Value) : string :=
  match v with
  | VNone => "None"
  | VBool true => "True"
  | VBool false => "False"
  | VStr s => s
  | VList l => "[" ++ join ", " (List.map repr l) ++ "]"
  end.

(** [dict.get(key)] with a key that came out of a namespace; a list is
    not hashable. *)
Definition dict_get {V} (d : gmap string V) (key : Value) : M (option V) :=
  match key with
  | VStr s => mret (d !! s)
  | VList _ => raise (PyError "TypeError" "unhashable type: 'list'")
  | VNone | VBool _ => mret None
  end.

(** The message of [do_help] for an unknown command (lines 190-191). *)
Definition not_a_command_message (sub_command_name : string) : string :=
  dq ++ sub_command_name ++ dq ++ " is not a Karton command. Try " ++ dq
  ++ "karton help" ++ dq ++ " to list the available commands.".

(** The closure [do_help] (lines 182-193), applied to the variables
    [parser] and [all_commands] of [run_karton]. *)
Definition do_help (parser : nat) (all_commands : gmap string CommandInfo)
    (help_parsed_args : Namespace) : M unit :=
  sub_command_name ← getattr help_parsed_args "sub_command";
  match sub_command_name with
  | VNone =>
      P ← load parser;
      io (print_help stdout P)
  | VBool _ | VStr _ | VList _ =>
      command ← dict_get all_commands sub_command_name;
      match command with
      | None => die (not_a_command_message (str_value sub_command_name))
      | Some command =>
          P ← load (subparser command);
          io (print_help stdout P)
      end
  end.

(** [command.callback(parsed_args)] *)
Definition call (parser : nat) (all_commands : gmap string CommandInfo)
    (cb : Callback) (parsed_args : Namespace) : M unit :=
  match cb with
  | Handler f => f parsed_args
  | Closure_do_help => do_help parser all_commands parsed_args
  end.

(** The grammar [run_karton] builds (lines 92-214): the parser and the
    dictionary of commands. *)
Definition build_cli (H : Handlers) (prog : string)
    : M (nat * gmap string CommandInfo) :=
  parser ← new_parser prog (Some "Manages semi-persistent Docker containers.");
  subparsers ← add_subparsers error parser (Some "command") (Some "COMMAND");
  let all_commands : gmap string CommandInfo := ∅ in
  (* "run" command. *)
  '(run_parser, all_commands) ←
    add_command subparsers all_commands "run" (Handler (do_run H))
      (Some "run a  program in the container")
      (Some "Runs a program or command inside the container (starting it if necessary).");
  add_argument run_parser ["remainder"]
    {| kw_dest := None; kw_action := None; kw_nargs := Some NargsRemainder;
       kw_const := None; kw_default := None; kw_metavar := Some "COMMANDS";
       kw_help := Some "commands to execute in the container" |};;
  add_group_to_parser run_parser cd_args;;
  (* "shell" command. *)
  '(shell_parser, all_commands) ←
    add_command subparsers all_commands "shell" (Handler (do_shell H))
      (Some "start a shell in the container")
      (Some "Starts an interactive shell inside the container (starting it if necessary)");
  add_group_to_parser shell_parser cd_args;;
  (* "start" command. *)
  '(start_parser, all_commands) ←
    add_command subparsers all_commands "start" (Handler (do_start H))
      (Some "if not running, start the container")
      (Some ("Starts the container. If already running does nothing. Usually you should not need to use this command as both "
             ++ dq ++ "run" ++ dq ++ " and " ++ dq ++ "shell" ++ dq
             ++ " start the container automatically.")%string);
  (* "stop" command. *)
  '(stop_parser, all_commands) ←
    add_command subparsers all_commands "stop" (Handler (do_stop H))
      (Some "stop the container if running")
      (Some "Stops the container. If already not running does nothing.");
  (* "status" command. *)
  '(status_parser, all_commands) ←
    add_command subparsers all_commands "status" (Handler (do_status H))
      (Some "query the status of the container")
      (Some "Prints information about the status of the container and the list of programs running in it.");
  (* "build" command. *)
  '(build_parser, all_commands) ←
    add_command subparsers all_commands "build" (Handler (do_build H))
      (Some "build the image for the container")
      (Some "Builds (or rebuilds) the image for the specified container.");
  (* "help" command. *)
  '(help_parser, all_commands) ←
    add_command subparsers all_commands "help" Closure_do_help
      (Some "show the help message")
      (Some "Shows the documentation. If used with no argument, then the general documentation is shown. Otherwise, when a command is specified as argument, the documentation for that command is shown.");
  add_argument help_parser ["sub_command"]
    {| kw_dest := None; kw_action := None; kw_nargs := Some NargsOptional;
       kw_const := None; kw_default := None; kw_metavar := Some "COMMAND";
       kw_help := Some "command you want to know more about" |};;
  (* Arguments common to everything. *)
  add_to_every_command all_commands ["-v"; "--verbose"]
    {| kw_dest := None; kw_action := Some AStoreTrue; kw_nargs := None;
       kw_const := None; kw_default := None; kw_metavar := None;
       kw_help := Some "enable verbose logging" |};;
  mret (parser, all_commands).

(** Lines 221-227: look the command up and call it. *)
Definition dispatch (parser : nat) (all_commands : gmap string CommandInfo)
    (parsed_args : Namespace) : M unit :=
  command_name ← getattr parsed_args "command";
  command ← dict_get all_commands command_name;
  match command with
  | None =>
      die ("Invalid command " ++ dq ++ str_value command_name ++ dq
           ++ ". This should not happen.")
  | Some command => call parser all_commands (callback command) parsed_args
  end.

(** [run_karton] (lines 87-227).  [sys_argv] is [sys.argv]: the program
    name, then the process arguments.  The parser objects are created
    afresh, so the store starts empty. *)
Definition run_karton (H : Handlers) (sys_argv : list string) : M unit :=
  modify (with_heap []);;
  '(parser, all_commands) ← build_cli H (basename (List.hd "" sys_argv));
  (* Now actually parse the command line. *)
  h ← (fun w => (Ret (heap w), w));
  parsed_args ← io (parse_args error h parser (List.tl sys_argv));
  v ← getattr parsed_args "verbose";
  set_verbose (truthy v);;
  dispatch parser all_commands parsed_args.

(** Line 246: ['Internal error!\nGot exception: "%s".\n' % exc] *)
Definition internal_error_message (exc : exn) : string :=
  "Internal error!" ++ nl ++ "Got exception: " ++ dq ++ str_exn exc ++ dq
  ++ "." ++ nl.

(** The body of [main] (lines 239-253) around the call it guards. *)
Definition main_with (body : M unit) : M unit :=
  try_except body
    (fun e => bool_decide (e = KeyboardInterrupt) || is_Exception e)
    (fun e =>
       match e with
       | KeyboardInterrupt =>
           info (nl ++ "Interrupted.");;
           raise (SystemExit 1)
       | exc =>
           (* We print the backtrace only if verbose logging is enabled. *)
           let msg := internal_error_message exc in
           v ← get_verbose;
           if v : bool then
             verbose msg;;
             raise exc
           else
             die msg
       end);;
  raise (SystemExit 0).

(** [main] (lines 230-253) *)
Definition main (H : Handlers) (sys_argv : list string) : M unit :=
  main_with (run_karton H sys_argv).

(** The process [python main.py ...]: VerbosityState off, nothing printed
    yet. *)
Definition initial_world : World :=
  {| verbosity := false; trace := []; heap := [] |}.

(** What lines 92-214 leave behind: the parser objects (the top-level
    parser is object 0, the sub-parsers follow in the order of
    registration) and the dictionary [all_commands]. *)
Definition cli_heap (prog : string) : Heap :=
  Eval vm_compute in heap (build_cli stub_handlers prog initial_world).2.

Definition cli_commands (H : Handlers) : gmap string CommandInfo :=
  list_to_map
    [ ("run", {| name := "run"; subparser := 1; callback := Handler (do_run H) |});
      ("shell", {| name := "shell"; subparser := 2; callback := Handler (do_shell H) |});
      ("start", {| name := "start"; subparser := 3; callback := Handler (do_start H) |});
      ("stop", {| name := "stop"; subparser := 4; callback := Handler (do_stop H) |});
      ("status", {| name := "status"; subparser := 5; callback := Handler (do_status H) |});
      ("build", {| name := "build"; subparser := 6; callback := Handler (do_build H) |});
      ("help", {| name := "help"; subparser := 7; callback := Closure_do_help |}) ].

Definition command_names : list string :=
  ["run"; "shell"; "start"; "stop"; "status"; "build"; "help"].


(** How often the trace records a call of [logging.set_verbose]. *)
Definition count_set_verbose (t : Out) : nat :=
  length (List.filter (fun e => match e with SetVerbose _ => true | _ => false end) t).

(** The text is one line. *)
Definition single_line (text : string) : Prop := length (splitlines text) = 1.

(** Line 217 on that grammar. *)
Definition parse_cli (sys_argv : list string) : SE Out Namespace :=
  parse_args error (cli_heap (basename (List.hd "" sys_argv))) 0
    (List.tl sys_argv).

Definition karton (H : Handlers) (sys_argv : list string) : Z * Out :=
  exit_status (main H sys_argv initial_world).

End Karton.


(* ===================================================================== *)
(** * Reasoning about computations *)
(* ===================================================================== *)

Import Py Argparse Sys ArgumentParser Logging Karton.

(** [m] changes no state when it returns, and what it returns satisfies
    [R].  The parsing engine writes output only on the way to an exit, so
    all of it is of this kind. *)
Definition yields {S A} (m : SE S A) (R : A -> Prop) : Prop :=
  forall s a s', m s = (Ret a, s') -> s' = s /\ R a.

Section Yields.
Context {S : Type}.

Lemma yields_ret {A} (a : A) (R : A -> Prop) : R a -> yields (S:=S) (mret a) R.
Proof. intros HR s a' s' [= <- <-]. done. Qed.

Lemma yields_raise {A} (e : exn) (R : A -> Prop) : yields (S:=S) (raise e) R.
Proof. intros s a s' [=]. Qed.

Lemma yields_bind {A B} (m : SE S A) (k : A -> SE S B) (Q : A -> Prop)
    (R : B -> Prop) :
  yields m Q -> (forall a, Q a -> yields (k a) R) -> yields (m ≫= k) R.
Proof.
  intros Hm Hk s b s'. unfold mbind, SE_bind, bind.
  destruct (m s) as [[a|e] s1] eqn:E; [|done].
  intros Hka. destruct (Hm _ _ _ E) as [-> HQ]. by eapply Hk.
Qed.

Lemma yields_weaken {A} (m : SE S A) (Q R : A -> Prop) :
  yields m Q -> (forall a, Q a -> R a) -> yields m R.
Proof. intros Hm HQR s a s' E. destruct (Hm _ _ _ E). auto. Qed.

Lemma yields_and {A} (m : SE S A) (Q R : A -> Prop) :
  yields m Q -> yields m R -> yields m (fun a => Q a /\ R a).
Proof. intros HQ HR s a s' E. destruct (HQ _ _ _ E), (HR _ _ _ E). auto. Qed.

Lemma yields_never {B} (m : SE S Empty_set) (k : Empty_set -> SE S B)
    (R : B -> Prop) : yields (m ≫= k) R.
Proof.
  intros s b s'. unfold mbind, SE_bind, bind.
  destruct (m s) as [[[]|e] s1]; done.
Qed.

Lemma yields_then_raise {A B} (m : SE S A) (e : exn) (R : B -> Prop) :
  yields (m;; raise e) R.
Proof.
  intros s b s'. unfold mbind, SE_bind, bind, raise.
  destruct (m s) as [[a|e'] s1]; done.
Qed.

(** [m] does not return. *)
Definition never {A} (m : SE S A) : Prop :=
  forall s a s', m s <> (Ret a, s').

Lemma never_raise {A} (e : exn) : never (A:=A) (raise e).
Proof. by intros s a s'. Qed.

Lemma never_bind_r {A B} (m : SE S A) (k : A -> SE S B) :
  (forall a, never (k a)) -> never (m ≫= k).
Proof.
  intros Hk s b s'. unfold mbind, SE_bind, bind.
  destruct (m s) as [[a|e] s1]; [apply Hk|done].
Qed.

Lemma never_empty {B} (m : SE S Empty_set) (k : Empty_set -> SE S B) :
  never (m ≫= k).
Proof.
  intros s b s'. unfold mbind, SE_bind, bind.
  destruct (m s) as [[[]|e] s1]; done.
Qed.

Lemma never_yields {A} (m : SE S A) (R : A -> Prop) : never m -> yields m R.
Proof. intros Hm s a s' E. by apply Hm in E. Qed.

Lemma yields_try_except {A} (m : SE S A) (c : exn -> bool)
    (h : exn -> SE S A) (R : A -> Prop) :
  yields m R -> (forall e, never (h e)) -> yields (try_except m c h) R.
Proof.
  intros Hm Hh s a s'. unfold try_except.
  destruct (m s) as [[a'|e] s1] eqn:E.
  - intros [= <- <-]. eauto.
  - destruct (c e); [|done]. intros Hhe. by apply Hh in Hhe.
Qed.

End Yields.

Ltac ystep :=
  lazymatch goal with
  | |- yields (mret _) _ => apply yields_ret
  | |- yields (raise _) _ => apply yields_raise
  | |- yields (fail_with _ _ _) _ => unfold fail_with; apply yields_never
  | |- yields (argument_error _ _) _ => apply yields_raise
  | |- yields (exit _ _) _ => apply yields_then_raise
  | |- yields (_;; exit _ _) _ =>
      apply never_yields, never_bind_r; intros ?; apply never_bind_r;
      intros ?; apply never_raise
  | |- yields (_ ≫= _) _ => eapply yields_bind
  | |- yields (match ?x with _ => _ end) _ => destruct x eqn:?
  end.

(* ===================================================================== *)
(** * Facts about the parsing engine *)
(* ===================================================================== *)

(** Every attribute of [ns] other than the scratch attribute for
    unrecognized arguments is an attribute of [ns']. *)
Definition mono (ns ns' : Namespace) : Prop :=
  forall k, k <> _UNRECOGNIZED_ARGS_ATTR -> is_Some (ns !! k) -> is_Some (ns' !! k).

Lemma mono_refl ns : mono ns ns.
Proof. by intros k. Qed.

Lemma mono_trans ns1 ns2 ns3 : mono ns1 ns2 -> mono ns2 ns3 -> mono ns1 ns3.
Proof. intros H1 H2 k Hk Hs. auto. Qed.

Lemma mono_insert (ns : Namespace) k v : mono ns (<[k := v]> ns).
Proof.
  intros k' _ Hs. destruct (decide (k = k')) as [->|Hne].
  - rewrite lookup_insert_eq. eauto.
  - by rewrite lookup_insert_ne.
Qed.

Lemma mono_delete (ns : Namespace) :
  mono ns (delete _UNRECOGNIZED_ARGS_ATTR ns).
Proof. intros k Hk Hs. by rewrite lookup_delete_ne. Qed.

Section EngineFacts.

Variable error : Parser -> string -> SE Out Empty_set.

Lemma yields__match_argument a s : yields (_match_argument a s) (fun _ => True).
Proof. unfold _match_argument. repeat ystep; done. Qed.

Lemma yields__parse_optional P s :
  yields (_parse_optional error P s) (fun _ => True).
Proof. unfold _parse_optional. repeat ystep; done. Qed.

Lemma yields_classify P args : yields (classify error P args) (fun _ => True).
Proof.
  induction args as [|a args IH]; simpl.
  - by ystep.
  - ystep; [by ystep|]. ystep; [apply yields__parse_optional|].
    intros o _. ystep; [apply IH|]. intros [ts ps] _. by ystep.
Qed.

Lemma yields__get_values a args : yields (_get_values a args) (fun _ => True).
Proof. unfold _get_values. repeat ystep; done. Qed.

Section Parser.

Variable sub_parse :
  nat -> list string -> Namespace -> SE Out (Namespace * list string).
Hypothesis sub_parse_mono :
  forall p args ns, yields (sub_parse p args ns) (fun r => mono ns r.1).

Variable P : Parser.

Lemma yields_call_action a ns v :
  yields (call_action sub_parse P a ns v) (mono ns).
Proof.
  unfold call_action. destruct (kind a) eqn:Hk.
  - ystep. apply mono_insert.
  - ystep. apply mono_insert.
  - ystep.
  - destruct v as [| | |[|parser_name arg_strings]];
      [apply yields_raise..|].
    set (ns1 := if String.eqb (dest a) SUPPRESS then ns
                else <[dest a := VStr parser_name]> ns).
    assert (mono ns ns1) as H1.
    { unfold ns1. destruct (String.eqb _ _); [apply mono_refl|apply mono_insert]. }
    destruct (odict_get parser_name name_parser_map);
      [|apply yields_raise].
    ystep; [apply sub_parse_mono|]. intros [ns2 rest] H2. simpl in H2.
    assert (mono ns ns2) as H12 by (eapply mono_trans; eauto).
    repeat ystep;
      try (eapply mono_trans; [exact H12|apply mono_insert]); done.
Qed.

Lemma yields_take_action a args ns :
  yields (take_action sub_parse P a args ns) (mono ns).
Proof.
  unfold take_action. ystep; [apply yields__get_values|].
  intros [v|] _; [apply yields_call_action|]. ystep. apply mono_refl.
Qed.

(** A property [Φ] of namespaces that survives new attributes, and the
    positionals [E] whose action establishes it. *)
Variable Φ : Namespace -> Prop.
Variable E : Action -> Prop.
Hypothesis Φ_mono : forall ns ns', Φ ns -> mono ns ns' -> Φ ns'.
Hypothesis E_establishes :
  forall a args ns, E a -> yields (take_action sub_parse P a args ns) Φ.

Section Loop.

Variable arg_strings : list string.
Variable option_string_indices : list (option OptTuple).
Variable arg_strings_pattern : list sym.

Lemma yields_take_positionals acts counts i ns :
  Forall E acts ->
  yields (take_positionals sub_parse P arg_strings acts counts i ns)
    (fun r => mono ns r.1 /\ (Φ ns \/ (acts <> [] /\ counts <> []) -> Φ r.1)).
Proof.
  revert counts i ns.
  induction acts as [|a acts IH]; intros counts i ns HE; simpl.
  - ystep. split; [apply mono_refl|]. intros [?|[? _]]; done.
  - destruct counts as [|c counts].
    + ystep. split; [apply mono_refl|]. intros [?|[_ ?]]; done.
    + apply Forall_cons in HE as [Ha HE].
      eapply yields_bind with (Q := fun ns' => mono ns ns' /\ Φ ns').
      { apply yields_and; [apply yields_take_action|by apply E_establishes]. }
      intros ns' [Hm HΦ]. eapply yields_weaken; [by apply IH|].
      intros [ns2 j] [Hm2 HΦ2]; simpl in *. split.
      * by eapply mono_trans.
      * intros _. apply HΦ2. by left.
Qed.

(** The invariant of the loop of [_parse_known_args], started on [ns0]. *)
Definition loop_inv (ns0 : Namespace) (st : LoopState) : Prop :=
  mono ns0 (ls_ns st) /\ Forall E (ls_positionals st)
  /\ (ls_positionals st = [] -> Φ (ls_ns st)).

Lemma yields_consume_positionals ns0 st i :
  loop_inv ns0 st ->
  yields (consume_positionals sub_parse P arg_strings arg_strings_pattern st i)
    (fun r => loop_inv ns0 r.1).
Proof.
  intros (Hm & HE & HΦ). unfold consume_positionals.
  ystep; [by apply yields_take_positionals|].
  intros [ns j] [Hm2 HΦ2]; simpl in *. ystep. repeat split; simpl.
  - by eapply mono_trans.
  - by apply Forall_drop.
  - intros Hnil. apply HΦ2.
    destruct (ls_positionals st) as [|a ps] eqn:Hps; [left; by apply HΦ|].
    right. split; [done|]. intros Hc. by rewrite Hc in Hnil.
Qed.

Lemma yields_take_actions l ns :
  yields (take_actions sub_parse P l ns) (mono ns).
Proof.
  revert ns. induction l as [|[a args] l IH]; intros ns; simpl.
  - ystep. apply mono_refl.
  - ystep; [apply yields_take_action|]. intros ns' Hm.
    eapply yields_weaken; [apply IH|]. intros ns2 Hm2. by eapply mono_trans.
Qed.

Lemma yields_explicit_tuples no_explicit i a os ex :
  (forall a os, yields (no_explicit a os) (fun _ => True)) ->
  yields (explicit_tuples P no_explicit i a os ex) (fun _ => True).
Proof.
  intros Hno. revert a os.
  induction ex as [|c ex IH]; intros a os; simpl.
  - ystep; [apply yields__match_argument|]. intros n _.
    repeat ystep; done.
  - ystep; [apply yields__match_argument|]. intros n _.
    destruct (_ && _).
    + destruct (find_option _ _); [|apply yields_raise].
      ystep; [destruct ex; [apply Hno|apply IH]|].
      intros [rest stop] _. by ystep.
    + repeat ystep; done.
Qed.

Lemma loop_inv_ns ns0 st ns :
  loop_inv ns0 st -> mono (ls_ns st) ns ->
  forall extras,
    loop_inv ns0 {| ls_ns := ns; ls_positionals := ls_positionals st;
                    ls_extras := extras |}.
Proof.
  intros (Hm & HE & HΦ) Hm2 extras. repeat split; simpl; eauto using mono_trans.
Qed.

Lemma yields_consume_optional ns0 st i :
  loop_inv ns0 st ->
  yields (consume_optional sub_parse P arg_strings option_string_indices
            arg_strings_pattern st i)
    (fun r => loop_inv ns0 r.1).
Proof.
  intros Hinv. unfold consume_optional.
  destruct (option_string_indices !! i) as [[t|]|]; try apply yields_raise.
  destruct (ot_action t) as [a|].
  - assert (forall a (os : string),
              yields (arg_count ← _match_argument a
                                    (List.skipn (S i) arg_strings_pattern);
                      mret ([(a, slice arg_strings (S i) (S i + arg_count))],
                            S i + arg_count)) (fun _ => True)) as Hno.
    { intros a' os. ystep; [apply yields__match_argument|]. intros; by ystep. }
    ystep.
    { instantiate (1 := fun _ => True).
      destruct (ot_explicit_arg t);
        [by apply yields_explicit_tuples|apply (Hno a EmptyString)]. }
    intros [tuples stop] _. ystep; [apply yields_take_actions|].
    intros ns Hm. ystep. simpl. by apply loop_inv_ns.
  - ystep. simpl. apply loop_inv_ns; [done|apply mono_refl].
Qed.

Lemma yields_parse_loop ns0 fuel st i :
  loop_inv ns0 st ->
  yields (parse_loop sub_parse P arg_strings option_string_indices
            arg_strings_pattern fuel st i)
    (fun r => loop_inv ns0 r.1).
Proof.
  revert st i. induction fuel as [|fuel IH]; intros st i Hinv; simpl.
  - by ystep.
  - destruct (next_option_string_index _ _) as [next|]; [|by ystep].
    assert (forall st i,
              loop_inv ns0 st ->
              yields
                ('(st, stop) ←
                   consume_optional sub_parse P arg_strings
                     option_string_indices arg_strings_pattern
                     (if is_option_index option_string_indices i then st
                      else {| ls_ns := ls_ns st;
                              ls_positionals := ls_positionals st;
                              ls_extras := ls_extras st
                                           ++ slice arg_strings i next |})
                     (if is_option_index option_string_indices i then i
                      else next);
                 parse_loop sub_parse P arg_strings option_string_indices
                   arg_strings_pattern fuel st stop)
                (fun r => loop_inv ns0 r.1)) as Hopt.
    { intros st' i' Hinv'. ystep.
      - apply yields_consume_optional.
        destruct (is_option_index _ _); [done|].
        apply loop_inv_ns; [done|apply mono_refl].
      - intros [st2 stop] Hinv2. by apply IH. }
    destruct (bool_decide _); [|by apply Hopt].
    ystep; [by apply yields_consume_positionals|].
    intros [st1 pend] Hinv1; simpl in *.
    destruct (_ <? _)%nat; [by apply IH|by apply Hopt].
Qed.

End Loop.

Lemma yields__parse_known_args arg_strings ns :
  Forall E (List.filter (fun a => bool_decide (option_strings a = []))
              (actions P)) ->
  (List.filter (fun a => bool_decide (option_strings a = [])) (actions P) = []
   -> Φ ns) ->
  yields (_parse_known_args error sub_parse P arg_strings ns)
    (fun r => mono ns r.1 /\ Φ r.1).
Proof.
  intros HE HΦ. unfold _parse_known_args.
  ystep; [apply yields_classify|]. intros [idx pat] _.
  ystep.
  { apply yields_parse_loop with (ns0 := ns).
    repeat split; simpl; [apply mono_refl|done..]. }
  intros [st i] Hinv. ystep; [by apply yields_consume_positionals|].
  intros [st' j] (Hm & _ & HΦ'); simpl in *.
  destruct (ls_positionals st'); [|ystep]. ystep. auto.
Qed.

End Parser.
End EngineFacts.

Section EngineDepth.

Variable error : Parser -> string -> SE Out Empty_set.

(** An action whose destination [parse_known_args] fills in by default. *)
Definition has_default (a : Action) : Prop :=
  dest a <> SUPPRESS /\ is_suppress (default a) = false
  /\ dest a <> _UNRECOGNIZED_ARGS_ATTR.

Lemma add_defaults_spec P ns :
  mono ns (add_defaults P ns)
  /\ forall a, a ∈ actions P -> has_default a ->
               is_Some (add_defaults P ns !! dest a).
Proof.
  unfold add_defaults. revert ns.
  induction (actions P) as [|a l IH]; intros ns; simpl.
  - split; [apply mono_refl|]. intros a Ha. by apply elem_of_nil in Ha.
  - match goal with |- context [fold_left _ l ?x] => set (ns1 := x) end.
    assert (mono ns ns1) as Hm1.
    { unfold ns1. destruct (_ && _); [apply mono_insert|apply mono_refl]. }
    destruct (IH ns1) as [Hm2 Hd]. split; [by eapply mono_trans|].
    intros a' [->|Hin]%elem_of_cons Hdef; [|by apply Hd].
    destruct Hdef as (Hs & Hdf & Hu). apply Hm2; [done|].
    unfold ns1. rewrite Hdf. simpl. rewrite andb_true_r.
    destruct (String.eqb_spec (dest a) SUPPRESS) as [?|_]; [done|]. simpl.
    case_bool_decide as Hn; [rewrite lookup_insert_eq; eauto|].
    destruct (ns !! dest a); [eauto|done].
Qed.

Lemma never_fail_with {A} P msg : never (fail_with (A:=A) error P msg).
Proof. apply never_empty. Qed.

Lemma parse_known_args_S depth h p args ns :
  parse_known_args error (S depth) h p args ns
  = match h !! p with
    | None => raise (PyError "ReferenceError" "no such parser object")
    | Some P =>
        try_except
          ('(ns, args) ← _parse_known_args error
                            (parse_known_args error depth h) P args
                            (add_defaults P ns);
           match ns !! _UNRECOGNIZED_ARGS_ATTR with
           | Some (VList l) => mret (delete _UNRECOGNIZED_ARGS_ATTR ns, args ++ l)
           | Some _ => raise (PyError "TypeError" "extend() argument must be iterable")
           | None => mret (ns, args)
           end)
          is_ArgumentError
          (fun err => fail_with error P (str_exn err))
    end.
Proof. reflexivity. Qed.

(** [parse_known_args] keeps the attributes it is given and adds the
    defaults of the parser's actions. *)
Lemma yields_parse_known_args depth h p args ns :
  yields (parse_known_args error depth h p args ns)
    (fun r => mono ns r.1
              /\ forall P a, h !! p = Some P -> a ∈ actions P ->
                             has_default a -> is_Some (r.1 !! dest a)).
Proof.
  revert p args ns. induction depth as [|d IH]; intros p args ns.
  - apply yields_raise.
  - rewrite parse_known_args_S.
    destruct (h !! p) as [P|] eqn:HP; [|apply yields_raise].
    apply yields_try_except; [|intros e; apply never_fail_with].
    destruct (add_defaults_spec P ns) as [Hm0 Hd0].
    eapply yields_bind.
    { apply yields__parse_known_args
        with (Φ := fun _ => True) (E := fun _ => True); try done.
      - intros p' args' ns'. eapply yields_weaken; [apply IH|]. by intros ? [? _].
      - intros a' args' ns' _. eapply yields_weaken; [|done].
        apply yields_take_action.
        intros p' args'' ns''. eapply yields_weaken; [apply IH|]. by intros ? [? _].
      - by apply Forall_forall. }
    intros [ns1 args1] [Hm1 _]; simpl in Hm1.
    assert (mono ns ns1) as Hm by (by eapply mono_trans).
    assert (forall ns2, mono ns1 ns2 ->
              mono ns ns2 /\ forall P' a, Some P = Some P' -> a ∈ actions P' ->
                                         has_default a -> is_Some (ns2 !! dest a))
      as Hfin.
    { intros ns2 Hm2. split; [by eapply mono_trans|].
      intros P' a [= <-] Ha Hdef. apply Hm2; [apply Hdef|].
      apply Hm1; [apply Hdef|]. by apply Hd0. }
    repeat ystep; simpl; try done; apply Hfin;
      [apply mono_delete|apply mono_refl].
Qed.

(** The action of a sub-parsers positional leaves behind whatever every
    one of its sub-parsers leaves behind. *)
Lemma take_action_subparsers sub_parse P a pp npm ca (Φ : Namespace -> Prop)
    args ns :
  kind a = KSubParsers pp npm ca ->
  nargs a = NargsParser ->
  (forall ns ns', Φ ns -> mono ns ns' -> Φ ns') ->
  (forall name p args ns,
     odict_get name npm = Some p -> yields (sub_parse p args ns) (fun r => Φ r.1)) ->
  yields (take_action sub_parse P a args ns) Φ.
Proof.
  intros Hk Hn HΦ Hsub. unfold take_action.
  eapply yields_bind with (Q := fun v => exists l, v = Some (VList l)).
  { unfold _get_values. rewrite Hn, Hk.
    destruct args as [|value args]; [apply yields_raise|].
    destruct (option_strings a); repeat ystep; eauto. }
  intros v [l ->]. unfold call_action. rewrite Hk.
  destruct l as [|parser_name arg_strings]; [apply yields_raise|].
  destruct (odict_get parser_name npm) as [p|] eqn:Hp; [|apply yields_raise].
  ystep; [by eapply Hsub|]. intros [ns2 rest] H2; simpl in H2.
  repeat ystep; try done; (eapply HΦ; [exact H2|apply mono_insert]).
Qed.

End EngineDepth.

(* ===================================================================== *)
(** * Facts about Karton's grammar *)
(* ===================================================================== *)

(** The sub-parsers action's map of the built grammar. *)
Definition command_refs : list (string * nat) :=
  [("run", 1); ("shell", 2); ("start", 3); ("stop", 4); ("status", 5);
   ("build", 6); ("help", 7)].

Lemma build_cli_eq H prog w :
  build_cli H prog (with_heap [] w)
  = (Ret (0, cli_commands H), with_heap (cli_heap prog) w).
Proof. destruct w as [v t h]. vm_compute. reflexivity. Qed.

Lemma cli_top_parser prog :
  exists P0 sub pp ca,
    cli_heap prog !! 0 = Some P0
    /\ List.filter (fun a => bool_decide (option_strings a = [])) (actions P0)
       = [sub]
    /\ kind sub = KSubParsers pp command_refs ca
    /\ nargs sub = NargsParser
    /\ length (cli_heap prog) = 8.
Proof. vm_compute. do 4 eexists. repeat split. Qed.

(** [a] fills the attribute [k] in by default. *)
Definition fills (k : string) (a : Action) : bool :=
  String.eqb (dest a) k && negb (String.eqb (dest a) SUPPRESS)
  && negb (is_suppress (default a))
  && negb (String.eqb (dest a) _UNRECOGNIZED_ARGS_ATTR).

Lemma fills_has_default k l :
  existsb (fills k) l = true ->
  exists a, a ∈ l /\ dest a = k /\ has_default a.
Proof.
  intros (a & Hin & Hf)%existsb_exists. exists a.
  apply list_elem_of_In in Hin. unfold fills in Hf.
  repeat (apply andb_true_iff in Hf as [Hf ?]).
  repeat match goal with
         | H : negb _ = true |- _ => apply negb_true_iff in H
         | H : String.eqb _ _ = true |- _ => apply String.eqb_eq in H
         | H : String.eqb _ _ = false |- _ => apply String.eqb_neq in H
         end.
  by repeat split.
Qed.

Lemma cli_subparser_verbose prog name p :
  odict_get name command_refs = Some p ->
  exists P, cli_heap prog !! p = Some P
            /\ existsb (fills "verbose") (actions P) = true.
Proof.
  unfold command_refs. simpl.
  repeat (destruct (String.eqb name _);
          [intros [= <-]; vm_compute; eexists; split; reflexivity|]).
  discriminate.
Qed.

(** A successful parse of Karton's command line prints nothing and leaves
    the attribute [verbose] in the namespace: a sub-command is mandatory, and
    every sub-parser has the [-v] flag with its default. *)
Lemma yields_parse_cli sys_argv :
  yields (parse_cli sys_argv) (fun ns => is_Some (ns !! "verbose")).
Proof.
  unfold parse_cli, parse_args.
  set (prog := basename _). set (args := List.tl _).
  destruct (cli_top_parser prog) as (P0 & sub & pp & ca & HP0 & Hpos & Hk & Hn & Hlen).
  rewrite Hlen, HP0, parse_known_args_S, HP0. cbv beta iota.
  set (Φ := fun ns : Namespace => is_Some (ns !! "verbose")).
  assert (forall ns ns', Φ ns -> mono ns ns' -> Φ ns') as HΦ.
  { intros ns ns' HΦ Hm. by apply Hm. }
  assert (forall p args ns,
            yields (parse_known_args error 8 (cli_heap prog) p args ns)
              (fun r => mono ns r.1)) as Hsub.
  { intros. eapply yields_weaken; [apply yields_parse_known_args|].
    by intros ? [? _]. }
  ystep.
  { apply yields_try_except; [|intros e; apply never_fail_with].
    eapply yields_bind.
    { apply yields__parse_known_args with (Φ := Φ) (E := fun a => a = sub).
      - exact Hsub.
      - exact HΦ.
      - intros a args' ns ->.
        eapply take_action_subparsers; [exact Hk|exact Hn|exact HΦ|].
        intros name p args'' ns' Hp.
        destruct (cli_subparser_verbose prog _ _ Hp) as (P & HP & Hex).
        apply fills_has_default in Hex as (a & Hin & Hd & Hdef).
        eapply yields_weaken; [apply yields_parse_known_args|].
        intros r [_ Hr]. unfold Φ. rewrite <- Hd. by eapply Hr.
      - rewrite Hpos. by apply Forall_singleton.
      - rewrite Hpos. intros [=]. }
    intros [ns1 args1] [_ H1]; simpl in H1.
    instantiate (1 := fun r => Φ r.1).
    repeat ystep; unfold fst.
    - eapply HΦ; [exact H1|apply mono_delete].
    - exact H1. }
  intros [ns argv] Hns; simpl in Hns. repeat ystep; done.
Qed.

(** [run_karton], with the grammar built: parse, then the rest. *)
Lemma run_karton_eq H sys_argv w :
  run_karton H sys_argv w
  = match parse_cli sys_argv (trace w) with
    | (Ret ns, t') =>
        (v ← getattr ns "verbose";
         set_verbose (truthy v);;
         dispatch 0 (cli_commands H) ns)
          {| verbosity := verbosity w; trace := t';
             heap := cli_heap (basename (List.hd "" sys_argv)) |}
    | (Raise e, t') =>
        (Raise e, {| verbosity := verbosity w; trace := t';
                     heap := cli_heap (basename (List.hd "" sys_argv)) |})
    end.
Proof.
  unfold run_karton. unfold mbind at 1 2. unfold SE_bind, bind at 1 2.
  unfold modify at 1. rewrite build_cli_eq.
  unfold mbind at 1 2, SE_bind, bind at 1 2.
  unfold io, zoom, parse_cli.
  cbn [heap with_heap trace with_trace verbosity].
  destruct (parse_args _ _ _ _ _) as [[ns|e] t']; reflexivity.
Qed.

(** After a successful parse: the flag is there, and [run_karton] is the
    look-up and the call in a world where the verbosity has been set from it
    once. *)
Lemma run_karton_parsed H sys_argv w ns t' :
  parse_cli sys_argv (trace w) = (Ret ns, t') ->
  t' = trace w
  /\ exists v,
       ns !! "verbose" = Some v
       /\ run_karton H sys_argv w
          = dispatch 0 (cli_commands H) ns
              {| verbosity := truthy v;
                 trace := trace w ++ [SetVerbose (truthy v)];
                 heap := cli_heap (basename (List.hd "" sys_argv)) |}.
Proof.
  intros Hp. destruct (yields_parse_cli _ _ _ _ Hp) as [-> [v Hv]].
  split; [reflexivity|]. exists v. split; [exact Hv|].
  rewrite run_karton_eq, Hp.
  unfold mbind at 1 2, SE_bind, bind at 1 2, getattr. rewrite Hv. reflexivity.
Qed.

(* ===================================================================== *)
(** * The fault boundary *)
(* ===================================================================== *)

Lemma main_with_ret body w w' :
  body w = (Ret tt, w') -> main_with body w = (Raise (SystemExit 0), w').
Proof.
  intros Hb. unfold main_with, mbind, SE_bind, bind, try_except.
  by rewrite Hb.
Qed.

Lemma main_with_exit body w c w' :
  body w = (Raise (SystemExit c), w') ->
  main_with body w = (Raise (SystemExit c), w').
Proof.
  intros Hb. unfold main_with, mbind, SE_bind, bind, try_except.
  by rewrite Hb.
Qed.

Lemma main_with_interrupt body w w' :
  body w = (Raise KeyboardInterrupt, w') ->
  main_with body w
  = (Raise (SystemExit 1),
     with_trace (trace w' ++ [Log LInfo (nl ++ "Interrupted.")]) w').
Proof.
  intros Hb. unfold main_with, mbind, SE_bind, bind, try_except.
  by rewrite Hb.
Qed.

Lemma main_with_exception body w e w' :
  body w = (Raise e, w') -> is_Exception e = true ->
  main_with body w
  = if verbosity w'
    then (Raise e,
          with_trace (trace w' ++ [Log LVerbose (internal_error_message e)]) w')
    else (Raise (SystemExit 1),
          with_trace (trace w' ++ [Log LError (internal_error_message e)]) w').
Proof.
  intros Hb He. unfold main_with, mbind, SE_bind, bind, try_except.
  rewrite Hb. destruct e as [c| |n m|c m]; try discriminate He;
    destruct w' as [[] t h]; reflexivity.
Qed.

(* ===================================================================== *)
(** * The specification's statements *)
(* ===================================================================== *)

Lemma app_nonempty_r (a b : string) : b <> "" -> String.eqb (a ++ b) "" = false.
Proof.
  intros Hb. apply String.eqb_neq. destruct a; simpl; [done|discriminate].
Qed.

(** C10: the presentation "help on standard output, exit status 1" is given
    exactly when the engine reports the message [too few arguments]; every
    other message goes to argparse's own error handling: the usage and the
    message on standard error, exit status 2. *)
Theorem error_special_iff_too_few_arguments (P : Parser) (message : string)
    (t : Out) :
  error P message t
  = (if decide (message = "too few arguments")
     then (Raise (SystemExit 1), t ++ [PrintHelp stdout P])
     else (Raise (SystemExit 2),
           t ++ [PrintUsage stderr P;
                 Write stderr (prog P ++ ": error: " ++ message ++ nl)]))
  /\ (error P message t = (Raise (SystemExit 1), t ++ [PrintHelp stdout P])
      <-> message = "too few arguments").
Proof.
  assert (error P message t
          = if decide (message = "too few arguments")
            then (Raise (SystemExit 1), t ++ [PrintHelp stdout P])
            else (Raise (SystemExit 2),
                  t ++ [PrintUsage stderr P;
                        Write stderr (prog P ++ ": error: " ++ message ++ nl)]))
    as Heq.
  { unfold error. destruct (String.eqb_spec message "too few arguments") as [->|Hne].
    - reflexivity.
    - rewrite decide_False by done.
      unfold argparse_error, exit, mbind, SE_bind, bind, print_usage, emit, modify.
      rewrite app_nonempty_r.
      + simpl. by rewrite <- app_assoc.
      + destruct message; discriminate. }
  split; [exact Heq|]. rewrite Heq. case_decide; split; done.
Qed.

(** C8: [main] ends with exactly one exit: status 0 when [run_karton]
    returned, and the [SystemExit] that [run_karton] raised, with its own
    status, when it raised one; the [SystemExit(0)] of the last line is
    reached only after a normal return. *)
Theorem main_exit_code_is_the_dispatchers (H : Handlers)
    (sys_argv : list string) (w : World) :
  (exists e w', main H sys_argv w = (Raise e, w'))
  /\ match run_karton H sys_argv w with
     | (Ret _, w') =>
         main H sys_argv w = (Raise (SystemExit 0), w')
         /\ exit_status (main H sys_argv w) = (0%Z, trace w')
     | (Raise (SystemExit code), w') =>
         main H sys_argv w = (Raise (SystemExit code), w')
         /\ exit_status (main H sys_argv w) = (code, trace w')
     | (Raise _, _) =>
         forall w'', main H sys_argv w <> (Raise (SystemExit 0), w'')
     end.
Proof.
  unfold main.
  destruct (run_karton H sys_argv w) as [[[]|e] w'] eqn:Hr.
  - rewrite (main_with_ret _ _ _ Hr). eauto.
  - destruct e as [c| |n m|c m].
    + rewrite (main_with_exit _ _ _ _ Hr). eauto.
    + rewrite (main_with_interrupt _ _ _ Hr). split; [eauto|]. by intros w''.
    + rewrite (main_with_exception _ _ _ _ Hr) by done.
      destruct (verbosity w'); split; eauto; by intros w''.
    + rewrite (main_with_exception _ _ _ _ Hr) by done.
      destruct (verbosity w'); split; eauto; by intros w''.
Qed.

(** Handlers of which [do_run] is interrupted, for the examples. *)
Definition interrupted_handlers : Handlers :=
  {| do_run := fun _ => raise KeyboardInterrupt;
     do_shell := pass; do_start := pass; do_stop := pass;
     do_status := pass; do_build := pass |}.

(** C3: when the dispatcher is interrupted ([KeyboardInterrupt] comes out of
    it, whatever it had done until then), [main] logs the notice
    [Interrupted.] at the info level and exits with status 1; whether the
    verbosity is on or off, it prints no traceback and no [Internal error!]
    message. *)
Theorem interrupt_gives_notice_and_exit_1 (body : M unit) (w w' : World) :
  body w = (Raise KeyboardInterrupt, w') ->
  main_with body w
  = (Raise (SystemExit 1),
     with_trace (trace w' ++ [Log LInfo (nl ++ "Interrupted.")]) w')
  /\ exit_status (main_with body w)
     = (1%Z, trace w' ++ [Log LInfo (nl ++ "Interrupted.")]).
Proof.
  intros Hb. rewrite (main_with_interrupt _ _ _ Hb). done.
Qed.

Lemma interrupt_gives_notice_and_exit_1_witness :
  run_karton interrupted_handlers ["karton"; "run"; "-v"] initial_world
  = (Raise KeyboardInterrupt,
     {| verbosity := true; trace := [SetVerbose true];
        heap := cli_heap "karton" |})
  /\ karton interrupted_handlers ["karton"; "run"; "-v"]
     = (1%Z, [SetVerbose true; Log LInfo (nl ++ "Interrupted.")]).
Proof.
  assert (run_karton interrupted_handlers ["karton"; "run"; "-v"] initial_world
          = (Raise KeyboardInterrupt,
             {| verbosity := true; trace := [SetVerbose true];
                heap := cli_heap "karton" |})) as Hr
    by (vm_compute; reflexivity).
  split; [exact Hr|].
  unfold karton, main.
  exact (proj2 (interrupt_gives_notice_and_exit_1 _ _ _ Hr)).
Defined.

(** C1: with no process argument ([sys.argv] is the program name alone)
    the program prints the help of the top-level parser on standard output,
    prints nothing else (no usage line, no error line), and exits with
    status 1. *)
Theorem no_arguments_prints_help_exit_1 (H : Handlers) (argv0 : string)
    (w : World) :
  exists P,
    cli_heap (basename argv0) !! 0 = Some P
    /\ prog P = basename argv0
    /\ description P = Some "Manages semi-persistent Docker containers."
    /\ main H [argv0] w
       = (Raise (SystemExit 1),
          {| verbosity := verbosity w;
             trace := trace w ++ [PrintHelp stdout P];
             heap := cli_heap (basename argv0) |})
    /\ exit_status (main H [argv0] w) = (1%Z, trace w ++ [PrintHelp stdout P])
    /\ karton H [argv0] = (1%Z, [PrintHelp stdout P]).
Proof.
  assert (exists P, cli_heap (basename argv0) !! 0 = Some P
                    /\ prog P = basename argv0
                    /\ description P = Some "Manages semi-persistent Docker containers."
                    /\ forall t, parse_cli [argv0] t
                                 = (Raise (SystemExit 1), t ++ [PrintHelp stdout P]))
    as (P & HP & Hprog & Hdesc & Hparse).
  { unfold parse_cli. simpl List.hd. simpl List.tl.
    generalize (basename argv0). intros prog.
    vm_compute. eexists. repeat split. }
  exists P. split; [exact HP|]. split; [exact Hprog|]. split; [exact Hdesc|].
  assert (forall w, main H [argv0] w
                    = (Raise (SystemExit 1),
                       {| verbosity := verbosity w;
                          trace := trace w ++ [PrintHelp stdout P];
                          heap := cli_heap (basename argv0) |})) as Hmain.
  { intros w0. unfold main. apply main_with_exit.
    rewrite run_karton_eq, Hparse. reflexivity. }
  split; [apply Hmain|]. unfold karton. rewrite !Hmain.
  split; reflexivity.
Qed.

(** ** Verbosity is set once, before the dispatch *)

(** [m] makes no call of [logging.set_verbose]. *)
Definition keeps_set_count {A} (m : M A) : Prop :=
  forall w r w', m w = (r, w') ->
                 count_set_verbose (trace w') = count_set_verbose (trace w).

Lemma keeps_ret {A} (a : A) : keeps_set_count (mret a).
Proof. by intros w r w' [= <- <-]. Qed.

Lemma keeps_raise {A} e : keeps_set_count (A:=A) (raise e).
Proof. by intros w r w' [= <- <-]. Qed.

Lemma keeps_bind {A B} (m : M A) (k : A -> M B) :
  keeps_set_count m -> (forall a, keeps_set_count (k a)) ->
  keeps_set_count (m ≫= k).
Proof.
  intros Hm Hk w r w'. unfold mbind, SE_bind, bind.
  destruct (m w) as [[a|e] w1] eqn:E.
  - intros Hka. rewrite (Hk _ _ _ _ Hka). by eapply Hm.
  - intros [= <- <-]. by eapply Hm.
Qed.

Lemma count_set_verbose_snoc t e :
  count_set_verbose (t ++ [e])
  = (count_set_verbose t
     + match e with SetVerbose _ => 1 | _ => 0 end)%nat.
Proof.
  unfold count_set_verbose. rewrite List.filter_app, length_app.
  by destruct e.
Qed.

Lemma keeps_print_help f P : keeps_set_count (io (print_help f P)).
Proof.
  intros w r w' [= <- <-]. simpl. rewrite count_set_verbose_snoc. lia.
Qed.

Lemma keeps_die {A} msg : keeps_set_count (die (A:=A) msg).
Proof.
  intros w r w' [= <- <-]. simpl. rewrite count_set_verbose_snoc. lia.
Qed.

Lemma keeps_load p : keeps_set_count (load p).
Proof. intros w r w'. unfold load. destruct (_ !! _); by intros [= <- <-]. Qed.

Lemma keeps_getattr ns k : keeps_set_count (getattr ns k).
Proof. unfold getattr. destruct (_ !! _); [apply keeps_ret|apply keeps_raise]. Qed.

Lemma keeps_dict_get {V} (d : gmap string V) key :
  keeps_set_count (dict_get d key).
Proof. destruct key; first [apply keeps_ret|apply keeps_raise]. Qed.

Lemma keeps_do_help parser all_commands ns :
  keeps_set_count (do_help parser all_commands ns).
Proof.
  unfold do_help. apply keeps_bind; [apply keeps_getattr|]. intros v.
  assert (forall p, keeps_set_count (P ← load p; io (print_help stdout P))) as Hp.
  { intros p. apply keeps_bind; [apply keeps_load|]. intros P.
    apply keeps_print_help. }
  assert (keeps_set_count
            (command ← dict_get all_commands v;
             match command with
             | Some command => P ← load (subparser command); io (print_help stdout P)
             | None => die (not_a_command_message (str_value v))
             end)) as Hc.
  { apply keeps_bind; [apply keeps_dict_get|].
    intros [c|]; [apply Hp|apply keeps_die]. }
  destruct v; [apply Hp|exact Hc..].
Qed.

Lemma cli_commands_lookup H c info :
  cli_commands H !! c = Some info ->
  info ∈ [ {| name := "run"; subparser := 1; callback := Handler (do_run H) |};
           {| name := "shell"; subparser := 2; callback := Handler (do_shell H) |};
           {| name := "start"; subparser := 3; callback := Handler (do_start H) |};
           {| name := "stop"; subparser := 4; callback := Handler (do_stop H) |};
           {| name := "status"; subparser := 5; callback := Handler (do_status H) |};
           {| name := "build"; subparser := 6; callback := Handler (do_build H) |};
           {| name := "help"; subparser := 7; callback := Closure_do_help |} ]
  /\ name info = c.
Proof.
  intros Hl. apply elem_of_list_to_map_2 in Hl.
  repeat (apply elem_of_cons in Hl as [[= -> ->]|Hl];
          [split; [|reflexivity];
           repeat first [apply list_elem_of_here|apply list_elem_of_further]|]).
  by apply elem_of_nil in Hl.
Qed.

Lemma bind_ret_l {S A B} (a : A) (k : A -> SE S B) : (mret a ≫= k) = k a.
Proof. reflexivity. Qed.

Lemma keeps_dispatch_stub parser ns :
  keeps_set_count (dispatch parser (cli_commands stub_handlers) ns).
Proof.
  unfold dispatch. apply keeps_bind; [apply keeps_getattr|]. intros v.
  destruct v as [|b|c|l]; simpl dict_get; rewrite ?bind_ret_l;
    try apply keeps_die.
  - destruct (cli_commands stub_handlers !! c) as [info|] eqn:Hl;
      [|apply keeps_die].
    apply cli_commands_lookup in Hl as [Hin _].
    repeat (apply elem_of_cons in Hin as [->|Hin];
            [first [apply keeps_ret|apply keeps_do_help]|]).
    by apply elem_of_nil in Hin.
  - apply keeps_raise.
Qed.

(** C6: when the parse succeeds, the namespace carries the verbosity flag,
    and the rest of [run_karton] (the look-up of the command and the call
    of its handler) runs in a world where [logging.set_verbose] has been
    called with that flag exactly once since the invocation began: the
    verbosity state is the flag and the trace went from [trace w] to
    [trace w ++ [SetVerbose flag]].  A handler that is called is called in
    that world; with the handlers of [main.py] the whole invocation makes
    that one call and no other. *)
Theorem verbosity_set_once_before_dispatch (H : Handlers)
    (sys_argv : list string) (w : World) (ns : Namespace) (t' : Out) :
  parse_cli sys_argv (trace w) = (Ret ns, t') ->
  exists v,
    ns !! "verbose" = Some v
    /\ let w2 := {| verbosity := truthy v;
                    trace := trace w ++ [SetVerbose (truthy v)];
                    heap := cli_heap (basename (List.hd "" sys_argv)) |} in
       run_karton H sys_argv w = dispatch 0 (cli_commands H) ns w2
       /\ count_set_verbose (trace w2) = S (count_set_verbose (trace w))
       /\ (forall c info f,
             ns !! "command" = Some (VStr c) ->
             cli_commands H !! c = Some info ->
             callback info = Handler f ->
             run_karton H sys_argv w = f ns w2)
       /\ (forall r w',
             run_karton stub_handlers sys_argv w = (r, w') ->
             count_set_verbose (trace w') = S (count_set_verbose (trace w))).
Proof.
  intros Hp.
  destruct (run_karton_parsed H _ _ _ _ Hp) as [-> (v & Hv & Hrun)].
  exists v. split; [exact Hv|]. cbv zeta.
  assert (count_set_verbose (trace w ++ [SetVerbose (truthy v)])
          = S (count_set_verbose (trace w))) as Hcount.
  { rewrite count_set_verbose_snoc. lia. }
  split; [exact Hrun|]. split; [exact Hcount|]. split.
  - intros c info f Hc Hl Hcb. rewrite Hrun.
    unfold dispatch, getattr. rewrite Hc, bind_ret_l.
    unfold dict_get. rewrite bind_ret_l, Hl. unfold call. rewrite Hcb.
    reflexivity.
  - intros r w' Hr.
    destruct (run_karton_parsed stub_handlers _ _ _ _ Hp)
      as [_ (v' & Hv' & Hrun')].
    rewrite Hv in Hv'. injection Hv' as <-.
    rewrite Hrun' in Hr. apply keeps_dispatch_stub in Hr.
    rewrite Hr. exact Hcount.
Qed.

Lemma verbosity_set_once_before_dispatch_witness :
  let ns : Namespace :=
    list_to_map [("command", VStr "shell"); ("cd", VNone);
                 ("verbose", VBool true)] in
  parse_cli ["karton"; "shell"; "-v"] [] = (Ret ns, [])
  /\ exists v,
       ns !! "verbose" = Some v
       /\ run_karton stub_handlers ["karton"; "shell"; "-v"] initial_world
          = dispatch 0 (cli_commands stub_handlers) ns
              {| verbosity := truthy v; trace := [SetVerbose (truthy v)];
                 heap := cli_heap "karton" |}.
Proof.
  intros ns.
  assert (parse_cli ["karton"; "shell"; "-v"] (trace initial_world)
          = (Ret ns, [])) as Hp by (vm_compute; reflexivity).
  split; [exact Hp|].
  destruct (verbosity_set_once_before_dispatch stub_handlers _ _ _ _ Hp)
    as (v & Hv & Hrun & _).
  exists v. split; [exact Hv|exact Hrun].
Defined.

(** ** Handler failures *)

Lemma splitlines_from_nonempty cur s :
  cur <> "" -> splitlines_from cur s <> [].
Proof.
  revert cur. induction s as [|c s IH]; intros cur Hcur; simpl.
  - by destruct cur.
  - destruct (Ascii.eqb c "010"); [done|]. apply IH. by destruct cur.
Qed.

(** The message of line 246 has at least two lines, the first of which is
    [Internal error!]. *)
Lemma internal_error_message_lines exc :
  exists line rest,
    splitlines (internal_error_message exc) = "Internal error!" :: line :: rest.
Proof.
  unfold internal_error_message, splitlines. simpl.
  match goal with
  | |- context [splitlines_from ?c ?s] =>
      pose proof (splitlines_from_nonempty c s) as Hne;
      destruct (splitlines_from c s) as [|line rest]
  end.
  - by destruct Hne.
  - eauto.
Qed.

(** C2 (as the code has it): a handler that fails with an exception (not
    an interrupt, not an exit) and leaves the verbosity as it was set from
    the flag ends the process with status 1.  With the flag set, [main]
    logs the message [Internal error!], newline, [Got exception: "..."] at the
    verbose level and raises the exception again, so that the interpreter
    prints its traceback; without the flag, [main] makes one call of [die]
    with that same message and there is no traceback.  The message is not
    one line: it has a line break after [Internal error!]. *)
Theorem handler_failure_report (H : Handlers) (sys_argv : list string)
    (w : World) (ns : Namespace) (t' : Out) (c : string) (info : CommandInfo)
    (f : Namespace -> M unit) (v : Value) (e : exn) (w3 : World) :
  parse_cli sys_argv (trace w) = (Ret ns, t') ->
  ns !! "verbose" = Some v ->
  ns !! "command" = Some (VStr c) ->
  cli_commands H !! c = Some info ->
  callback info = Handler f ->
  f ns {| verbosity := truthy v;
          trace := trace w ++ [SetVerbose (truthy v)];
          heap := cli_heap (basename (List.hd "" sys_argv)) |}
  = (Raise e, w3) ->
  is_Exception e = true ->
  verbosity w3 = truthy v ->
  exit_status (main H sys_argv w)
  = (1%Z,
     trace w3
     ++ (if truthy v
         then [Log LVerbose (internal_error_message e); Traceback e]
         else [Log LError (internal_error_message e)]))
  /\ exists line rest,
       splitlines (internal_error_message e)
       = "Internal error!" :: line :: rest.
Proof.
  intros Hp Hv Hc Hl Hcb Hf He Hverb.
  split; [|apply internal_error_message_lines].
  destruct (verbosity_set_once_before_dispatch H _ _ _ _ Hp)
    as (v' & Hv' & _ & _ & Hcall & _).
  rewrite Hv in Hv'. injection Hv' as <-.
  specialize (Hcall _ _ _ Hc Hl Hcb). rewrite Hf in Hcall.
  unfold main. rewrite (main_with_exception _ _ _ _ Hcall He), Hverb.
  destruct (truthy v); simpl.
  - destruct e; try discriminate He; simpl; by rewrite <- app_assoc.
  - done.
Qed.

(** Handlers of which [do_run] fails, for the examples. *)
Definition failing_handlers : Handlers :=
  {| do_run := fun _ => raise (PyError "RuntimeError" "boom");
     do_shell := pass; do_start := pass; do_stop := pass;
     do_status := pass; do_build := pass |}.

Lemma handler_failure_report_witness :
  exit_status (main failing_handlers ["karton"; "run"; "-v"] initial_world)
  = (1%Z,
     [SetVerbose true;
      Log LVerbose (internal_error_message (PyError "RuntimeError" "boom"));
      Traceback (PyError "RuntimeError" "boom")]).
Proof.
  refine (proj1 (handler_failure_report failing_handlers
                   ["karton"; "run"; "-v"] initial_world
                   (list_to_map [("command", VStr "run"); ("cd", VNone);
                                 ("verbose", VBool true);
                                 ("remainder", VList [])])
                   [] "run"
                   {| name := "run"; subparser := 1;
                      callback := Handler (do_run failing_handlers) |}
                   (do_run failing_handlers) (VBool true)
                   (PyError "RuntimeError" "boom")
                   {| verbosity := true; trace := [SetVerbose true];
                      heap := cli_heap "karton" |}
                   _ _ _ _ _ _ _ _));
    vm_compute; reflexivity.
Defined.

(** C2, counterexample to "exactly one line": without [--verbose], a
    failing [run] handler makes the program emit a report of two lines. *)
Lemma quiet_report_is_not_one_line :
  exists report,
    karton failing_handlers ["karton"; "run"] = (1%Z, [SetVerbose false; Log LError report])
    /\ splitlines report
       = ["Internal error!";
          ("Got exception: " ++ dq ++ "boom" ++ dq ++ ".")%string]
    /\ ~ single_line report.
Proof.
  eexists. split; [vm_compute; reflexivity|].
  split; [vm_compute; reflexivity|]. unfold single_line. vm_compute. lia.
Qed.

(** ** [help <name>] *)


Lemma help_unregistered H c :
  c ∉ command_names -> cli_commands H !! c = None.
Proof. intros Hc. by apply not_elem_of_list_to_map_1. Qed.



(* ===================================================================== *)
(** * Facts about building a grammar *)
(* ===================================================================== *)

(** The [-h/--help] action every parser starts with. *)
Definition help_action : Action :=
  {| option_strings := ["-h"; "--help"]; dest := "help"; nargs := NargsNum 0;
     const := VNone; default := VStr SUPPRESS; required := false;
     help := Some "show this help message and exit"; metavar := None;
     kind := KHelp |}.

Definition fresh_parser (prog : string) (description : option string) : Parser :=
  {| prog := prog; description := description; actions := [help_action] |}.

(** The action object that [add_argument] makes of flags and keywords. *)
Definition flag_action (args : list string) (kw : Kwargs) : Res Action :=
  match args with
  | [] => Raise (PyError "TypeError" "no flags")
  | [a] =>
      if starts_with_dash a then
        match _get_optional_kwargs args kw with
        | Ret (opts, d) => make_action opts d false kw
        | Raise e => Raise e
        end
      else Raise (PyError "TypeError" "not a flag")
  | _ =>
      match _get_optional_kwargs args kw with
      | Ret (opts, d) => make_action opts d false kw
      | Raise e => Raise e
      end
  end.

(** None of the flags is an option of [P] already. *)
Definition no_conflict (args : list string) (P : Parser) : Prop :=
  Forall (fun s => find_option (actions P) s = None) args.

Lemma _get_optional_kwargs_flags args kw opts d :
  _get_optional_kwargs args kw = Ret (opts, d) -> opts = args.
Proof.
  unfold _get_optional_kwargs.
  destruct (List.find _ args) as [[|? ?]|]; [discriminate..|].
  destruct (kw_dest kw); [by intros [= <- _]|].
  destruct (String.eqb _ _); [discriminate|]. by intros [= <- _].
Qed.

Lemma make_action_option_strings opts d r kw a :
  make_action opts d r kw = Ret a -> option_strings a = opts.
Proof.
  unfold make_action. intros Hf.
  repeat match type of Hf with
         | match ?x with _ => _ end = _ => destruct x eqn:?; try discriminate Hf
         | (if ?x then _ else _) = _ => destruct x eqn:?; try discriminate Hf
         end;
    injection Hf as <-; reflexivity.
Qed.

Lemma flag_action_option_strings args kw a :
  flag_action args kw = Ret a -> option_strings a = args.
Proof.
  unfold flag_action. intros Hf.
  assert (forall opts d, _get_optional_kwargs args kw = Ret (opts, d) ->
                         make_action opts d false kw = Ret a ->
                         option_strings a = args) as Hboth.
  { intros opts d Hk Hm. apply _get_optional_kwargs_flags in Hk as <-.
    by eapply make_action_option_strings. }
  destruct args as [|a0 [|a1 args']]; [discriminate Hf| |].
  - destruct (starts_with_dash a0); [|discriminate Hf].
    destruct (_get_optional_kwargs _ _) as [[opts d]|e] eqn:Hk;
      [|discriminate Hf].
    by eapply Hboth.
  - destruct (_get_optional_kwargs _ _) as [[opts d]|e] eqn:Hk;
      [|discriminate Hf].
    by eapply Hboth.
Qed.

Lemma _check_conflict_ok P a :
  no_conflict (option_strings a) P -> _check_conflict P a = Ret tt.
Proof.
  unfold no_conflict, _check_conflict. intros Hn.
  replace (List.filter _ (option_strings a)) with (@nil string); [done|].
  symmetry. induction Hn as [|s l Hs _ IH]; simpl; [done|].
  rewrite Hs. rewrite bool_decide_false by (by intros [? ?]). exact IH.
Qed.

Lemma _add_action_ok p a P w :
  heap w !! p = Some P -> no_conflict (option_strings a) P ->
  _add_action p a w
  = (Ret a, with_heap (<[p := append_action a P]> (heap w)) w).
Proof.
  intros HP Hn. unfold _add_action, mbind, SE_bind, bind, load.
  rewrite HP. unfold lift_res. by rewrite _check_conflict_ok.
Qed.

Lemma add_argument_flag p args kw a P w :
  flag_action args kw = Ret a -> heap w !! p = Some P -> no_conflict args P ->
  add_argument p args kw w
  = (Ret a, with_heap (<[p := append_action a P]> (heap w)) w).
Proof.
  intros Hf HP Hn.
  pose proof (flag_action_option_strings _ _ _ Hf) as Ho.
  rewrite <- Ho in Hn.
  unfold add_argument. unfold mbind at 1. unfold SE_bind, bind at 1.
  match goal with
  | |- match ?m w with _ => _ end = _ =>
      assert (m w = (Ret a, w)) as ->
  end; [|by apply _add_action_ok].
  unfold flag_action in Hf.
  destruct args as [|a0 [|a1 args]]; [done| |].
  - destruct (starts_with_dash a0) eqn:Hd; [|done].
    destruct a0 as [|c0 s0]; [done|]. simpl negb. cbv iota.
    unfold mbind, SE_bind, bind, lift_res.
    destruct (_get_optional_kwargs _ _) as [[opts d]|e]; [|done].
    by rewrite Hf.
  - unfold mbind, SE_bind, bind, lift_res.
    destruct a0 as [|c0 s0];
      (destruct (_get_optional_kwargs _ _) as [[opts d]|e]; [|done]);
      by rewrite Hf.
Qed.

Lemma insert_snoc {A} (l : list A) (x y : A) :
  <[length l := y]> (l ++ [x]) = l ++ [y].
Proof. rewrite insert_app_r_alt by lia. by rewrite Nat.sub_diag. Qed.

Lemma new_parser_eq prog description w :
  new_parser prog description w
  = (Ret (length (heap w)),
     with_heap (heap w ++ [fresh_parser prog description]) w).
Proof.
  unfold new_parser, mbind, SE_bind, bind, alloc.
  erewrite add_argument_flag with (a := help_action);
    [| reflexivity | apply list_lookup_middle; reflexivity
     | repeat constructor ].
  unfold with_heap. cbn [heap verbosity trace].
  rewrite insert_snoc. reflexivity.
Qed.

(** The prefix of the program names of the sub-parsers of [P]. *)
Definition prog_prefix_of (P : Parser) : string :=
  match List.find is_subparsers (actions P) with
  | Some sub => match kind sub with KSubParsers pp _ _ => pp | _ => "" end
  | None => ""
  end.

Lemma add_parser_eq sp name hl descr w P :
  heap w !! sp = Some P ->
  existsb is_subparsers (actions P) = true ->
  add_parser sp name hl descr w
  = (Ret (length (heap w)),
     with_heap
       (<[sp := set_actions
                  (List.map (add_choice name (length (heap w)) hl) (actions P)) P]>
          (heap w ++ [fresh_parser (prog_prefix_of P ++ " " ++ name) descr]))
       w).
Proof.
  intros HP Hex. unfold add_parser, prog_prefix_of.
  unfold mbind at 1. unfold SE_bind, bind at 1. unfold load at 1. rewrite HP.
  destruct (List.find is_subparsers (actions P)) as [sub|] eqn:Hfind.
  2:{ apply existsb_exists in Hex as (a & Hin & Ha).
      eapply find_none in Hfind; [|exact Hin]. congruence. }
  apply find_some in Hfind as [_ Hsub]. unfold is_subparsers in Hsub.
  destruct (kind sub) as [| | |pp npm ca]; try discriminate Hsub.
  unfold mbind, SE_bind, bind. rewrite new_parser_eq.
  unfold load. simpl heap.
  rewrite lookup_app_l by (by eapply lookup_lt_Some).
  rewrite HP. reflexivity.
Qed.

Lemma is_subparsers_add_choice name parser hl a :
  is_subparsers (add_choice name parser hl a) = is_subparsers a.
Proof.
  unfold add_choice, is_subparsers. by destruct (kind a) eqn:Hk; rewrite ?Hk.
Qed.

Lemma existsb_add_choice name parser hl l :
  existsb is_subparsers (List.map (add_choice name parser hl) l)
  = existsb is_subparsers l.
Proof.
  induction l as [|a l IH]; simpl; [done|].
  by rewrite is_subparsers_add_choice, IH.
Qed.

(** [add_command], on a valid sub-parsers action: it never fails; the new
    parser is a fresh object, and the name is bound to the new entry. *)
Lemma add_command_eq sp cmds c cb hl descr w P :
  heap w !! sp = Some P ->
  existsb is_subparsers (actions P) = true ->
  add_command sp cmds c cb hl descr w
  = (Ret (length (heap w),
          <[c := {| name := c; subparser := length (heap w); callback := cb |}]>
            cmds),
     with_heap
       (<[sp := set_actions
                  (List.map (add_choice c (length (heap w)) hl) (actions P)) P]>
          (heap w ++ [fresh_parser (prog_prefix_of P ++ " " ++ c) descr]))
       w).
Proof.
  intros HP Hex. unfold add_command, mbind, SE_bind, bind.
  by rewrite (add_parser_eq _ _ _ _ _ _ HP Hex).
Qed.

(** The state [run_karton] is in when it registers its first command. *)
Definition registry_start : World :=
  Eval vm_compute in
  ((parser ← new_parser "karton" None;
    add_subparsers error parser (Some "command") (Some "COMMAND"))
     initial_world).2.

(** C4 (as the code has it): registering a command never fails, whether
    the name is new or already registered.  After registering [X] and then
    [Y], [Y] is bound to its new entry with its own fresh parser; [X] is
    bound to its own entry when the names differ, and to the entry of the
    second registration when they are the same name (the first entry is
    replaced). *)
Theorem registering_commands (sp : nat) (cmds : gmap string CommandInfo)
    (X Y : string) (cbX cbY : Callback) (hX dX hY dY : option string)
    (w : World) (P : Parser) :
  heap w !! sp = Some P ->
  existsb is_subparsers (actions P) = true ->
  let pX := length (heap w) in
  let pY := S (length (heap w)) in
  let iX := {| name := X; subparser := pX; callback := cbX |} in
  let iY := {| name := Y; subparser := pY; callback := cbY |} in
  exists w1 w2 cmds2,
    add_command sp cmds X cbX hX dX w = (Ret (pX, <[X := iX]> cmds), w1)
    /\ add_command sp (<[X := iX]> cmds) Y cbY hY dY w1 = (Ret (pY, cmds2), w2)
    /\ cmds2 !! Y = Some iY
    /\ cmds2 !! X = Some (if decide (X = Y) then iY else iX)
    /\ (forall Z, Z <> X -> Z <> Y -> cmds2 !! Z = cmds !! Z)
    /\ heap w2 !! pX = Some (fresh_parser (prog_prefix_of P ++ " " ++ X) dX)
    /\ heap w2 !! pY = Some (fresh_parser (prog_prefix_of P ++ " " ++ Y) dY).
Proof.
  intros HP Hex pX pY iX iY.
  pose proof (lookup_lt_Some _ _ _ HP) as Hlt.
  rewrite (add_command_eq _ _ _ _ _ _ _ _ HP Hex).
  eexists. fold pX iX.
  set (P1 := set_actions _ P).
  set (h1 := <[sp := P1]> _).
  assert (length h1 = pY) as Hlen1.
  { unfold h1. rewrite length_insert, length_app. simpl. unfold pY. lia. }
  assert (h1 !! sp = Some P1) as HP1.
  { unfold h1. apply list_lookup_insert_eq. rewrite length_app. lia. }
  assert (existsb is_subparsers (actions P1) = true) as Hex1.
  { unfold P1. simpl. by rewrite existsb_add_choice. }
  rewrite (add_command_eq sp _ Y cbY hY dY (with_heap h1 w) P1 HP1 Hex1).
  simpl heap. rewrite Hlen1. fold iY.
  do 2 eexists. split; [reflexivity|]. split; [reflexivity|].
  split; [apply lookup_insert_eq|].
  split.
  { case_decide as HXY; [subst Y; apply lookup_insert_eq|].
    rewrite lookup_insert_ne by done. apply lookup_insert_eq. }
  split.
  { intros Z HZX HZY. by rewrite !lookup_insert_ne. }
  assert (sp <> pX) as HspX by (unfold pX; lia).
  assert (sp <> pY) as HspY by (unfold pY; lia).
  cbn [heap with_heap]. split.
  - rewrite list_lookup_insert_ne by done.
    rewrite lookup_app_l by (rewrite Hlen1; unfold pX, pY; lia).
    unfold h1. rewrite list_lookup_insert_ne by done.
    by apply list_lookup_middle.
  - rewrite list_lookup_insert_ne by done.
    rewrite <- Hlen1. unfold P1. simpl.
    replace (prog_prefix_of (set_actions _ P)) with (prog_prefix_of P).
    + by apply list_lookup_middle.
    + unfold prog_prefix_of. simpl. clear.
      induction (actions P) as [|a l IH]; simpl; [done|].
      rewrite is_subparsers_add_choice.
      destruct (is_subparsers a) eqn:Ha; [|exact IH].
      unfold add_choice. unfold is_subparsers in Ha.
      destruct (kind a) eqn:Hk; try discriminate Ha. simpl. reflexivity.
Qed.

Lemma registering_commands_witness :
  exists w1 w2 cmds2,
    add_command 0 ∅ "run" (Handler pass) None None registry_start
    = (Ret (1, {["run" := {| name := "run"; subparser := 1;
                            callback := Handler pass |}]}), w1)
    /\ add_command 0 {["run" := {| name := "run"; subparser := 1;
                                  callback := Handler pass |}]}
         "shell" (Handler pass) None None w1
       = (Ret (2, cmds2), w2)
    /\ cmds2 !! "shell" = Some {| name := "shell"; subparser := 2;
                                  callback := Handler pass |}
    /\ cmds2 !! "run" = Some {| name := "run"; subparser := 1;
                                callback := Handler pass |}.
Proof.
  destruct (registering_commands 0 ∅ "run" "shell" (Handler pass) (Handler pass)
              None None None None registry_start
              {| prog := "karton"; description := None;
                 actions := [help_action;
                             {| option_strings := []; dest := "command";
                                nargs := NargsParser; const := VNone;
                                default := VNone; required := false;
                                help := None; metavar := Some "COMMAND";
                                kind := KSubParsers "karton" [] [] |}] |})
    as (w1 & w2 & cmds2 & H1 & H2 & HY & HX & _);
    [vm_compute; reflexivity..|].
  exists w1, w2, cmds2. split; [exact H1|]. split; [exact H2|].
  split; [exact HY|exact HX].
Defined.

(** C4, counterexample to "a name already registered is refused":
    registering [run] a second time returns normally, and [run] is then
    bound to the second registration. *)
Lemma duplicate_registration_is_accepted :
  exists cmds1 w1 cmds2 w2,
    add_command 0 ∅ "run" (Handler pass) None None registry_start
    = (Ret (1, cmds1), w1)
    /\ callback <$> cmds1 !! "run" = Some (Handler pass)
    /\ add_command 0 cmds1 "run" Closure_do_help None None w1
       = (Ret (2, cmds2), w2)
    /\ callback <$> cmds2 !! "run" = Some Closure_do_help.
Proof.
  do 4 eexists.
  split; [vm_compute; reflexivity|].
  split; [vm_compute; reflexivity|].
  split; [vm_compute; reflexivity|].
  vm_compute; reflexivity.
Qed.

(** ** An argument for every registered command *)

(** The parser objects of the registered commands. *)
Definition registered_refs (cmds : gmap string CommandInfo) : list nat :=
  List.map (fun kv => subparser kv.2) (map_to_list cmds).

(** The registry is in order for adding the flags [args] to every
    command: no two commands share a parser object, every command's parser
    is in the store, is not the parser that owns the sub-parsers action [sp],
    and has none of the flags yet; and [sp] owns a sub-parsers action. *)
Definition registry_ok (h : Heap) (sp : nat) (cmds : gmap string CommandInfo)
    (args : list string) : bool :=
  bool_decide (NoDup (registered_refs cmds))
  && forallb
       (fun p =>
          negb (p =? sp)%nat
          && match h !! p with
             | Some P =>
                 forallb (fun s => negb (bool_decide
                                           (is_Some (find_option (actions P) s))))
                   args
             | None => false
             end)
       (registered_refs cmds)
  && match h !! sp with
     | Some P => existsb is_subparsers (actions P)
     | None => false
     end.

Lemma with_heap_id w : with_heap (heap w) w = w.
Proof. by destruct w. Qed.

Lemma with_heap_twice h1 h2 w : with_heap h2 (with_heap h1 w) = with_heap h2 w.
Proof. reflexivity. Qed.

Section AddToAll.

Variables (args : list string) (kw : Kwargs) (a : Action).
Hypothesis flags : flag_action args kw = Ret a.

Lemma add_to_refs (l : list (string * CommandInfo)) w :
  NoDup (List.map (fun kv => subparser kv.2) l) ->
  (forall kv, kv ∈ l ->
              exists P, heap w !! subparser kv.2 = Some P /\ no_conflict args P) ->
  exists h',
    for_each l (fun kv => add_argument (subparser kv.2) args kw;; mret tt) w
    = (Ret tt, with_heap h' w)
    /\ length h' = length (heap w)
    /\ forall p,
         h' !! p
         = if decide (p ∈ List.map (fun kv => subparser kv.2) l)
           then append_action a <$> heap w !! p
           else heap w !! p.
Proof.
  revert w. induction l as [|kv l IH]; intros w Hnd Hall; simpl.
  - exists (heap w). rewrite with_heap_id.
    split; [reflexivity|]. split; [reflexivity|].
    intros p. reflexivity.
  - apply NoDup_cons in Hnd as [Hnotin Hnd].
    destruct (Hall kv) as (P0 & HP0 & Hc0); [apply list_elem_of_here|].
    set (p0 := subparser kv.2) in *.
    set (w1 := with_heap (<[p0 := append_action a P0]> (heap w)) w).
    assert (forall p, p <> p0 -> heap w1 !! p = heap w !! p) as Hother.
    { intros p Hp. unfold w1. simpl. by rewrite list_lookup_insert_ne. }
    destruct (IH w1 Hnd) as (h' & Hfor & Hlen & Hlook).
    { intros kv' Hin. destruct (Hall kv') as (P & HP & Hc);
        [by apply list_elem_of_further|].
      exists P. split; [|done]. rewrite Hother; [done|].
      intros Heq. apply Hnotin. rewrite <- Heq.
      apply list_elem_of_fmap. by exists kv'. }
    exists h'. split; [|split].
    + unfold mbind at 1. unfold SE_bind, bind at 1.
      unfold mbind at 1. unfold SE_bind, bind at 1.
      rewrite (add_argument_flag _ _ _ _ _ _ flags HP0 Hc0).
      fold w1. exact Hfor.
    + rewrite Hlen. unfold w1. simpl. apply length_insert.
    + intros p. rewrite Hlook. destruct (decide (p = p0)) as [->|Hne].
      * rewrite decide_False by done.
        rewrite (decide_True (P := p0 ∈ p0 :: _)) by apply list_elem_of_here.
        unfold w1. simpl. rewrite HP0.
        apply list_lookup_insert_eq. by eapply lookup_lt_Some.
      * rewrite Hother by done.
        destruct (decide (p ∈ _)) as [Hin|Hnin].
        -- rewrite decide_True; [done|]. by apply list_elem_of_further.
        -- rewrite decide_False; [done|].
           intros [?|?]%elem_of_cons; done.
Qed.

End AddToAll.

Lemma registry_ok_spec h sp cmds args :
  registry_ok h sp cmds args = true ->
  NoDup (registered_refs cmds)
  /\ (forall X i, cmds !! X = Some i ->
                  subparser i ∈ registered_refs cmds
                  /\ subparser i <> sp
                  /\ exists P, h !! subparser i = Some P /\ no_conflict args P)
  /\ exists P, h !! sp = Some P /\ existsb is_subparsers (actions P) = true.
Proof.
  unfold registry_ok. intros [[Hnd Hall]%andb_true_iff Hsp]%andb_true_iff.
  apply bool_decide_eq_true in Hnd. split; [done|]. split.
  - intros X i Hl.
    assert (subparser i ∈ registered_refs cmds) as Hin.
    { unfold registered_refs. apply list_elem_of_fmap. exists (X, i).
      split; [done|]. by apply elem_of_map_to_list. }
    split; [done|].
    rewrite forallb_forall in Hall.
    specialize (Hall (subparser i)). rewrite <- list_elem_of_In in Hall.
    apply Hall in Hin as [Hne HP]%andb_true_iff.
    split; [by apply negb_true_iff, Nat.eqb_neq in Hne|].
    destruct (h !! subparser i) as [P|]; [|done]. exists P. split; [done|].
    unfold no_conflict. apply Forall_forall. intros s Hs.
    rewrite forallb_forall in HP. apply list_elem_of_In, HP in Hs.
    apply negb_true_iff, bool_decide_eq_false in Hs.
    destruct (find_option _ _); [|done]. destruct Hs. eauto.
  - destruct (h !! sp) as [P|]; [|done]. eauto.
Qed.

(** C7: the flags given to [add_to_every_command] are added to the parser
    of every command registered so far, and a command registered afterwards
    does not have them: its parser has its help option alone. *)
Theorem add_to_every_command_reaches_earlier_only
    (sp : nat) (cmds : gmap string CommandInfo) (args : list string)
    (kw : Kwargs) (a : Action) (Z : string) (cbZ : Callback)
    (hZ dZ : option string) (w : World) :
  flag_action args kw = Ret a ->
  Forall (fun s => s <> "-h" /\ s <> "--help") args ->
  registry_ok (heap w) sp cmds args = true ->
  cmds !! Z = None ->
  exists w1 w2 pZ cmds2,
    add_to_every_command cmds args kw w = (Ret tt, w1)
    /\ add_command sp cmds Z cbZ hZ dZ w1 = (Ret (pZ, cmds2), w2)
    /\ option_strings a = args
    /\ (forall X i,
          cmds !! X = Some i ->
          cmds2 !! X = Some i
          /\ exists P, heap w2 !! subparser i = Some P /\ a ∈ actions P)
    /\ exists iZ PZ,
         cmds2 !! Z = Some iZ /\ subparser iZ = pZ
         /\ heap w2 !! pZ = Some PZ
         /\ forall b s, b ∈ actions PZ -> s ∈ args -> s ∉ option_strings b.
Proof.
  intros Hf Hnh Hok HZ.
  apply registry_ok_spec in Hok as (Hnd & Hreg & Psp & HPsp & Hex).
  destruct (add_to_refs args kw a Hf (map_to_list cmds) w Hnd)
    as (h' & Hfor & Hlen & Hlook).
  { intros [X i] Hin. apply elem_of_map_to_list in Hin.
    destruct (Hreg _ _ Hin) as (_ & _ & HP). exact HP. }
  assert (h' !! sp = Some Psp) as HPsp'.
  { rewrite Hlook. rewrite decide_False; [done|].
    intros Hin. apply list_elem_of_fmap in Hin as ([X i] & Heq & Hin).
    apply elem_of_map_to_list in Hin.
    destruct (Hreg _ _ Hin) as (_ & Hne & _). by apply Hne. }
  exists (with_heap h' w). unfold add_to_every_command. 
  rewrite (add_command_eq sp cmds Z cbZ hZ dZ (with_heap h' w) Psp HPsp' Hex).
  simpl heap. do 3 eexists. split; [exact Hfor|]. split; [reflexivity|].
  split; [by eapply flag_action_option_strings|].
  cbn [heap with_heap].
  pose proof (lookup_lt_Some _ _ _ HPsp') as Hsplt.
  split.
  - intros X i Hl. split.
    + rewrite lookup_insert_ne; [done|]. intros <-. congruence.
    + destruct (Hreg _ _ Hl) as (Hin & Hne & P & HP & _).
      exists (append_action a P). split.
      * rewrite list_lookup_insert_ne by done.
        rewrite lookup_app_l.
        -- rewrite Hlook, decide_True by done. by rewrite HP.
        -- rewrite Hlen. by eapply lookup_lt_Some.
      * simpl. apply elem_of_app. right. apply list_elem_of_here.
  - do 2 eexists. split; [apply lookup_insert_eq|]. split; [reflexivity|].
    split.
    + simpl. rewrite list_lookup_insert_ne by lia.
      by apply list_lookup_middle.
    + simpl. intros b s Hb Hs. apply list_elem_of_singleton in Hb as ->.
      rewrite Forall_forall in Hnh. destruct (Hnh _ Hs) as [H1 H2].
      simpl. intros [?|[?|?%elem_of_nil]%elem_of_cons]%elem_of_cons; done.
Qed.

(** The registry after [run] and [shell] have been registered, for the
    examples. *)
Definition two_commands : Res (gmap string CommandInfo) * World :=
  ('(_, all_commands) ← add_command 0 ∅ "run" (Handler pass) None None;
   '(_, all_commands) ← add_command 0 all_commands "shell" (Handler pass) None None;
   mret all_commands) registry_start.

Definition two_commands_dict : gmap string CommandInfo :=
  match two_commands.1 with Ret d => d | Raise _ => ∅ end.

Definition verbose_flag : Action :=
  {| option_strings := ["-v"; "--verbose"]; dest := "verbose";
     nargs := NargsNum 0; const := VBool true; default := VBool false;
     required := false; help := None; metavar := None; kind := KStoreConst |}.

Lemma add_to_every_command_reaches_earlier_only_witness :
  exists w1 w2 pZ cmds2 Prun Pshell Pstart,
    add_to_every_command two_commands_dict ["-v"; "--verbose"]
      {| kw_dest := None; kw_action := Some AStoreTrue; kw_nargs := None;
         kw_const := None; kw_default := None; kw_metavar := None;
         kw_help := None |} two_commands.2
    = (Ret tt, w1)
    /\ add_command 0 two_commands_dict "start" (Handler pass) None None w1
       = (Ret (pZ, cmds2), w2)
    /\ heap w2 !! 1 = Some Prun /\ verbose_flag ∈ actions Prun
    /\ heap w2 !! 2 = Some Pshell /\ verbose_flag ∈ actions Pshell
    /\ heap w2 !! pZ = Some Pstart
    /\ forall b s, b ∈ actions Pstart -> s ∈ ["-v"; "--verbose"] ->
                   s ∉ option_strings b.
Proof.
  destruct (add_to_every_command_reaches_earlier_only 0 two_commands_dict
              ["-v"; "--verbose"]
              {| kw_dest := None; kw_action := Some AStoreTrue;
                 kw_nargs := None; kw_const := None; kw_default := None;
                 kw_metavar := None; kw_help := None |}
              verbose_flag "start" (Handler pass) None None two_commands.2)
    as (w1 & w2 & pZ & cmds2 & H1 & H2 & _ & Hearlier & iZ & PZ & _ & _ & HPZ & Habs).
  - vm_compute; reflexivity.
  - repeat constructor; discriminate.
  - vm_compute; reflexivity.
  - vm_compute; reflexivity.
  - destruct (Hearlier "run" {| name := "run"; subparser := 1;
                                callback := Handler pass |})
      as (_ & Prun & HPrun & Hinrun); [vm_compute; reflexivity|].
    destruct (Hearlier "shell" {| name := "shell"; subparser := 2;
                                  callback := Handler pass |})
      as (_ & Pshell & HPshell & Hinshell); [vm_compute; reflexivity|].
    exists w1, w2, pZ, cmds2, Prun, Pshell, PZ.
    repeat split; assumption.
Defined.

(** ** Shared arguments *)

Lemma parse_cli_shell argv0 t :
  parse_cli [argv0; "shell"] t
  = (Ret (list_to_map [("command", VStr "shell"); ("cd", VNone);
                       ("verbose", VBool false)]), t).
Proof.
  unfold parse_cli. simpl List.hd. simpl List.tl.
  generalize (basename argv0). intros prog. vm_compute. reflexivity.
Qed.

Lemma parse_cli_run_no_cd argv0 t :
  parse_cli [argv0; "run"; "--no-cd"] t
  = (Ret (list_to_map [("command", VStr "run"); ("cd", VStr "no");
                       ("verbose", VBool false); ("remainder", VList [])]), t).
Proof.
  unfold parse_cli. simpl List.hd. simpl List.tl.
  generalize (basename argv0). intros prog. vm_compute. reflexivity.
Qed.

(** C9: a shared argument attached to two parsers gives each parser an
    action object of its own, with the same destination; attaching it to
    the second parser leaves the first one's object as it was, and replacing
    the first parser's object afterwards leaves the second one's as it is.
    In the program: an invocation of [run] with [--no-cd] hands [do_run] the
    value [no] for [cd]; an invocation of [shell] without the flag hands
    [do_shell] the default [None] for [cd], whatever invocation ran before
    it in the same process. *)
Theorem shared_argument_instances_independent :
  (forall (sa : SharedArgument) (pa pb : nat) (w : World) (PA PB : Parser)
          (a : Action),
     flag_action (args sa) (kwargs sa) = Ret a ->
     pa <> pb ->
     heap w !! pa = Some PA -> heap w !! pb = Some PB ->
     no_conflict (args sa) PA -> no_conflict (args sa) PB ->
     exists w1 w2,
       add_to_parser sa pa w = (Ret tt, w1)
       /\ add_to_parser sa pb w1 = (Ret tt, w2)
       /\ heap w1 !! pa = Some (append_action a PA)
       /\ heap w1 !! pb = Some PB
       /\ heap w2 !! pa = Some (append_action a PA)
       /\ heap w2 !! pb = Some (append_action a PB)
       /\ (forall p, p <> pa -> p <> pb -> heap w2 !! p = heap w !! p)
       /\ (forall P', <[pa := P']> (heap w2) !! pb = Some (append_action a PB)))
  /\ (forall (H : Handlers) (argv0 : string) (sys_argv_A : list string)
             (w : World),
        let ns_run : Namespace :=
          list_to_map [("command", VStr "run"); ("cd", VStr "no");
                       ("verbose", VBool false); ("remainder", VList [])] in
        let ns_shell : Namespace :=
          list_to_map [("command", VStr "shell"); ("cd", VNone);
                       ("verbose", VBool false)] in
        let after_A := (main H sys_argv_A w).2 in
        run_karton H [argv0; "run"; "--no-cd"] w
        = do_run H ns_run
            {| verbosity := false; trace := trace w ++ [SetVerbose false];
               heap := cli_heap (basename argv0) |}
        /\ ns_run !! "cd" = Some (VStr "no")
        /\ run_karton H [argv0; "shell"] after_A
           = do_shell H ns_shell
               {| verbosity := false;
                  trace := trace after_A ++ [SetVerbose false];
                  heap := cli_heap (basename argv0) |}
        /\ ns_shell !! "cd" = Some VNone).
Proof.
  split.
  - intros sa pa pb w PA PB a Hf Hne HPA HPB HcA HcB.
    set (w1 := with_heap (<[pa := append_action a PA]> (heap w)) w).
    set (w2 := with_heap (<[pb := append_action a PB]> (heap w1)) w1).
    assert (heap w1 !! pb = Some PB) as HPB1.
    { unfold w1. cbn [heap with_heap]. by rewrite list_lookup_insert_ne. }
    assert (heap w1 !! pa = Some (append_action a PA)) as HPA1.
    { unfold w1. cbn [heap with_heap]. apply list_lookup_insert_eq.
      by eapply lookup_lt_Some. }
    assert (heap w2 !! pb = Some (append_action a PB)) as HPB2.
    { unfold w2. cbn [heap with_heap]. apply list_lookup_insert_eq.
      by eapply lookup_lt_Some. }
    assert (heap w2 !! pa = Some (append_action a PA)) as HPA2.
    { unfold w2. cbn [heap with_heap]. by rewrite list_lookup_insert_ne. }
    exists w1, w2.
    split.
    { unfold add_to_parser, mbind, SE_bind, bind.
      by rewrite (add_argument_flag _ _ _ _ _ _ Hf HPA HcA). }
    split.
    { unfold add_to_parser, mbind, SE_bind, bind.
      by rewrite (add_argument_flag _ _ _ _ _ _ Hf HPB1 HcB). }
    split; [exact HPA1|]. split; [exact HPB1|].
    split; [exact HPA2|]. split; [exact HPB2|]. split.
    + intros p Hpa Hpb. unfold w2, w1. cbn [heap with_heap].
      by rewrite !list_lookup_insert_ne.
    + intros P'. by rewrite list_lookup_insert_ne.
  - intros H argv0 sys_argv_A w ns_run ns_shell after_A.
    split; [|split; [reflexivity|split; [|reflexivity]]].
    + destruct (verbosity_set_once_before_dispatch H _ w _ _
                  (parse_cli_run_no_cd argv0 (trace w)))
        as (v & Hv & _ & _ & Hcall & _).
      injection Hv as <-.
      apply (Hcall "run" {| name := "run"; subparser := 1;
                            callback := Handler (do_run H) |});
        reflexivity.
    + destruct (verbosity_set_once_before_dispatch H _ after_A _ _
                  (parse_cli_shell argv0 (trace after_A)))
        as (v & Hv & _ & _ & Hcall & _).
      injection Hv as <-.
      apply (Hcall "shell" {| name := "shell"; subparser := 2;
                              callback := Handler (do_shell H) |});
        reflexivity.
Qed.

(** The action object of [--no-cd]. *)
Definition no_cd_flag : Action :=
  {| option_strings := ["--no-cd"]; dest := "cd"; nargs := NargsNum 0;
     const := VStr "no"; default := VNone; required := false;
     help := Some "don't change the current directory in the container";
     metavar := None; kind := KStoreConst |}.

Lemma shared_argument_instances_independent_witness :
  exists w1 w2,
    add_to_parser (List.hd {| args := []; kwargs := no_kwargs |} cd_args) 1
      two_commands.2 = (Ret tt, w1)
    /\ add_to_parser (List.hd {| args := []; kwargs := no_kwargs |} cd_args) 2
         w1 = (Ret tt, w2)
    /\ heap w2 !! 1
       = Some (append_action no_cd_flag (fresh_parser "karton run" None))
    /\ heap w2 !! 2
       = Some (append_action no_cd_flag (fresh_parser "karton shell" None)).
Proof.
  destruct (proj1 shared_argument_instances_independent
              (List.hd {| args := []; kwargs := no_kwargs |} cd_args) 1 2
              two_commands.2
              (fresh_parser "karton run" None)
              (fresh_parser "karton shell" None)
              no_cd_flag)
    as (w1 & w2 & H1 & H2 & _ & _ & HA & HB & _).
  - vm_compute; reflexivity.
  - lia.
  - vm_compute; reflexivity.
  - vm_compute; reflexivity.
  - repeat constructor.
  - repeat constructor.
  - exists w1, w2. split; [exact H1|]. split; [exact H2|].
    split; [exact HA|exact HB].
Defined.


(* ===================================================================== *)
(** * Further properties of [main.py] *)
(* ===================================================================== *)

(** ** [help] without an argument (lines 183-186) *)

(** X1: an invocation that parses as [help] with no sub-command name
    prints the help of the top-level parser on standard output and exits
    with status 0. *)
Theorem help_without_argument (H : Handlers) (sys_argv : list string)
    (w : World) (ns : Namespace) (t' : Out) :
  parse_cli sys_argv (trace w) = (Ret ns, t') ->
  ns !! "command" = Some (VStr "help") ->
  ns !! "sub_command" = Some VNone ->
  exists v P,
    ns !! "verbose" = Some v
    /\ cli_heap (basename (List.hd "" sys_argv)) !! 0 = Some P
    /\ prog P = basename (List.hd "" sys_argv)
    /\ exit_status (main H sys_argv w)
       = (0%Z, trace w ++ [SetVerbose (truthy v); PrintHelp stdout P]).
Proof.
  intros Hp Hc Hs.
  destruct (run_karton_parsed H _ _ _ _ Hp) as [_ (v & Hv & Hrun)].
  set (prog := basename _) in *.
  destruct (cli_top_parser prog) as (P & sub & pp & ca & HP & _).
  assert (Argparse.prog P = prog) as Hprog.
  { revert HP. unfold cli_heap. cbn [lookup list_lookup].
    intros [= <-]. reflexivity. }
  exists v, P. split; [exact Hv|]. split; [exact HP|]. split; [exact Hprog|].
  unfold main. erewrite main_with_ret.
  2:{ rewrite Hrun. unfold dispatch, getattr. rewrite Hc, bind_ret_l.
      unfold dict_get. rewrite bind_ret_l.
      replace (cli_commands H !! "help")
        with (Some {| name := "help"; subparser := 7;
                      callback := Closure_do_help |})
        by reflexivity.
      unfold call, callback, do_help, getattr. rewrite Hs, bind_ret_l.
      unfold mbind, SE_bind, bind, load. cbn [heap].
      rewrite HP. reflexivity. }
  cbn [exit_status trace]. rewrite <- app_assoc. reflexivity.
Qed.

Lemma help_without_argument_witness :
  exists P,
    cli_heap "karton" !! 0 = Some P
    /\ karton stub_handlers ["karton"; "help"]
       = (0%Z, [SetVerbose false; PrintHelp stdout P]).
Proof.
  destruct (help_without_argument stub_handlers ["karton"; "help"]
              initial_world
              (list_to_map [("sub_command", VNone); ("command", VStr "help");
                            ("verbose", VBool false)])
              [])
    as (v & P & Hv & HP & _ & Hr); [vm_compute; reflexivity..|].
  exists P. split; [exact HP|].
  assert (v = VBool false) as -> by (vm_compute in Hv; congruence).
  exact Hr.
Defined.

(** ** A command line that does not parse (lines 217-219, 239-251) *)

(** X2: when the command line does not parse, line 219 is not reached, so
    the verbosity is not set from it.  An exit raised by the parser keeps
    its status and its output; an exception raised by the parser is
    reported according to the verbosity the process had before the
    invocation, whatever flags the command line has: the sanitized
    message and no traceback when it was off, as it is at program start. *)
Theorem unparsed_command_line_keeps_verbosity (H : Handlers)
    (sys_argv : list string) (w : World) (e : exn) (t' : Out) :
  parse_cli sys_argv (trace w) = (Raise e, t') ->
  verbosity (main H sys_argv w).2 = verbosity w
  /\ exit_status (main H sys_argv w)
     = match e with
       | SystemExit code => (code, t')
       | KeyboardInterrupt => (1%Z, t' ++ [Log LInfo (nl ++ "Interrupted.")])
       | _ =>
           if verbosity w
           then (1%Z, t' ++ [Log LVerbose (internal_error_message e);
                             Traceback e])
           else (1%Z, t' ++ [Log LError (internal_error_message e)])
       end.
Proof.
  intros Hp.
  assert (run_karton H sys_argv w
          = (Raise e, {| verbosity := verbosity w; trace := t';
                         heap := cli_heap (basename (List.hd "" sys_argv)) |}))
    as Hrun.
  { rewrite run_karton_eq, Hp. reflexivity. }
  unfold main. destruct e as [code| |n m|c m].
  - rewrite (main_with_exit _ _ _ _ Hrun). split; reflexivity.
  - rewrite (main_with_interrupt _ _ _ Hrun). split; reflexivity.
  - rewrite (main_with_exception _ _ _ _ Hrun) by reflexivity.
    cbn [verbosity]. destruct (verbosity w); cbn [snd verbosity with_trace];
      (split; [reflexivity|]); cbn [exit_status trace with_trace];
      rewrite <- ?app_assoc; reflexivity.
  - rewrite (main_with_exception _ _ _ _ Hrun) by reflexivity.
    cbn [verbosity]. destruct (verbosity w); cbn [snd verbosity with_trace];
      (split; [reflexivity|]); cbn [exit_status trace with_trace];
      rewrite <- ?app_assoc; reflexivity.
Qed.

Lemma unparsed_command_line_keeps_verbosity_witness :
  parse_cli ["karton"; "start"; "-v="] []
  = (Raise (PyError "IndexError" "string index out of range"), [])
  /\ karton stub_handlers ["karton"; "start"; "-v="]
     = (1%Z, [Log LError (internal_error_message
                            (PyError "IndexError" "string index out of range"))]).
Proof.
  assert (parse_cli ["karton"; "start"; "-v="] (trace initial_world)
          = (Raise (PyError "IndexError" "string index out of range"), []))
    as Hp by (vm_compute; reflexivity).
  split; [exact Hp|].
  exact (proj2 (unparsed_command_line_keeps_verbosity stub_handlers _ _ _ _ Hp)).
Defined.

(** ** Shared arguments on one parser (lines 45-57) *)

Lemma find_option_snoc_new l a s :
  s ∈ option_strings a -> is_Some (find_option (l ++ [a]) s).
Proof.
  intros Hs. unfold find_option.
  assert (existsb (String.eqb s) (option_strings a) = true) as Ha.
  { apply existsb_exists. exists s. split; [by apply list_elem_of_In|].
    apply String.eqb_refl. }
  induction l as [|b l IH]; simpl.
  - rewrite Ha. eauto.
  - destruct (existsb (String.eqb s) (option_strings b)); eauto.
Qed.

Lemma find_option_snoc_none l a s :
  find_option l s = None -> s ∉ option_strings a ->
  find_option (l ++ [a]) s = None.
Proof.
  unfold find_option. intros Hl Hs.
  induction l as [|b l IH]; simpl in *.
  - destruct (existsb (String.eqb s) (option_strings a)) eqn:Hex; [|done].
    apply existsb_exists in Hex as (s' & Hin & ->%String.eqb_eq).
    destruct Hs. by apply list_elem_of_In.
  - destruct (existsb (String.eqb s) (option_strings b)); [done|]. by apply IH.
Qed.

Lemma filter_all {A} (f : A -> bool) (l : list A) :
  Forall (fun x => f x = true) l -> List.filter f l = l.
Proof.
  induction 1 as [|x l Hx _ IH]; simpl; [done|]. by rewrite Hx, IH.
Qed.

Lemma flag_action_nonempty args kw a :
  flag_action args kw = Ret a -> args <> [].
Proof. by destruct args. Qed.

(** X3: attaching a shared flag to a parser that already has it fails
    with argparse's conflict error, which names the flags; the parser keeps
    the one instance it had.  So a shared argument can be attached to a
    command once only. *)
Theorem shared_argument_twice_conflicts (sa : SharedArgument) (p : nat)
    (w : World) (P : Parser) (a : Action) :
  flag_action (args sa) (kwargs sa) = Ret a ->
  heap w !! p = Some P ->
  no_conflict (args sa) P ->
  exists w1,
    add_to_parser sa p w = (Ret tt, w1)
    /\ heap w1 !! p = Some (append_action a P)
    /\ add_to_parser sa p w1
       = (Raise (ArgumentError (Some (join "/" (args sa)))
                   ("conflicting option string(s): " ++ join ", " (args sa))),
          w1).
Proof.
  intros Hf HP Hn.
  pose proof (flag_action_option_strings _ _ _ Hf) as Ho.
  pose proof (flag_action_nonempty _ _ _ Hf) as Hne.
  set (w1 := with_heap (<[p := append_action a P]> (heap w)) w).
  assert (heap w1 !! p = Some (append_action a P)) as HP1.
  { unfold w1. cbn [heap with_heap]. apply list_lookup_insert_eq.
    by eapply lookup_lt_Some. }
  exists w1. split; [|split; [exact HP1|]].
  { unfold add_to_parser, mbind, SE_bind, bind.
    by rewrite (add_argument_flag _ _ _ _ _ _ Hf HP Hn). }
  unfold add_to_parser, add_argument.
  unfold mbind at 1. unfold SE_bind, bind at 1.
  unfold mbind at 1. unfold SE_bind, bind at 1.
  match goal with
  | |- match (match ?m w1 with _ => _ end) with _ => _ end = _ =>
      assert (m w1 = (Ret a, w1)) as ->
  end.
  { unfold flag_action in Hf.
    destruct (args sa) as [|a0 [|a1 args']]; [done| |].
    - destruct (starts_with_dash a0) eqn:Hd; [|done].
      destruct a0 as [|c0 s0]; [done|]. simpl negb. cbv iota.
      unfold mbind, SE_bind, bind, lift_res.
      destruct (_get_optional_kwargs _ _) as [[opts d]|e]; [|done].
      by rewrite Hf.
    - unfold mbind, SE_bind, bind, lift_res.
      destruct a0 as [|c0 s0];
        (destruct (_get_optional_kwargs _ _) as [[opts d]|e]; [|done]);
        by rewrite Hf. }
  unfold _add_action, mbind, SE_bind, bind, load. rewrite HP1.
  unfold lift_res, _check_conflict.
  rewrite filter_all.
  2:{ apply Forall_forall. intros s Hs. apply bool_decide_eq_true.
      cbn [actions append_action]. by apply find_option_snoc_new. }
  unfold _get_action_name. rewrite Ho.
  destruct (args sa) as [|a0 args']; [done|]. reflexivity.
Qed.

Lemma shared_argument_twice_conflicts_witness :
  exists w1,
    add_to_parser (List.hd {| args := []; kwargs := no_kwargs |} cd_args) 1
      two_commands.2 = (Ret tt, w1)
    /\ add_to_parser (List.hd {| args := []; kwargs := no_kwargs |} cd_args) 1 w1
       = (Raise (ArgumentError (Some "--no-cd")
                   "conflicting option string(s): --no-cd"), w1).
Proof.
  destruct (shared_argument_twice_conflicts
              (List.hd {| args := []; kwargs := no_kwargs |} cd_args) 1
              two_commands.2 (fresh_parser "karton run" None) no_cd_flag)
    as (w1 & H1 & _ & H2).
  - vm_compute; reflexivity.
  - vm_compute; reflexivity.
  - repeat constructor.
  - exists w1. split; [exact H1|exact H2].
Defined.

(** X4: [add_group_to_parser] gives the parser one new action per shared
    argument, after the actions it had and in the order of the group,
    provided the flags of the group are all different and new to the
    parser. *)
Theorem add_group_appends_in_order (l : list SharedArgument)
    (acts : list Action) (p : nat) (w : World) (P : Parser) :
  Forall2 (fun sa a => flag_action (args sa) (kwargs sa) = Ret a) l acts ->
  NoDup (List.concat (List.map args l)) ->
  no_conflict (List.concat (List.map args l)) P ->
  heap w !! p = Some P ->
  add_group_to_parser p l w
  = (Ret tt,
     match l with
     | [] => w
     | _ :: _ => with_heap (<[p := set_actions (actions P ++ acts) P]> (heap w)) w
     end).
Proof.
  intros Hall. revert w P. unfold add_group_to_parser.
  induction Hall as [|sa a l acts Hf Hall IH]; intros w P Hnd Hnc HP;
    [reflexivity|].
  cbn [for_each]. cbn [List.map List.concat] in Hnd, Hnc.
  apply NoDup_app in Hnd as (Hnd1 & Hdisj & Hnd2).
  unfold no_conflict in Hnc. apply Forall_app in Hnc as [Hnc1 Hnc2].
  unfold mbind at 1. unfold SE_bind, bind at 1.
  unfold add_to_parser at 1. unfold mbind at 1. unfold SE_bind, bind at 1.
  rewrite (add_argument_flag _ _ _ _ _ _ Hf HP Hnc1).
  set (w1 := with_heap (<[p := append_action a P]> (heap w)) w).
  assert (heap w1 !! p = Some (append_action a P)) as HP1.
  { unfold w1. cbn [heap with_heap]. apply list_lookup_insert_eq.
    by eapply lookup_lt_Some. }
  assert (no_conflict (List.concat (List.map args l)) (append_action a P))
    as Hnc'.
  { apply Forall_forall. intros s Hs. cbn [actions append_action].
    apply find_option_snoc_none.
    - rewrite Forall_forall in Hnc2. by apply Hnc2.
    - rewrite (flag_action_option_strings _ _ _ Hf). intros Hin.
      by apply (Hdisj s). }
  unfold mret, SE_ret, ret. cbv beta iota.
  rewrite (IH w1 (append_action a P) Hnd2 Hnc' HP1).
  f_equal. destruct l as [|sa' l'].
  - apply Forall2_nil_inv_l in Hall as ->. reflexivity.
  - unfold w1. cbn [heap with_heap]. unfold with_heap. f_equal.
    rewrite list_insert_insert_eq. f_equal.
    unfold set_actions, append_action. cbn [actions prog description].
    by rewrite <- app_assoc.
Qed.

Lemma add_group_appends_in_order_witness :
  exists auto_cd_flag,
    add_group_to_parser 1 cd_args two_commands.2
    = (Ret tt,
       with_heap
         (<[1 := set_actions ([help_action] ++ [no_cd_flag; auto_cd_flag])
                   (fresh_parser "karton run" None)]>
            (heap two_commands.2))
         two_commands.2)
    /\ option_strings auto_cd_flag = ["--auto-cd"]
    /\ dest auto_cd_flag = "cd".
Proof.
  eexists. split.
  - refine (add_group_appends_in_order cd_args [no_cd_flag; _] 1
              two_commands.2 (fresh_parser "karton run" None) _ _ _ _).
    + repeat constructor.
    + refine (bool_decide_eq_true_1 (NoDup (List.concat (List.map args cd_args))) _).
      vm_compute; reflexivity.
    + repeat constructor.
    + vm_compute; reflexivity.
  - split; reflexivity.
Defined.

(** ** The registry and the parser's map (lines 97-103) *)

Lemma odict_get_set {V} (k n : string) (v : V) (d : list (string * V)) :
  odict_get n (odict_set k v d)
  = if String.eqb n k then Some v else odict_get n d.
Proof.
  induction d as [|[k' v'] d IH]; simpl.
  - destruct (String.eqb n k); reflexivity.
  - destruct (String.eqb_spec k k') as [<-|Hkk']; simpl.
    + destruct (String.eqb n k); reflexivity.
    + destruct (String.eqb_spec n k') as [->|Hnk'].
      * destruct (String.eqb_spec k' k) as [->|_]; [done|reflexivity].
      * exact IH.
Qed.

(** The sub-parsers action of [sp] maps exactly the registered names, each
    to the parser its [CommandInfo] holds. *)
Definition names_agree (h : Heap) (sp : nat)
    (cmds : gmap string CommandInfo) : Prop :=
  exists P sub pp npm ca,
    h !! sp = Some P
    /\ List.find is_subparsers (actions P) = Some sub
    /\ kind sub = KSubParsers pp npm ca
    /\ forall n, odict_get n npm = subparser <$> cmds !! n.

Lemma find_add_choice name parser hl l sub :
  List.find is_subparsers l = Some sub ->
  List.find is_subparsers (List.map (add_choice name parser hl) l)
  = Some (add_choice name parser hl sub).
Proof.
  induction l as [|a l IH]; simpl; [done|].
  rewrite is_subparsers_add_choice.
  destruct (is_subparsers a); [by intros [= ->]|exact IH].
Qed.

Lemma kind_add_choice name parser hl a pp npm ca :
  kind a = KSubParsers pp npm ca ->
  kind (add_choice name parser hl a)
  = KSubParsers pp (odict_set name parser npm)
      (match hl with Some h => ca ++ [(name, h)] | None => ca end).
Proof. intros Hk. unfold add_choice. rewrite Hk. reflexivity. Qed.

(** X5: [add_command] keeps the dictionary [all_commands] and the
    name-to-parser map of the sub-parsers action in agreement, also when
    the name was registered before: the parser it returns is the one both
    hold for the name afterwards. *)
Theorem add_command_keeps_names_agreeing (sp : nat)
    (cmds : gmap string CommandInfo) (c : string) (cb : Callback)
    (hl descr : option string) (w : World) :
  names_agree (heap w) sp cmds ->
  exists p cmds' w',
    add_command sp cmds c cb hl descr w = (Ret (p, cmds'), w')
    /\ names_agree (heap w') sp cmds'
    /\ subparser <$> cmds' !! c = Some p
    /\ heap w !! p = None
    /\ is_Some (heap w' !! p).
Proof.
  intros (P & sub & pp & npm & ca & HP & Hfind & Hk & Hag).
  assert (existsb is_subparsers (actions P) = true) as Hex.
  { apply existsb_exists. exists sub.
    apply find_some in Hfind as [Hin Hs]. by split. }
  pose proof (lookup_lt_Some _ _ _ HP) as Hlt.
  rewrite (add_command_eq _ _ _ _ _ _ _ _ HP Hex).
  do 3 eexists. split; [reflexivity|]. cbn [heap with_heap].
  split; [|split; [|split]].
  - exists (set_actions (List.map (add_choice c (length (heap w)) hl) (actions P)) P),
      (add_choice c (length (heap w)) hl sub).
    do 3 eexists.
    split; [apply list_lookup_insert_eq; rewrite length_app; lia|].
    split; [cbn [actions set_actions]; by apply find_add_choice|].
    split; [by apply kind_add_choice|].
    intros n. rewrite odict_get_set.
    destruct (String.eqb_spec n c) as [->|Hne].
    + by rewrite lookup_insert_eq.
    + rewrite lookup_insert_ne by done. apply Hag.
  - by rewrite lookup_insert_eq.
  - apply lookup_ge_None. lia.
  - rewrite list_lookup_insert_ne by lia.
    rewrite list_lookup_middle by reflexivity. eauto.
Qed.

Lemma add_command_keeps_names_agreeing_witness :
  exists p cmds' w',
    add_command 0 two_commands_dict "run" Closure_do_help None None two_commands.2
    = (Ret (p, cmds'), w')
    /\ names_agree (heap w') 0 cmds'
    /\ subparser <$> cmds' !! "run" = Some p.
Proof.
  destruct (add_command_keeps_names_agreeing 0 two_commands_dict "run"
              Closure_do_help None None two_commands.2)
    as (p & cmds' & w' & H1 & H2 & H3 & _).
  - do 5 eexists. split; [vm_compute; reflexivity|].
    split; [vm_compute; reflexivity|]. split; [reflexivity|].
    intros n. cbn [odict_get].
    unfold two_commands_dict. 
    replace (two_commands.1) with
      (Ret (<["shell" := {| name := "shell"; subparser := 2; callback := Handler pass |}]>
              (<["run" := {| name := "run"; subparser := 1; callback := Handler pass |}]>
                 (∅ : gmap string CommandInfo))))
      by (vm_compute; reflexivity).
    destruct (String.eqb_spec n "run") as [->|Hr].
    { rewrite lookup_insert_ne by done. by rewrite lookup_insert_eq. }
    destruct (String.eqb_spec n "shell") as [->|Hs].
    { by rewrite lookup_insert_eq. }
    rewrite !lookup_insert_ne by done. by rewrite lookup_empty.
  - exists p, cmds', w'. split; [exact H1|]. split; [exact H2|exact H3].
Defined.

(* ===================================================================== *)
(** * More facts about the parsing engine *)
(* ===================================================================== *)

(** The options that [_get_option_tuples] proposes are options of the
    parser. *)
Lemma _get_option_tuples_actions P s t :
  t ∈ _get_option_tuples P s ->
  exists os, ot_action t = find_option (actions P) os.
Proof.
  unfold _get_option_tuples. destruct (is_long_option s).
  - destruct (match split_once "=" s with
              | Some (a, b) => (a, Some b)
              | None => (s, None)
              end) as [prefix ex].
    intros (os & -> & _)%list_elem_of_fmap. by exists os.
  - intros Hin. apply list_elem_of_In, in_flat_map in Hin as (os & _ & Hin).
    apply list_elem_of_In in Hin.
    destruct (String.eqb os _).
    + apply list_elem_of_singleton in Hin as ->. by exists os.
    + destruct (startswith os s).
      * apply list_elem_of_singleton in Hin as ->. by exists os.
      * by apply elem_of_nil in Hin.
Qed.

Section EngineInvariant.

Variable error : Parser -> string -> SE Out Empty_set.
Variable sub_parse :
  nat -> list string -> Namespace -> SE Out (Namespace * list string).
Variable P : Parser.

(** [Inv ps ns]: what holds of the namespace [ns] while the positionals
    [ps] are still to be taken.  The options satisfy [S]. *)
Variable Inv : list Action -> Namespace -> Prop.
Variable S : Action -> Prop.
Hypothesis positional_step :
  forall a ps args ns,
    Inv (a :: ps) ns -> yields (take_action sub_parse P a args ns) (Inv ps).
Hypothesis option_step :
  forall a ps args ns,
    S a -> Inv ps ns -> yields (take_action sub_parse P a args ns) (Inv ps).
Hypothesis options_S :
  forall s a, find_option (actions P) s = Some a -> S a.

Definition tuple_ok (o : option OptTuple) : Prop :=
  forall t a, o = Some t -> ot_action t = Some a -> S a.

Lemma yields__parse_optional_ok s :
  yields (_parse_optional error P s) tuple_ok.
Proof.
  unfold _parse_optional.
  destruct (String.eqb s ""); [by apply yields_ret|].
  destruct (negb (starts_with_dash s)); [by apply yields_ret|].
  destruct (find_option (actions P) s) as [a|] eqn:Hfind.
  { apply yields_ret. intros t a' [= <-] [= <-]. by eapply options_S. }
  destruct (String.length s =? 1)%nat; [by apply yields_ret|].
  destruct (match split_once "=" s with
            | Some (option_string, explicit_arg) =>
                match find_option (actions P) option_string with
                | Some a =>
                    Some {| ot_action := Some a;
                            ot_option_string := option_string;
                            ot_explicit_arg := Some explicit_arg |}
                | None => None
                end
            | None => None
            end) as [t|] eqn:Hsplit.
  { apply yields_ret. intros t' a' [= <-] Ha'.
    destruct (split_once "=" s) as [[os ex]|]; [|done].
    destruct (find_option (actions P) os) as [a|] eqn:Hf; [|done].
    injection Hsplit as <-. injection Ha' as <-. by eapply options_S. }
  destruct (_get_option_tuples P s) as [|t [|t' l]] eqn:Htuples.
  - repeat ystep; try done; intros ? ? [= <-] [=].
  - apply yields_ret. intros t0 a' [= <-] Ha'.
    destruct (_get_option_tuples_actions P s t) as [os Hos].
    { rewrite Htuples. apply list_elem_of_here. }
    rewrite Hos in Ha'. by eapply options_S.
  - unfold fail_with. apply yields_never.
Qed.

Lemma yields_classify_ok args :
  yields (classify error P args) (fun r => Forall tuple_ok r.1).
Proof.
  induction args as [|a args IH]; simpl.
  - ystep. constructor.
  - destruct (String.eqb a "--").
    + ystep. simpl. constructor; [done|].
      apply Forall_forall. intros o (x & -> & _)%list_elem_of_fmap. done.
    + ystep; [apply yields__parse_optional_ok|]. intros o Ho.
      ystep; [apply IH|]. intros [ts ps] Hts. ystep. simpl. by constructor.
Qed.

Section Loop.

Variable arg_strings : list string.
Variable option_string_indices : list (option OptTuple).
Variable arg_strings_pattern : list sym.
Hypothesis indices_ok : Forall tuple_ok option_string_indices.

Lemma inv_take_positionals acts counts i ns :
  Inv acts ns ->
  yields (take_positionals sub_parse P arg_strings acts counts i ns)
    (fun r => Inv (List.skipn (length counts) acts) r.1).
Proof.
  revert counts i ns.
  induction acts as [|a acts IH]; intros counts i ns HI; simpl.
  - ystep. simpl. by rewrite skipn_nil.
  - destruct counts as [|c counts].
    + by ystep.
    + ystep; [by apply positional_step|]. intros ns' HI'. by apply IH.
Qed.

(** The invariant of the loop. *)
Definition engine_inv (st : LoopState) : Prop :=
  Inv (ls_positionals st) (ls_ns st).

Lemma inv_consume_positionals st i :
  engine_inv st ->
  yields (consume_positionals sub_parse P arg_strings arg_strings_pattern st i)
    (fun r => engine_inv r.1).
Proof.
  intros HI. unfold consume_positionals.
  ystep; [by apply inv_take_positionals|].
  intros [ns j] HI2; simpl in *. by ystep.
Qed.

Lemma inv_take_actions l ps ns :
  Forall (fun x => S x.1) l -> Inv ps ns ->
  yields (take_actions sub_parse P l ns) (Inv ps).
Proof.
  revert ns. induction l as [|[a args] l IH]; intros ns HS HI; simpl.
  - by ystep.
  - apply Forall_cons in HS as [Ha HS]. simpl in Ha.
    ystep; [by apply option_step|]. intros ns' HI'. by apply IH.
Qed.

Lemma explicit_tuples_S no_explicit i a os ex :
  S a ->
  (forall a os, S a ->
     yields (no_explicit a os) (fun r => Forall (fun x => S x.1) r.1)) ->
  yields (explicit_tuples P no_explicit i a os ex)
    (fun r => Forall (fun x => S x.1) r.1).
Proof.
  intros Ha Hno. revert a os Ha.
  induction ex as [|c ex IH]; intros a os Ha; simpl.
  - ystep; [apply yields__match_argument|]. intros n _.
    destruct (_ && _); [apply yields_raise|].
    destruct (n =? 1)%nat; [|apply yields_raise].
    ystep. simpl. by repeat constructor.
  - ystep; [apply yields__match_argument|]. intros n _.
    destruct (_ && _).
    + destruct (find_option _ _) as [a'|] eqn:Hf; [|apply yields_raise].
      pose proof (options_S _ _ Hf) as Ha'.
      ystep; [destruct ex; [by apply Hno|by apply IH]|].
      intros [rest stop] Hrest. ystep. simpl in *. by constructor.
    + destruct (n =? 1)%nat; [|apply yields_raise].
      ystep. simpl. by repeat constructor.
Qed.

Lemma inv_consume_optional st i :
  engine_inv st ->
  yields (consume_optional sub_parse P arg_strings option_string_indices
            arg_strings_pattern st i)
    (fun r => engine_inv r.1).
Proof.
  intros HI. unfold consume_optional.
  destruct (option_string_indices !! i) as [[t|]|] eqn:Hidx;
    try apply yields_raise.
  destruct (ot_action t) as [a|] eqn:Hact.
  - assert (S a) as Ha.
    { rewrite Forall_forall in indices_ok.
      eapply (indices_ok (Some t)); [|reflexivity|exact Hact].
      by eapply list_elem_of_lookup_2. }
    assert (forall (a : Action) (os : string), S a ->
              yields (arg_count ← _match_argument a
                                    (List.skipn (Datatypes.S i) arg_strings_pattern);
                      mret ([(a, slice arg_strings (Datatypes.S i)
                                   (Datatypes.S i + arg_count))],
                            Datatypes.S i + arg_count))
                (fun r => Forall (fun x => S x.1) r.1)) as Hno.
    { intros a' os Ha'. ystep; [apply yields__match_argument|].
      intros n _. ystep. simpl. by repeat constructor. }
    ystep.
    { instantiate (1 := fun r => Forall (fun x => S x.1) r.1).
      destruct (ot_explicit_arg t);
        [by apply explicit_tuples_S|by apply (Hno a EmptyString)]. }
    intros [tuples stop] Htuples. simpl in Htuples.
    ystep; [by apply inv_take_actions|].
    intros ns HI'. by ystep.
  - by ystep.
Qed.

Lemma inv_parse_loop fuel st i :
  engine_inv st ->
  yields (parse_loop sub_parse P arg_strings option_string_indices
            arg_strings_pattern fuel st i)
    (fun r => engine_inv r.1).
Proof.
  revert st i. induction fuel as [|fuel IH]; intros st i Hinv; simpl.
  - by ystep.
  - destruct (next_option_string_index _ _) as [next|]; [|by ystep].
    assert (forall st i,
              engine_inv st ->
              yields
                ('(st, stop) ←
                   consume_optional sub_parse P arg_strings
                     option_string_indices arg_strings_pattern
                     (if is_option_index option_string_indices i then st
                      else {| ls_ns := ls_ns st;
                              ls_positionals := ls_positionals st;
                              ls_extras := ls_extras st
                                           ++ slice arg_strings i next |})
                     (if is_option_index option_string_indices i then i
                      else next);
                 parse_loop sub_parse P arg_strings option_string_indices
                   arg_strings_pattern fuel st stop)
                (fun r => engine_inv r.1)) as Hopt.
    { intros st' i' Hinv'. ystep.
      - apply inv_consume_optional.
        destruct (is_option_index _ _); [done|]. exact Hinv'.
      - intros [st2 stop] Hinv2. by apply IH. }
    destruct (bool_decide _); [|by apply Hopt].
    ystep; [by apply inv_consume_positionals|].
    intros [st1 pend] Hinv1; simpl in *.
    destruct (_ <? _)%nat; [by apply IH|by apply Hopt].
Qed.

End Loop.

Lemma inv__parse_known_args arg_strings ns :
  Inv (List.filter (fun a => bool_decide (option_strings a = [])) (actions P))
    ns ->
  yields (_parse_known_args error sub_parse P arg_strings ns)
    (fun r => Inv [] r.1).
Proof.
  intros HI. unfold _parse_known_args.
  ystep; [apply yields_classify_ok|]. intros [idx pat] Hidx. simpl in Hidx.
  ystep; [by apply inv_parse_loop|].
  intros [st i] Hinv. ystep; [by apply inv_consume_positionals|].
  intros [st' j] HI'; unfold engine_inv in HI'; simpl in *.
  destruct (ls_positionals st'); [|unfold fail_with; apply yields_never].
  by ystep.
Qed.

End EngineInvariant.

(** ** The attribute [command] *)

(** An action that leaves the attribute [k] alone: it stores elsewhere and
    starts no sub-parser. *)
Definition leaves (k : string) (a : Action) : bool :=
  negb (String.eqb (dest a) k) && negb (is_subparsers a).

Lemma find_option_elem l s a :
  find_option l s = Some a -> a ∈ l /\ option_strings a <> [].
Proof.
  unfold find_option. intros [Hin Hex]%find_some. split.
  - by apply list_elem_of_In.
  - intros Hnil. by rewrite Hnil in Hex.
Qed.

Lemma positionals_elem P a :
  a ∈ List.filter (fun a => bool_decide (option_strings a = [])) (actions P) ->
  a ∈ actions P.
Proof.
  intros Ha. apply list_elem_of_In in Ha. apply filter_In in Ha as [Ha _].
  by apply list_elem_of_In.
Qed.

Section Leaves.

Variable error : Parser -> string -> SE Out Empty_set.
Variable k : string.

Lemma take_action_leaves sub_parse P a args ns :
  leaves k a = true ->
  yields (take_action sub_parse P a args ns) (fun ns' => ns' !! k = ns !! k).
Proof.
  intros [Hd Hs]%andb_true_iff.
  apply negb_true_iff, String.eqb_neq in Hd. apply negb_true_iff in Hs.
  unfold take_action. ystep; [apply yields__get_values|]. intros [v|] _.
  - unfold call_action, is_subparsers in *. destruct (kind a).
    + ystep. by apply lookup_insert_ne.
    + ystep. by apply lookup_insert_ne.
    + ystep.
    + discriminate Hs.
  - by ystep.
Qed.

Lemma add_defaults_leaves P ns :
  forallb (leaves k) (actions P) = true ->
  add_defaults P ns !! k = ns !! k.
Proof.
  unfold add_defaults. revert ns.
  induction (actions P) as [|a l IH]; intros ns; simpl; [done|].
  intros [Ha Hl]%andb_true_iff. rewrite IH by done.
  destruct (_ && _); [|done].
  apply andb_true_iff in Ha as [Hd _].
  apply negb_true_iff, String.eqb_neq in Hd. by apply lookup_insert_ne.
Qed.

(** A parser whose actions all leave [k] alone returns it as it was. *)
Lemma parse_known_args_leaves depth h p P args ns :
  k <> _UNRECOGNIZED_ARGS_ATTR ->
  h !! p = Some P ->
  forallb (leaves k) (actions P) = true ->
  yields (parse_known_args error depth h p args ns)
    (fun r => r.1 !! k = ns !! k).
Proof.
  intros Hk HP Hall. destruct depth as [|d]; [apply yields_raise|].
  rewrite parse_known_args_S, HP.
  apply yields_try_except; [|intros e; apply never_fail_with].
  assert (forall a, a ∈ actions P -> leaves k a = true) as Hin.
  { intros a Ha. rewrite forallb_forall in Hall. apply Hall.
    by apply list_elem_of_In. }
  eapply yields_bind.
  { apply inv__parse_known_args
      with (Inv := fun ps ns' =>
                     Forall (fun a => leaves k a = true) ps
                     /\ ns' !! k = ns !! k)
           (S := fun a => leaves k a = true).
    - intros a ps args' ns' [[Ha Hps]%Forall_cons Hns].
      eapply yields_weaken; [by apply take_action_leaves|].
      intros ns2 H2. split; [exact Hps|]. by rewrite H2.
    - intros a ps args' ns' Ha [Hps Hns].
      eapply yields_weaken; [by apply take_action_leaves|].
      intros ns2 H2. split; [exact Hps|]. by rewrite H2.
    - intros s a [Ha _]%find_option_elem. by apply Hin.
    - split; [|by apply add_defaults_leaves].
      apply Forall_forall. intros a Ha. by apply Hin, positionals_elem. }
  intros [ns1 args1] [_ H1]; simpl in H1.
  repeat ystep; simpl; try exact H1.
  rewrite lookup_delete_ne by done. exact H1.
Qed.

End Leaves.

Lemma cli_top_command prog :
  exists P0 sub pp ca,
    cli_heap prog !! 0 = Some P0
    /\ List.filter (fun a => bool_decide (option_strings a = [])) (actions P0)
       = [sub]
    /\ kind sub = KSubParsers pp command_refs ca
    /\ nargs sub = NargsParser
    /\ dest sub = "command"
    /\ forallb (fun a => bool_decide (option_strings a = [])
                         || leaves "command" a) (actions P0) = true
    /\ length (cli_heap prog) = 8.
Proof. vm_compute. do 4 eexists. repeat split. Qed.

Lemma cli_subparser_leaves_command prog name p :
  odict_get name command_refs = Some p ->
  exists P, cli_heap prog !! p = Some P
            /\ forallb (leaves "command") (actions P) = true.
Proof.
  unfold command_refs. simpl.
  repeat (destruct (String.eqb name _);
          [intros [= <-]; vm_compute; eexists; split; reflexivity|]).
  discriminate.
Qed.

Lemma command_refs_names c :
  is_Some (odict_get c command_refs) <-> c ∈ command_names.
Proof.
  unfold command_refs, command_names. simpl. split.
  - repeat match goal with
           | |- context [String.eqb c ?s] =>
               destruct (String.eqb_spec c s) as [->|_];
               [intros _;
                repeat first [apply list_elem_of_here
                             |apply list_elem_of_further]|]
           end.
    intros [x Hx]. discriminate Hx.
  - rewrite !elem_of_cons, elem_of_nil.
    intros [->|[->|[->|[->|[->|[->|[->|[]]]]]]]]; simpl; eauto.
Qed.

Lemma cli_commands_names H c :
  c ∈ command_names ->
  exists info, cli_commands H !! c = Some info /\ name info = c
               /\ odict_get c command_refs = Some (subparser info).
Proof.
  unfold command_names. rewrite !elem_of_cons, elem_of_nil.
  intros [->|[->|[->|[->|[->|[->|[->|[]]]]]]]];
    eexists; (split; [vm_compute; reflexivity|]); split; reflexivity.
Qed.

(** What the sub-parsers action of the top-level parser does: it checks
    the name, stores it at [command] and runs the parser of that name. *)
Lemma take_action_command sub_parse P sub pp ca args ns
    (Q : string -> Namespace -> Prop) :
  kind sub = KSubParsers pp command_refs ca ->
  nargs sub = NargsParser ->
  dest sub = "command" ->
  (forall c ns v, Q c ns -> Q c (<[_UNRECOGNIZED_ARGS_ATTR := v]> ns)) ->
  (forall c p args',
     odict_get c command_refs = Some p ->
     yields (sub_parse p args' (<["command" := VStr c]> ns))
       (fun r => Q c r.1)) ->
  yields (take_action sub_parse P sub args ns)
    (fun ns' => exists c, c ∈ command_names /\ Q c ns').
Proof.
  intros Hk Hn Hd HQ Hsub. unfold take_action.
  eapply yields_bind
    with (Q := fun v => exists c l, v = Some (VList (c :: l))
                                    /\ c ∈ command_names).
  { unfold _get_values. rewrite Hn, Hk.
    destruct args as [|value args]; [apply yields_raise|].
    case_bool_decide as Hv.
    - apply command_refs_names in Hv.
      destruct (option_strings sub); ystep;
        apply yields_ret; do 2 eexists; (split; [reflexivity|exact Hv]).
    - destruct (option_strings sub); ystep; apply yields_raise. }
  intros v (c & l & -> & Hc). unfold call_action. rewrite Hk, Hd.
  replace (String.eqb "command" SUPPRESS) with false by reflexivity.
  destruct (odict_get c command_refs) as [p|] eqn:Hp; [|apply yields_raise].
  ystep; [by apply Hsub|].
  intros [ns2 rest] H2; simpl in H2.
  repeat ystep; try done; exists c; (split; [exact Hc|]);
    try exact H2; apply HQ; exact H2.
Qed.

(** A successful parse of Karton's command line leaves the name of a
    registered command in the attribute [command]. *)
Lemma yields_parse_cli_command sys_argv :
  yields (parse_cli sys_argv)
    (fun ns => exists c, ns !! "command" = Some (VStr c) /\ c ∈ command_names).
Proof.
  unfold parse_cli, parse_args.
  set (prog := basename _). set (args := List.tl _).
  destruct (cli_top_command prog)
    as (P0 & sub & pp & ca & HP0 & Hpos & Hk & Hn & Hd & Hopt & Hlen).
  rewrite Hlen, HP0, parse_known_args_S, HP0. cbv beta iota.
  set (Φ := fun ns : Namespace =>
              exists c, c ∈ command_names /\ ns !! "command" = Some (VStr c)).
  ystep.
  { apply yields_try_except; [|intros e; apply never_fail_with].
    eapply yields_bind.
    { apply inv__parse_known_args
        with (Inv := fun ps ns => ps = [sub] \/ (ps = [] /\ Φ ns))
             (S := fun a => leaves "command" a = true).
      - intros a ps args' ns [[= -> ->]|[[=] _]].
        eapply yields_weaken.
        { apply take_action_command
            with (pp := pp) (ca := ca)
                 (Q := fun c ns => ns !! "command" = Some (VStr c));
            [exact Hk|exact Hn|exact Hd| |].
          - intros c ns1 v H1. by rewrite lookup_insert_ne.
          - intros c p args'' Hp.
            destruct (cli_subparser_leaves_command prog _ _ Hp)
              as (P & HP & Hall).
            eapply yields_weaken.
            { apply parse_known_args_leaves with (k := "command") (P := P);
                [done|exact HP|exact Hall]. }
            intros r Hr. rewrite Hr. apply lookup_insert_eq. }
        intros ns2 H2. right. split; [reflexivity|exact H2].
      - intros a ps args' ns Ha [->|[-> [c [Hin Hc]]]].
        + eapply yields_weaken;
            [by apply (take_action_leaves "command")|]. intros; by left.
        + eapply yields_weaken;
            [by apply (take_action_leaves "command")|].
          intros ns2 H2. right. split; [reflexivity|].
          exists c. split; [exact Hin|]. by rewrite H2.
      - intros s a [Ha Hne]%find_option_elem.
        rewrite forallb_forall in Hopt.
        apply list_elem_of_In, Hopt, orb_true_iff in Ha as [Ha|Ha]; [|done].
        by apply bool_decide_eq_true in Ha.
      - left. exact Hpos. }
    intros [ns1 args1] H1; simpl in H1.
    destruct H1 as [[=]|[_ (c & Hin & Hc)]].
    instantiate (1 := fun r => Φ r.1).
    repeat ystep; unfold fst; exists c; (split; [exact Hin|]);
      try exact Hc.
    rewrite lookup_delete_ne by done. exact Hc. }
  intros [ns argv] (c & Hin & Hc); simpl in Hc.
  repeat ystep; eauto.
Qed.

(** ** The look-up of the command (lines 221-227) *)

(** X6: whenever the command line parses, the attribute [command] of the
    namespace is the name of a registered command, so the look-up of line
    221 finds its [CommandInfo]: the branch [Invalid command] of lines
    222-223 is not taken, and [run_karton] is the call of that command's
    callback on the namespace, after the verbosity has been set. *)
Theorem parsed_command_is_dispatched (H : Handlers) (sys_argv : list string)
    (w : World) (ns : Namespace) (t' : Out) :
  parse_cli sys_argv (trace w) = (Ret ns, t') ->
  exists c info v,
    ns !! "command" = Some (VStr c)
    /\ c ∈ command_names
    /\ cli_commands H !! c = Some info
    /\ name info = c
    /\ ns !! "verbose" = Some v
    /\ run_karton H sys_argv w
       = call 0 (cli_commands H) (callback info) ns
           {| verbosity := truthy v;
              trace := trace w ++ [SetVerbose (truthy v)];
              heap := cli_heap (basename (List.hd "" sys_argv)) |}.
Proof.
  intros Hp.
  destruct (run_karton_parsed H _ _ _ _ Hp) as [_ (v & Hv & Hrun)].
  destruct (yields_parse_cli_command _ _ _ _ Hp) as [_ (c & Hc & Hin)].
  destruct (cli_commands_names H c Hin) as (info & Hinfo & Hname & _).
  exists c, info, v.
  split; [exact Hc|]. split; [exact Hin|]. split; [exact Hinfo|].
  split; [exact Hname|]. split; [exact Hv|].
  rewrite Hrun. unfold dispatch, getattr. rewrite Hc, bind_ret_l.
  unfold dict_get. rewrite bind_ret_l, Hinfo. reflexivity.
Qed.

Lemma parsed_command_is_dispatched_witness :
  exists info v,
    cli_commands stub_handlers !! "status" = Some info
    /\ run_karton stub_handlers ["karton"; "status"; "-v"] initial_world
       = call 0 (cli_commands stub_handlers) (callback info)
           (list_to_map [("command", VStr "status"); ("verbose", v)])
           {| verbosity := truthy v;
              trace := [SetVerbose (truthy v)];
              heap := cli_heap "karton" |}.
Proof.
  destruct (parsed_command_is_dispatched stub_handlers
              ["karton"; "status"; "-v"] initial_world
              (list_to_map [("command", VStr "status");
                            ("verbose", VBool true)])
              [])
    as (c & info & v & Hc & _ & Hinfo & _ & Hv & Hr); [vm_compute; reflexivity|].
  assert (c = "status") as -> by (vm_compute in Hc; congruence).
  assert (v = VBool true) as -> by (vm_compute in Hv; congruence).
  exists info, (VBool true). split; [exact Hinfo|]. exact Hr.
Defined.

(** ** The handlers of [main.py] (lines 63-84) *)

(** X7: in [main.py] the handlers of [run], [shell], [start], [stop],
    [status] and [build] are empty.  So an invocation that parses as one of
    these commands sets the verbosity from the flag, prints nothing, and
    ends with the exit of the last line of [main]: status 0. *)
Theorem empty_handlers_exit_0 (sys_argv : list string) (w : World)
    (ns : Namespace) (t' : Out) (c : string) :
  parse_cli sys_argv (trace w) = (Ret ns, t') ->
  ns !! "command" = Some (VStr c) ->
  c <> "help" ->
  exists v,
    ns !! "verbose" = Some v
    /\ main stub_handlers sys_argv w
       = (Raise (SystemExit 0),
          {| verbosity := truthy v;
             trace := trace w ++ [SetVerbose (truthy v)];
             heap := cli_heap (basename (List.hd "" sys_argv)) |})
    /\ exit_status (main stub_handlers sys_argv w)
       = (0%Z, trace w ++ [SetVerbose (truthy v)]).
Proof.
  intros Hp Hc Hne.
  destruct (run_karton_parsed stub_handlers _ _ _ _ Hp)
    as [_ (v & Hv & Hrun)].
  destruct (yields_parse_cli_command _ _ _ _ Hp) as [_ (c' & Hc' & Hin)].
  assert (c' = c) as -> by congruence.
  exists v. split; [exact Hv|].
  assert (main stub_handlers sys_argv w
          = (Raise (SystemExit 0),
             {| verbosity := truthy v;
                trace := trace w ++ [SetVerbose (truthy v)];
                heap := cli_heap (basename (List.hd "" sys_argv)) |})) as Hm.
  { unfold main. apply main_with_ret. rewrite Hrun.
    unfold dispatch, getattr. rewrite Hc, bind_ret_l.
    unfold dict_get. rewrite bind_ret_l.
    revert Hin. unfold command_names. rewrite !elem_of_cons, elem_of_nil.
    intros [->|[->|[->|[->|[->|[->|[->|[]]]]]]]]; try reflexivity.
    by destruct Hne. }
  split; [exact Hm|]. rewrite Hm. reflexivity.
Qed.

Lemma empty_handlers_exit_0_witness :
  karton stub_handlers ["/usr/bin/karton"; "build"; "--verbose"]
  = (0%Z, [SetVerbose true]).
Proof.
  destruct (empty_handlers_exit_0 ["/usr/bin/karton"; "build"; "--verbose"]
              initial_world
              (list_to_map [("command", VStr "build");
                            ("verbose", VBool true)])
              [] "build")
    as (v & Hv & _ & Hr);
    [vm_compute; reflexivity|vm_compute; reflexivity|discriminate|].
  assert (v = VBool true) as -> by (vm_compute in Hv; congruence).
  exact Hr.
Defined.

(** ** The values of the flags *)

(** [a] gives the attribute [k] its default. *)
Definition sets_default (k : string) (a : Action) : bool :=
  String.eqb (dest a) k && negb (String.eqb (dest a) SUPPRESS)
  && negb (is_suppress (default a)).

(** The default that [parse_known_args] puts at [k]: that of the first
    action that has one for it. *)
Definition default_of (k : string) (acts : list Action) : option Value :=
  default <$> List.find (sets_default k) acts.

(** [a] writes [k] as a [store_const] action, or not at all. *)
Definition writes_const (k : string) (a : Action) : bool :=
  negb (is_subparsers a)
  && (negb (String.eqb (dest a) k)
      || match kind a with KStoreConst => true | _ => false end).

Definition consts_of (k : string) (acts : list Action) : list Value :=
  const <$> List.filter (fun a => String.eqb (dest a) k) acts.

(** What a parser of such actions can leave at [k], when it starts
    without: its default, or one of the constants. *)
Definition possible (k : string) (P : Parser) : list (option Value) :=
  default_of k (actions P) :: (Some <$> consts_of k (actions P)).

Lemma add_defaults_lookup P ns k :
  add_defaults P ns !! k
  = match ns !! k with
    | Some v => Some v
    | None => default_of k (actions P)
    end.
Proof.
  unfold add_defaults, default_of. revert ns.
  induction (actions P) as [|a l IH]; intros ns; simpl.
  - by destruct (ns !! k).
  - rewrite IH. unfold sets_default at 2.
    destruct (String.eqb_spec (dest a) k) as [Hd|Hd].
    + rewrite Hd.
      destruct (negb (String.eqb k SUPPRESS)) eqn:Hs;
        destruct (negb (is_suppress (default a))) eqn:Hc;
        destruct (ns !! k) as [v|] eqn:Hns; simpl;
        rewrite ?Hns, ?lookup_insert_eq; reflexivity.
    + simpl. destruct (_ && _); [|done]. by rewrite lookup_insert_ne.
Qed.

Section Flags.

Variable error : Parser -> string -> SE Out Empty_set.
Variable k : string.

Lemma take_action_writes_const sub_parse P a args ns :
  a ∈ actions P -> writes_const k a = true ->
  ns !! k ∈ possible k P ->
  yields (take_action sub_parse P a args ns)
    (fun ns' => ns' !! k ∈ possible k P).
Proof.
  intros Hin [Hs Hw]%andb_true_iff Hns. apply negb_true_iff in Hs.
  unfold take_action. ystep; [apply yields__get_values|]. intros [v|] _.
  - unfold call_action, is_subparsers in *.
    destruct (String.eqb_spec (dest a) k) as [Hd|Hd].
    + simpl in Hw. destruct (kind a); try discriminate Hw.
      ystep. rewrite Hd, lookup_insert_eq. unfold possible.
      apply list_elem_of_further, list_elem_of_fmap_2.
      unfold consts_of. apply list_elem_of_fmap_2.
      apply list_elem_of_In, filter_In. split; [by apply list_elem_of_In|].
      by apply String.eqb_eq.
    + destruct (kind a).
      * ystep. by rewrite lookup_insert_ne.
      * ystep. by rewrite lookup_insert_ne.
      * ystep.
      * discriminate Hs.
  - by ystep.
Qed.

(** A parser whose actions write [k] as constants, started without [k],
    returns one of the possible values there. *)
Lemma parse_known_args_possible depth h p P args ns :
  k <> _UNRECOGNIZED_ARGS_ATTR ->
  h !! p = Some P ->
  forallb (writes_const k) (actions P) = true ->
  ns !! k = None ->
  yields (parse_known_args error depth h p args ns)
    (fun r => r.1 !! k ∈ possible k P).
Proof.
  intros Hk HP Hall Hns. destruct depth as [|d]; [apply yields_raise|].
  rewrite parse_known_args_S, HP.
  apply yields_try_except; [|intros e; apply never_fail_with].
  assert (forall a, a ∈ actions P -> writes_const k a = true) as Hin.
  { intros a Ha. rewrite forallb_forall in Hall. apply Hall.
    by apply list_elem_of_In. }
  eapply yields_bind.
  { apply inv__parse_known_args
      with (Inv := fun ps ns' =>
                     Forall (fun a => a ∈ actions P) ps
                     /\ ns' !! k ∈ possible k P)
           (S := fun a => a ∈ actions P).
    - intros a ps args' ns' [[Ha Hps]%Forall_cons Hns'].
      eapply yields_weaken;
        [apply take_action_writes_const; [exact Ha|by apply Hin|exact Hns']|].
      intros ns2 H2. by split.
    - intros a ps args' ns' Ha [Hps Hns'].
      eapply yields_weaken;
        [apply take_action_writes_const; [exact Ha|by apply Hin|exact Hns']|].
      intros ns2 H2. by split.
    - by intros s a [Ha _]%find_option_elem.
    - split.
      + apply Forall_forall. intros a Ha. by apply positionals_elem.
      + rewrite add_defaults_lookup, Hns. apply list_elem_of_here. }
  intros [ns1 args1] [_ H1]; simpl in H1.
  repeat ystep; simpl; try exact H1.
  rewrite lookup_delete_ne by done. exact H1.
Qed.

End Flags.

Section CliFlags.

Variable k : string.
Hypothesis k_not_command : k <> "command".
Hypothesis k_not_unrecognized : k <> _UNRECOGNIZED_ARGS_ATTR.
Hypothesis top_leaves :
  forall prog P0,
    cli_heap prog !! 0 = Some P0 ->
    forallb (fun a => bool_decide (option_strings a = []) || leaves k a)
      (actions P0) = true
    /\ default_of k (actions P0) = None.
Hypothesis commands_write_const :
  forall prog c p,
    odict_get c command_refs = Some p ->
    exists P, cli_heap prog !! p = Some P
              /\ forallb (writes_const k) (actions P) = true.

(** A successful parse of Karton's command line leaves at [k] one of the
    values possible for the command's parser. *)
Lemma yields_parse_cli_flag sys_argv :
  yields (parse_cli sys_argv)
    (fun ns => exists c p P,
         c ∈ command_names
         /\ ns !! "command" = Some (VStr c)
         /\ odict_get c command_refs = Some p
         /\ cli_heap (basename (List.hd "" sys_argv)) !! p = Some P
         /\ ns !! k ∈ possible k P).
Proof.
  unfold parse_cli, parse_args.
  set (prog := basename _). set (args := List.tl _).
  destruct (cli_top_command prog)
    as (P0 & sub & pp & ca & HP0 & Hpos & Hk & Hn & Hd & Hopt & Hlen).
  destruct (top_leaves prog P0 HP0) as [Hoptk Hdef0].
  rewrite Hlen, HP0, parse_known_args_S, HP0. cbv beta iota.
  set (Q := fun (c : string) (ns : Namespace) =>
              ns !! "command" = Some (VStr c)
              /\ exists p P, odict_get c command_refs = Some p
                             /\ cli_heap prog !! p = Some P
                             /\ ns !! k ∈ possible k P).
  set (Φ := fun ns : Namespace => exists c, c ∈ command_names /\ Q c ns).
  ystep.
  { apply yields_try_except; [|intros e; apply never_fail_with].
    eapply yields_bind.
    { apply inv__parse_known_args
        with (Inv := fun ps ns => (ps = [sub] /\ ns !! k = None)
                                  \/ (ps = [] /\ Φ ns))
             (S := fun a => leaves "command" a = true /\ leaves k a = true).
      - intros a ps args' ns [[[= -> ->] Hnone]|[[=] _]].
        eapply yields_weaken.
        { apply take_action_command with (pp := pp) (ca := ca) (Q := Q);
            [exact Hk|exact Hn|exact Hd| |].
          - intros c ns1 v [H1 (p & P & Hp & HP & Hv)]. split.
            + by rewrite lookup_insert_ne.
            + exists p, P. split; [exact Hp|]. split; [exact HP|].
              by rewrite lookup_insert_ne.
          - intros c p args'' Hp.
            destruct (cli_subparser_leaves_command prog _ _ Hp)
              as (P & HP & Hall).
            destruct (commands_write_const prog _ _ Hp) as (P' & HP' & Hallk).
            assert (P' = P) as -> by congruence.
            apply yields_and.
            + eapply yields_weaken.
              { apply parse_known_args_leaves with (k := "command") (P := P);
                  [done|exact HP|exact Hall]. }
              intros r Hr. rewrite Hr. apply lookup_insert_eq.
            + eapply yields_weaken.
              { apply parse_known_args_possible with (P := P);
                  [exact k_not_unrecognized|exact HP|exact Hallk|].
                rewrite lookup_insert_ne by done. exact Hnone. }
              intros r Hr. exists p, P. split; [exact Hp|].
              split; [exact HP|exact Hr]. }
        intros ns2 H2. right. split; [reflexivity|exact H2].
      - intros a ps args' ns [Hac Hak] [[-> Hnone]|[-> (c & Hin & Hc & HQ)]].
        + eapply yields_weaken; [by apply (take_action_leaves k)|].
          intros ns2 H2. left. split; [reflexivity|]. by rewrite H2.
        + eapply yields_weaken.
          { apply yields_and;
              [by apply (take_action_leaves "command")
              |by apply (take_action_leaves k)]. }
          intros ns2 [H2c H2k]. right. split; [reflexivity|].
          exists c. split; [exact Hin|]. split; [by rewrite H2c|].
          destruct HQ as (p & P & Hp & HP & Hv). exists p, P.
          split; [exact Hp|]. split; [exact HP|]. by rewrite H2k.
      - intros s a [Ha Hne]%find_option_elem.
        rewrite forallb_forall in Hopt, Hoptk.
        apply list_elem_of_In in Ha.
        pose proof (Hopt _ Ha) as H1. pose proof (Hoptk _ Ha) as H2.
        apply orb_true_iff in H1 as [H1|H1];
          [by apply bool_decide_eq_true in H1|].
        apply orb_true_iff in H2 as [H2|H2];
          [by apply bool_decide_eq_true in H2|].
        by split.
      - left. split; [exact Hpos|].
        rewrite add_defaults_lookup, lookup_empty. exact Hdef0. }
    intros [ns1 args1] H1; simpl in H1.
    destruct H1 as [[[=] _]|[_ (c & Hin & Hc & p & P & Hp & HP & Hv)]].
    instantiate (1 := fun r => Φ r.1).
    repeat ystep; unfold fst; exists c; (split; [exact Hin|]);
      (split; [|exists p, P; split; [exact Hp|]; split; [exact HP|]]);
      try exact Hc; try exact Hv;
      rewrite lookup_delete_ne by done; assumption. }
  intros [ns argv] (c & Hin & Hc & p & P & Hp & HP & Hv); simpl in Hc, Hv.
  repeat ystep. exists c, p, P. done.
Qed.

End CliFlags.

Lemma cli_top_leaves_flag prog P0 k :
  k = "verbose" \/ k = "cd" ->
  cli_heap prog !! 0 = Some P0 ->
  forallb (fun a => bool_decide (option_strings a = []) || leaves k a)
    (actions P0) = true
  /\ default_of k (actions P0) = None.
Proof.
  intros Hk. unfold cli_heap. cbn [lookup list_lookup]. intros [= <-].
  destruct Hk as [->| ->]; vm_compute; split; reflexivity.
Qed.

Lemma cli_commands_write_const prog c p k :
  k = "verbose" \/ k = "cd" ->
  odict_get c command_refs = Some p ->
  exists P, cli_heap prog !! p = Some P
            /\ forallb (writes_const k) (actions P) = true.
Proof.
  intros Hk. unfold command_refs. simpl.
  repeat (destruct (String.eqb c _);
          [intros [= <-]; destruct Hk as [->| ->]; vm_compute; eexists;
           split; reflexivity|]).
  discriminate.
Qed.

(** The values possible for the two flags, command by command. *)
Lemma cli_possible prog c p P :
  odict_get c command_refs = Some p ->
  cli_heap prog !! p = Some P ->
  possible "verbose" P = [Some (VBool false); Some (VBool true)]
  /\ possible "cd" P
     = if bool_decide (c ∈ ["run"; "shell"])
       then [Some VNone; Some (VStr "no"); Some (VStr "auto")]
       else [None].
Proof.
  unfold command_refs. simpl.
  repeat match goal with
         | |- context [String.eqb c ?s] =>
             destruct (String.eqb_spec c s) as [->|_];
             [intros [= <-]; unfold cli_heap; cbn [lookup list_lookup];
              intros [= <-]; vm_compute; split; reflexivity|]
         end.
  discriminate.
Qed.

(** ** What the handlers are given (lines 110-124, 141, 150, 209-214) *)

(** X8: in the namespace of a command line that parses, [verbose] is a
    boolean, whatever the command; [cd] is [None], ['no'] or ['auto'] for
    the commands [run] and [shell], which got the shared arguments, and
    for every other command the namespace has no attribute [cd] at all. *)
Theorem flags_have_their_values (sys_argv : list string) (t : Out)
    (ns : Namespace) (t' : Out) :
  parse_cli sys_argv t = (Ret ns, t') ->
  exists c,
    ns !! "command" = Some (VStr c)
    /\ c ∈ command_names
    /\ ns !! "verbose" ∈ [Some (VBool false); Some (VBool true)]
    /\ ns !! "cd" ∈ (if bool_decide (c ∈ ["run"; "shell"])
                     then [Some VNone; Some (VStr "no"); Some (VStr "auto")]
                     else [None]).
Proof.
  intros Hp.
  destruct (yields_parse_cli_flag "verbose") with (sys_argv := sys_argv)
    (s := t) (a := ns) (s' := t')
    as [_ (c & p & P & Hin & Hc & Hrefs & HP & Hv)]; try done.
  { intros prog P0. apply cli_top_leaves_flag. by left. }
  { intros prog c p. apply cli_commands_write_const. by left. }
  destruct (yields_parse_cli_flag "cd") with (sys_argv := sys_argv)
    (s := t) (a := ns) (s' := t')
    as [_ (c' & p' & P' & _ & Hc' & Hrefs' & HP' & Hcd)]; try done.
  { intros prog P0. apply cli_top_leaves_flag. by right. }
  { intros prog c0 p0. apply cli_commands_write_const. by right. }
  assert (c' = c) as -> by congruence.
  assert (p' = p) as -> by congruence.
  assert (P' = P) as -> by congruence.
  destruct (cli_possible _ _ _ _ Hrefs HP) as [Hpv Hpc].
  rewrite Hpv in Hv. rewrite Hpc in Hcd.
  exists c. split; [exact Hc|]. split; [exact Hin|].
  split; [exact Hv|exact Hcd].
Qed.

Lemma flags_have_their_values_witness :
  exists ns,
    parse_cli ["karton"; "shell"; "--auto-cd"; "-v"] [] = (Ret ns, [])
    /\ ns !! "verbose" ∈ [Some (VBool false); Some (VBool true)]
    /\ ns !! "cd" ∈ [Some VNone; Some (VStr "no"); Some (VStr "auto")].
Proof.
  exists (list_to_map [("command", VStr "shell"); ("cd", VStr "auto");
                       ("verbose", VBool true)]).
  assert (parse_cli ["karton"; "shell"; "--auto-cd"; "-v"] []
          = (Ret (list_to_map [("command", VStr "shell"); ("cd", VStr "auto");
                               ("verbose", VBool true)]), [])) as Hp
    by (vm_compute; reflexivity).
  split; [exact Hp|].
  destruct (flags_have_their_values _ _ _ _ Hp) as (c & Hc & _ & Hv & Hcd).
  assert (c = "shell") as -> by (vm_compute in Hc; congruence).
  split; [exact Hv|exact Hcd].
Defined.

(* ===================================================================== *)
(** * The exit statuses *)
(* ===================================================================== *)

Section Exits.

Context {St : Type}.
Variable C : Z -> Prop.

(** [m] raises [SystemExit] only with a status in [C]. *)
Definition exits_within {A} (m : SE St A) : Prop :=
  forall s code s', m s = (Raise (SystemExit code), s') -> C code.

Lemma exits_ret {A} (a : A) : exits_within (mret a).
Proof. intros s code s' [=]. Qed.

Lemma exits_raise {A} (e : exn) :
  (forall code, e = SystemExit code -> C code) ->
  exits_within (A:=A) (raise e).
Proof. intros He s code s' [= -> _]. by apply He. Qed.

Lemma exits_bind {A B} (m : SE St A) (k : A -> SE St B) :
  exits_within m -> (forall a, exits_within (k a)) -> exits_within (m ≫= k).
Proof.
  intros Hm Hk s code s'. unfold mbind, SE_bind, bind.
  destruct (m s) as [[a|e] s1] eqn:E.
  - apply Hk.
  - intros [= -> ->]. by eapply Hm.
Qed.

Lemma exits_try_except {A} (m : SE St A) (c : exn -> bool)
    (h : exn -> SE St A) :
  exits_within m -> (forall e, exits_within (h e)) ->
  exits_within (try_except m c h).
Proof.
  intros Hm Hh s code s'. unfold try_except.
  destruct (m s) as [[a|e] s1] eqn:E; [intros [=]|].
  destruct (c e).
  - apply Hh.
  - intros [= -> ->]. by eapply Hm.
Qed.

Lemma exits_modify (f : St -> St) : exits_within (modify f).
Proof. intros s code s' [=]. Qed.

End Exits.

Lemma exits_zoom {S T A} C (proj : S -> T) (upd : T -> S -> S) (m : SE T A) :
  exits_within C m -> exits_within C (zoom proj upd m).
Proof.
  intros Hm s code s'. unfold zoom.
  destruct (m (proj s)) as [r t] eqn:E. intros [= -> _]. by eapply Hm.
Qed.

Lemma exits_exit {A} (C : Z -> Prop) status message :
  C status -> exits_within C (exit (A:=A) status message).
Proof.
  intros HC. unfold exit. apply exits_bind.
  - destruct (String.eqb _ _); [apply exits_ret|apply exits_modify].
  - intros _. apply exits_raise. by intros code [= <-].
Qed.

Ltac estep :=
  lazymatch goal with
  | |- exits_within _ (mret _) => apply exits_ret
  | |- exits_within _ (raise (PyError _ _)) =>
      apply exits_raise; intros ? [=]
  | |- exits_within _ (raise (ArgumentError _ _)) =>
      apply exits_raise; intros ? [=]
  | |- exits_within _ (argument_error _ _) =>
      apply exits_raise; intros ? [=]
  | |- exits_within _ (_ ≫= _) => apply exits_bind; [|intros ?]
  | |- exits_within _ (match ?x with _ => _ end) => destruct x eqn:?
  end.

Section EngineExits.

Variable C : Z -> Prop.
Hypothesis C_0 : C 0%Z.
Variable error : Parser -> string -> SE Out Empty_set.
Hypothesis error_exits : forall P msg, exits_within C (error P msg).

Lemma exits_fail_with {A} P msg : exits_within C (fail_with (A:=A) error P msg).
Proof.
  unfold fail_with. apply exits_bind; [apply error_exits|]. intros [].
Qed.

Lemma exits__parse_optional P s : exits_within C (_parse_optional error P s).
Proof.
  unfold _parse_optional.
  repeat first [apply exits_fail_with | estep].
Qed.

Lemma exits_classify P args : exits_within C (classify error P args).
Proof.
  induction args as [|a args IH]; simpl.
  - estep.
  - destruct (String.eqb a "--"); [estep|].
    estep; [apply exits__parse_optional|].
    estep; [apply IH|]. repeat estep.
Qed.

Lemma exits__match_argument a s : exits_within C (_match_argument a s).
Proof. unfold _match_argument. repeat estep. Qed.

Lemma exits__get_values a args : exits_within C (_get_values a args).
Proof. unfold _get_values. repeat estep. Qed.

Section Parser.

Variable sub_parse :
  nat -> list string -> Namespace -> SE Out (Namespace * list string).
Hypothesis sub_parse_exits :
  forall p args ns, exits_within C (sub_parse p args ns).
Variable P : Parser.

Lemma exits_call_action a ns v :
  exits_within C (call_action sub_parse P a ns v).
Proof.
  unfold call_action. destruct (kind a).
  - estep.
  - estep.
  - estep; [apply exits_modify|]. by apply exits_exit.
  - destruct v as [| | |[|parser_name arg_strings]]; [estep..|].
    destruct (odict_get parser_name name_parser_map); [|estep].
    estep; [apply sub_parse_exits|]. repeat estep.
Qed.

Lemma exits_take_action a args ns :
  exits_within C (take_action sub_parse P a args ns).
Proof.
  unfold take_action. estep; [apply exits__get_values|].
  estep; [apply exits_call_action|estep].
Qed.

Lemma exits_take_positionals arg_strings acts counts i ns :
  exits_within C (take_positionals sub_parse P arg_strings acts counts i ns).
Proof.
  revert counts i ns. induction acts as [|a acts IH]; intros counts i ns;
    simpl; [estep|].
  destruct counts as [|c counts]; [estep|].
  estep; [apply exits_take_action|]. apply IH.
Qed.

Lemma exits_consume_positionals arg_strings pattern st i :
  exits_within C (consume_positionals sub_parse P arg_strings pattern st i).
Proof.
  unfold consume_positionals. estep; [apply exits_take_positionals|].
  repeat estep.
Qed.

Lemma exits_take_actions l ns :
  exits_within C (take_actions sub_parse P l ns).
Proof.
  revert ns. induction l as [|[a args] l IH]; intros ns; simpl; [estep|].
  estep; [apply exits_take_action|]. apply IH.
Qed.

Lemma exits_explicit_tuples no_explicit i a os ex :
  (forall a os, exits_within C (no_explicit a os)) ->
  exits_within C (explicit_tuples P no_explicit i a os ex).
Proof.
  intros Hno. revert a os.
  induction ex as [|c ex IH]; intros a os; simpl.
  - estep; [apply exits__match_argument|]. repeat estep.
  - estep; [apply exits__match_argument|].
    destruct (_ && _).
    + destruct (find_option _ _) as [a'|]; [|estep].
      estep; [destruct ex; [apply Hno|apply IH]|]. repeat estep.
    + repeat estep.
Qed.

Lemma exits_consume_optional arg_strings idx pattern st i :
  exits_within C (consume_optional sub_parse P arg_strings idx pattern st i).
Proof.
  unfold consume_optional.
  destruct (idx !! i) as [[t|]|]; [|estep|estep].
  destruct (ot_action t) as [a|]; [|estep].
  assert (forall (a : Action) (os : string),
            exits_within C
              (arg_count ← _match_argument a (List.skipn (S i) pattern);
               mret ([(a, slice arg_strings (S i) (S i + arg_count))],
                     S i + arg_count))) as Hno.
  { intros a' os. estep; [apply exits__match_argument|]. estep. }
  estep.
  { destruct (ot_explicit_arg t);
      [by apply exits_explicit_tuples|apply (Hno a EmptyString)]. }
  estep. estep; [apply exits_take_actions|]. estep.
Qed.

Lemma exits_parse_loop arg_strings idx pattern fuel st i :
  exits_within C (parse_loop sub_parse P arg_strings idx pattern fuel st i).
Proof.
  revert st i. induction fuel as [|fuel IH]; intros st i; simpl; [estep|].
  destruct (next_option_string_index _ _) as [next|]; [|estep].
  assert (forall st i,
            exits_within C
              ('(st, stop) ←
                 consume_optional sub_parse P arg_strings idx pattern
                   (if is_option_index idx i then st
                    else {| ls_ns := ls_ns st;
                            ls_positionals := ls_positionals st;
                            ls_extras := ls_extras st
                                         ++ slice arg_strings i next |})
                   (if is_option_index idx i then i else next);
               parse_loop sub_parse P arg_strings idx pattern fuel st stop))
    as Hopt.
  { intros st' i'. estep; [apply exits_consume_optional|]. estep. apply IH. }
  destruct (bool_decide _); [|apply Hopt].
  estep; [apply exits_consume_positionals|]. estep.
  destruct (_ <? _)%nat; [apply IH|apply Hopt].
Qed.

Lemma exits__parse_known_args arg_strings ns :
  exits_within C (_parse_known_args error sub_parse P arg_strings ns).
Proof.
  unfold _parse_known_args.
  estep; [apply exits_classify|]. estep.
  estep; [apply exits_parse_loop|]. estep.
  estep; [apply exits_consume_positionals|]. estep.
  destruct (ls_positionals _); [estep|apply exits_fail_with].
Qed.

End Parser.

Lemma exits_parse_known_args depth h p args ns :
  exits_within C (parse_known_args error depth h p args ns).
Proof.
  revert p args ns. induction depth as [|d IH]; intros p args ns.
  - simpl. estep.
  - rewrite parse_known_args_S. destruct (h !! p) as [P|]; [|estep].
    apply exits_try_except; [|intros e; apply exits_fail_with].
    estep; [by apply exits__parse_known_args|]. repeat estep.
Qed.

Lemma exits_parse_args h p args :
  exits_within C (parse_args error h p args).
Proof.
  unfold parse_args. estep; [apply exits_parse_known_args|].
  repeat first [apply exits_fail_with | estep].
Qed.

End EngineExits.

Lemma exits_error (C : Z -> Prop) P msg :
  C 1%Z -> C 2%Z -> exits_within C (error P msg).
Proof.
  intros C1 C2. unfold error. destruct (String.eqb _ _).
  - apply exits_bind; [apply exits_modify|]. intros _.
    apply exits_raise. by intros code [= <-].
  - unfold argparse_error. apply exits_bind; [apply exits_modify|].
    intros _. by apply exits_exit.
Qed.

Lemma exits_parse_cli (C : Z -> Prop) sys_argv :
  C 0%Z -> C 1%Z -> C 2%Z -> exits_within C (parse_cli sys_argv).
Proof.
  intros C0 C1 C2. unfold parse_cli. apply exits_parse_args; [exact C0|].
  intros P msg. by apply exits_error.
Qed.

Lemma exits_die {A} (C : Z -> Prop) msg : C 1%Z -> exits_within C (die (A:=A) msg).
Proof.
  intros C1. unfold die. apply exits_bind.
  - apply exits_zoom, exits_modify.
  - intros _. apply exits_raise. by intros code [= <-].
Qed.

Lemma exits_getattr (C : Z -> Prop) ns attr : exits_within C (getattr ns attr).
Proof. unfold getattr. repeat estep. Qed.

Lemma exits_dict_get {V} (C : Z -> Prop) (d : gmap string V) key :
  exits_within C (dict_get d key).
Proof. unfold dict_get. repeat estep. Qed.

Lemma exits_load (C : Z -> Prop) p : exits_within C (load p).
Proof.
  intros w code w'. unfold load, mbind, SE_bind, bind, get.
  destruct (heap w !! p); intros [=].
Qed.

Lemma exits_do_help (C : Z -> Prop) parser cmds ns :
  C 1%Z -> exits_within C (do_help parser cmds ns).
Proof.
  intros C1. unfold do_help. estep; [apply exits_getattr|].
  assert (exits_within C
            (command ← dict_get cmds a;
             match command with
             | Some command =>
                 P ← load (subparser command); io (print_help stdout P)
             | None => die (not_a_command_message (str_value a))
             end)) as Hrest.
  { estep; [apply exits_dict_get|]. estep; [|by apply exits_die].
    estep; [apply exits_load|]. apply exits_zoom, exits_modify. }
  destruct a; try exact Hrest.
  estep; [apply exits_load|]. apply exits_zoom, exits_modify.
Qed.

(** The handlers raise [SystemExit] only with a status in [C]. *)
Definition handlers_exit_within (C : Z -> Prop) (H : Handlers) : Prop :=
  forall ns,
    exits_within C (do_run H ns) /\ exits_within C (do_shell H ns)
    /\ exits_within C (do_start H ns) /\ exits_within C (do_stop H ns)
    /\ exits_within C (do_status H ns) /\ exits_within C (do_build H ns).

Lemma exits_bind_ret {St A B} C (m : SE St A) (k : A -> SE St B) :
  exits_within C m ->
  (forall a s s', m s = (Ret a, s') -> exits_within C (k a)) ->
  exits_within C (m ≫= k).
Proof.
  intros Hm Hk s code s'. unfold mbind, SE_bind, bind.
  destruct (m s) as [[a|e] s1] eqn:E.
  - by eapply Hk.
  - intros [= -> ->]. by eapply Hm.
Qed.

Lemma exits_dispatch (C : Z -> Prop) H ns :
  C 1%Z -> handlers_exit_within C H ->
  exits_within C (dispatch 0 (cli_commands H) ns).
Proof.
  intros C1 HH. unfold dispatch. estep; [apply exits_getattr|].
  apply exits_bind_ret; [apply exits_dict_get|].
  intros [info|] w w' Hget; [|by apply exits_die].
  destruct (callback info) as [f|] eqn:Hcb; [|by apply exits_do_help].
  unfold call.
  destruct a as [| |c|]; try discriminate Hget.
  injection Hget as Hget _. unfold cli_commands in Hget.
  apply elem_of_list_to_map_2 in Hget.
  destruct (HH ns) as (H1 & H2 & H3 & H4 & H5 & H6).
  repeat (apply elem_of_cons in Hget as [[= _ ->]|Hget];
          [simpl in Hcb; first [discriminate Hcb
                               |injection Hcb as <-; assumption]|]).
  by apply elem_of_nil in Hget.
Qed.

Lemma exits_run_karton (C : Z -> Prop) H sys_argv :
  C 0%Z -> C 1%Z -> C 2%Z -> handlers_exit_within C H ->
  exits_within C (run_karton H sys_argv).
Proof.
  intros C0 C1 C2 HH w code w'. rewrite run_karton_eq.
  destruct (parse_cli sys_argv (trace w)) as [[ns|e] t'] eqn:Hp.
  - apply exits_bind; [apply exits_getattr|]. intros v.
    apply exits_bind; [apply exits_modify|]. intros _.
    by apply exits_dispatch.
  - intros [= -> _]. by eapply exits_parse_cli.
Qed.

(** What the interpreter makes of [main]'s result. *)
Lemma main_with_status (C : Z -> Prop) body w :
  C 0%Z -> C 1%Z -> exits_within C body ->
  C (exit_status (main_with body w)).1.
Proof.
  intros C0 C1 Hb. destruct (body w) as [[[]|e] w1] eqn:E.
  - by rewrite (main_with_ret _ _ _ E).
  - destruct e as [code| |n m|cl m].
    + rewrite (main_with_exit _ _ _ _ E). simpl. by eapply Hb.
    + by rewrite (main_with_interrupt _ _ _ E).
    + rewrite (main_with_exception _ _ _ _ E) by reflexivity.
      by destruct (verbosity w1).
    + rewrite (main_with_exception _ _ _ _ E) by reflexivity.
      by destruct (verbosity w1).
Qed.

(** ** The exit status of the program (lines 21-28, 217-253) *)

(** X9: the exit status of an invocation is 0, 1 or 2, or one that a
    handler exits with: whatever the command line is and whatever the
    verbosity was, the parser, the dispatcher and [main] add no other
    status. *)
Theorem exit_status_of_karton (C : Z -> Prop) (H : Handlers)
    (sys_argv : list string) (w : World) :
  C 0%Z -> C 1%Z -> C 2%Z ->
  handlers_exit_within C H ->
  C (exit_status (main H sys_argv w)).1.
Proof.
  intros C0 C1 C2 HH. unfold main.
  apply main_with_status; [exact C0|exact C1|].
  by apply exits_run_karton.
Qed.

Lemma exit_status_of_karton_witness :
  (0 <= (karton stub_handlers ["karton"; "frobnicate"; "--now"]).1 <= 2)%Z.
Proof.
  apply (exit_status_of_karton (fun z => (0 <= z <= 2)%Z) stub_handlers
           ["karton"; "frobnicate"; "--now"] initial_world); [lia..|].
  intros ns.
  split; [|split; [|split; [|split; [|split]]]]; apply exits_ret.
Defined.

(* ===================================================================== *)
(** * Command lines with an arbitrary word *)
(* ===================================================================== *)



(** ** [help WORD] (lines 182-193, 195-207) *)




(* ===================================================================== *)
(** * A first word that is not an option *)
(* ===================================================================== *)

Lemma eqb_dashdash_word s : starts_with_dash s = false -> String.eqb s "--" = false.
Proof. intros Hs. destruct (String.eqb_spec s "--") as [->|]; done. Qed.

Lemma match_star_any {R} s (k : list sym -> option R) r :
  k [] = Some r -> match_star cAny s k = Some r.
Proof.
  intros Hk. induction s as [|x s IH]; simpl; [done|]. by rewrite IH.
Qed.

(** The pattern of a positional that takes the rest of the command line
    matches all of a pattern that begins with an argument. *)
Lemma match_greedy a pat :
  option_strings a = [] ->
  nargs a = NargsParser \/ nargs a = NargsRemainder ->
  match_groups [_get_nargs_pattern a] (sA :: pat) = Some [S (length pat)].
Proof.
  intros Ho Hn. unfold _get_nargs_pattern. rewrite Ho.
  destruct Hn as [-> | ->]; cbn -[match_star Nat.sub length].
  - simpl. apply match_star_any. simpl. by rewrite ?Nat.sub_0_r.
  - apply match_star_any. simpl. by rewrite ?Nat.sub_0_r.
Qed.

Lemma bind_apply {S A B} (m : SE S A) (k : A -> SE S B) s :
  (m ≫= k) s
  = match m s with
    | (Ret a, s') => k a s'
    | (Raise e, s') => (Raise e, s')
    end.
Proof. reflexivity. Qed.

Section FirstWord.

Variable error : Parser -> string -> SE Out Empty_set.

Lemma _parse_optional_word P s :
  starts_with_dash s = false -> _parse_optional error P s = mret None.
Proof.
  intros Hs. unfold _parse_optional.
  destruct (String.eqb s ""); [reflexivity|]. by rewrite Hs.
Qed.

Lemma classify_length P args t idx pat t' :
  classify error P args t = (Ret (idx, pat), t') ->
  length idx = length args /\ length pat = length args.
Proof.
  revert t idx pat t'. induction args as [|a args IH]; intros t idx pat t'; simpl.
  - by intros [= <- <- _].
  - destruct (String.eqb a "--").
    + intros [= <- <- _]. simpl. by rewrite !length_map.
    + unfold mbind, SE_bind, bind.
      destruct (_parse_optional error P a t) as [[o|e] t1]; [|intros [=]].
      destruct (classify error P args t1) as [[[ts ps]|e] t2] eqn:Hc;
        [|intros [=]].
      intros [= <- <- _]. destruct (IH _ _ _ _ Hc) as [H1 H2].
      simpl. by rewrite H1, H2.
Qed.

Lemma classify_word P word rest t idx pat t' :
  starts_with_dash word = false ->
  classify error P (word :: rest) t = (Ret (idx, pat), t') ->
  exists idx' pat',
    idx = None :: idx' /\ pat = sA :: pat'
    /\ length idx' = length rest /\ length pat' = length rest.
Proof.
  intros Hs. simpl. rewrite (eqb_dashdash_word _ Hs), (_parse_optional_word _ _ Hs).
  unfold mbind, SE_bind, bind. simpl.
  destruct (classify error P rest t) as [[[ts ps]|e] t2] eqn:Hc; [|intros [=]].
  intros [= <- <- _]. destruct (classify_length _ _ _ _ _ _ Hc) as [H1 H2].
  by exists ts, ps.
Qed.

Lemma next_option_string_index_Some idx i n :
  next_option_string_index idx i = Some n ->
  i <= n /\ is_option_index idx n = true.
Proof.
  unfold next_option_string_index. intros [Hin Hn]%find_some.
  apply in_seq in Hin. split; [lia|done].
Qed.

Lemma next_option_string_index_end idx i :
  length idx <= i -> next_option_string_index idx i = None.
Proof.
  intros Hi. unfold next_option_string_index.
  replace (length idx - i) with 0 by lia. reflexivity.
Qed.

Lemma parse_loop_S sub_parse P arg_strings idx pattern fuel st start_index :
  parse_loop sub_parse P arg_strings idx pattern (S fuel) st start_index
  = match next_option_string_index idx start_index with
    | None => mret (st, start_index)
    | Some next =>
        let optional (st : LoopState) (start_index : nat) :=
          let st :=
            if is_option_index idx start_index then st
            else {| ls_ns := ls_ns st; ls_positionals := ls_positionals st;
                    ls_extras := ls_extras st
                                 ++ slice arg_strings start_index next |} in
          let start_index :=
            if is_option_index idx start_index then start_index else next in
          '(st, stop) ← consume_optional sub_parse P arg_strings idx pattern
                          st start_index;
          parse_loop sub_parse P arg_strings idx pattern fuel st stop in
        if bool_decide (start_index <> next) then
          '(st, positionals_end_index) ←
            consume_positionals sub_parse P arg_strings pattern st start_index;
          if (start_index <? positionals_end_index)%nat then
            parse_loop sub_parse P arg_strings idx pattern fuel st
              positionals_end_index
          else optional st positionals_end_index
        else optional st start_index
    end.
Proof. reflexivity. Qed.

Lemma slice_all {A} (l : list A) : slice l 0 (0 + length l) = l.
Proof.
  unfold slice. simpl. rewrite Nat.sub_0_r. apply firstn_all.
Qed.

Variable sub_parse :
  nat -> list string -> Namespace -> SE Out (Namespace * list string).
Variable P : Parser.
Variable a : Action.
Hypothesis one_positional :
  List.filter (fun a => bool_decide (option_strings a = [])) (actions P) = [a].
Hypothesis a_positional : option_strings a = [].
Hypothesis a_greedy : nargs a = NargsParser \/ nargs a = NargsRemainder.

(** The greedy positional takes the whole command line at once. *)
Lemma consume_positionals_greedy args pat' ns extras t :
  length pat' + 1 = length args ->
  consume_positionals sub_parse P args (sA :: pat')
    {| ls_ns := ns; ls_positionals := [a]; ls_extras := extras |} 0 t
  = match take_action sub_parse P a args ns t with
    | (Ret ns', t') =>
        (Ret ({| ls_ns := ns'; ls_positionals := []; ls_extras := extras |},
              length args), t')
    | (Raise e, t') => (Raise e, t')
    end.
Proof.
  intros Hlen. unfold consume_positionals. cbn [ls_positionals ls_ns ls_extras].
  replace (_match_arguments_partial [a] (List.skipn 0 (sA :: pat')))
    with [length args].
  2:{ unfold _match_arguments_partial. cbn [length _match_arguments_partial_upto
        List.firstn List.map List.skipn].
      rewrite (match_greedy a pat' a_positional a_greedy).
      f_equal. lia. }
  cbn [take_positionals length List.skipn].
  rewrite slice_all. unfold mbind, SE_bind, bind.
  destruct (take_action sub_parse P a args ns t) as [[ns'|e] t']; reflexivity.
Qed.

Lemma consume_positionals_none args pattern ns extras i t :
  consume_positionals sub_parse P args pattern
    {| ls_ns := ns; ls_positionals := []; ls_extras := extras |} i t
  = (Ret ({| ls_ns := ns; ls_positionals := []; ls_extras := extras |}, i), t).
Proof. reflexivity. Qed.

(** With a first word that is no option, the parser hands the whole
    command line to its greedy positional and is done. *)
Lemma _parse_known_args_greedy word rest ns t idx pat t1 :
  starts_with_dash word = false ->
  classify error P (word :: rest) t = (Ret (idx, pat), t1) ->
  _parse_known_args error sub_parse P (word :: rest) ns t
  = match take_action sub_parse P a (word :: rest) ns t1 with
    | (Ret ns', t') => (Ret (ns', []), t')
    | (Raise e, t') => (Raise e, t')
    end.
Proof.
  intros Hs Hc.
  destruct (classify_word _ _ _ _ _ _ _ Hs Hc)
    as (idx' & pat' & -> & -> & Hli & Hlp).
  unfold _parse_known_args. rewrite bind_apply, Hc. cbv beta iota.
  rewrite one_positional.
  set (args := word :: rest).
  assert (length pat' + 1 = length args) as Hlen by (simpl; lia).
  assert (length (None :: idx') <= length args) as Hidx by (simpl; lia).
  rewrite bind_apply, parse_loop_S.
  destruct (next_option_string_index (None :: idx') 0) as [next|] eqn:Hnext.
  - apply next_option_string_index_Some in Hnext as [_ Hopt].
    assert (0 <> next) as Hne by (intros <-; discriminate Hopt).
    cbv zeta. rewrite (bool_decide_eq_true_2 _ Hne).
    rewrite bind_apply.
    rewrite (consume_positionals_greedy args pat' ns [] t1 Hlen).
    destruct (take_action sub_parse P a args ns t1) as [[ns'|e] t2];
      [|reflexivity].
    cbv beta iota.
    replace (0 <? length args)%nat with true by reflexivity.
    change (length args) with (S (length rest)) at 1.
    rewrite parse_loop_S, (next_option_string_index_end _ _ Hidx).
    unfold mret at 1, SE_ret at 1, ret at 1. cbv beta iota.
    rewrite bind_apply, consume_positionals_none. cbv beta iota.
    cbn [ls_positionals ls_extras ls_ns app]. rewrite skipn_all. reflexivity.
  - unfold mret at 1, SE_ret at 1, ret at 1. cbv beta iota.
    rewrite bind_apply.
    rewrite (consume_positionals_greedy args pat' ns [] t1 Hlen).
    destruct (take_action sub_parse P a args ns t1) as [[ns'|e] t2];
      [|reflexivity].
    cbv beta iota. cbn [ls_positionals ls_extras ls_ns app].
    rewrite skipn_all. reflexivity.
Qed.

End FirstWord.

Lemma try_except_apply {S A} (m : SE S A) c (h : exn -> SE S A) s :
  try_except m c h s
  = match m s with
    | (Ret a, s') => (Ret a, s')
    | (Raise e, s') => if c e then h e s' else (Raise e, s')
    end.
Proof. reflexivity. Qed.

(** A [store] action with [nargs=REMAINDER] stores its argument strings as
    they are. *)
Lemma take_action_remainder sub_parse P a args ns :
  kind a = KStore -> nargs a = NargsRemainder ->
  take_action sub_parse P a args ns = mret (<[dest a := VList args]> ns).
Proof.
  intros Hk Hn. unfold take_action, _get_values. rewrite Hn.
  destruct args as [|x [|y l]]; destruct (option_strings a);
    rewrite bind_ret_l; unfold call_action; rewrite Hk; reflexivity.
Qed.

(** The sub-parsers action on a registered name: the name is stored and
    the rest goes to the parser of that name. *)
Lemma take_action_subparser sub_parse P a pp npm ca c p args ns :
  kind a = KSubParsers pp npm ca -> nargs a = NargsParser ->
  String.eqb (dest a) SUPPRESS = false ->
  odict_get c npm = Some p ->
  take_action sub_parse P a (c :: args) ns
  = ('(ns, arg_strings) ← sub_parse p args (<[dest a := VStr c]> ns);
     match arg_strings with
     | [] => mret ns
     | _ :: _ =>
         match ns !! _UNRECOGNIZED_ARGS_ATTR with
         | None => mret (<[_UNRECOGNIZED_ARGS_ATTR := VList arg_strings]> ns)
         | Some (VList l) =>
             mret (<[_UNRECOGNIZED_ARGS_ATTR := VList (l ++ arg_strings)]> ns)
         | Some _ =>
             raise (PyError "AttributeError" "object has no attribute 'extend'")
         end
     end).
Proof.
  intros Hk Hn Hd Hp. unfold take_action, _get_values. rewrite Hn, Hk.
  rewrite bool_decide_eq_true_2 by (rewrite Hp; eauto).
  destruct args; rewrite bind_ret_l; unfold call_action;
    rewrite Hk, Hd, Hp; reflexivity.
Qed.

(** The sub-parsers action on a name that is not registered. *)
Lemma take_action_invalid_choice sub_parse P a pp npm ca c args ns :
  kind a = KSubParsers pp npm ca -> nargs a = NargsParser ->
  odict_get c npm = None ->
  take_action sub_parse P a (c :: args) ns
  = argument_error a
      ("invalid choice: " ++ repr c ++ " (choose from "
       ++ join ", " (List.map (fun c => repr (fst c)) npm) ++ ")").
Proof.
  intros Hk Hn Hp. unfold take_action, _get_values. rewrite Hn, Hk.
  rewrite bool_decide_eq_false_2 by (rewrite Hp; by intros [? [=]]).
  destruct args; reflexivity.
Qed.

Section GreedyParser.

Variable error : Parser -> string -> SE Out Empty_set.

(** [parse_known_args] of a parser with one greedy positional, on a command
    line whose first word is no option: when it returns, it has taken that
    action on the whole command line. *)
Lemma parse_known_args_greedy d h p P a word rest ns t r t' :
  h !! p = Some P ->
  List.filter (fun a => bool_decide (option_strings a = [])) (actions P) = [a] ->
  option_strings a = [] ->
  nargs a = NargsParser \/ nargs a = NargsRemainder ->
  starts_with_dash word = false ->
  parse_known_args error (S d) h p (word :: rest) ns t = (Ret r, t') ->
  exists ns',
    take_action (parse_known_args error d h) P a (word :: rest)
      (add_defaults P ns) t = (Ret ns', t')
    /\ match ns' !! _UNRECOGNIZED_ARGS_ATTR with
       | Some (VList l) => r = (delete _UNRECOGNIZED_ARGS_ATTR ns', l)
       | Some _ => False
       | None => r = (ns', [])
       end.
Proof.
  intros HP Hpos Ho Hn Hs. rewrite parse_known_args_S, HP, try_except_apply.
  rewrite bind_apply.
  destruct (classify error P (word :: rest) t) as [[[idx pat]|e] t1] eqn:Hc.
  - destruct (yields_classify error P _ _ _ _ Hc) as [-> _].
    rewrite (_parse_known_args_greedy error _ P a Hpos Ho Hn _ _ _ _ _ _ _ Hs Hc).
    destruct (take_action _ P a (word :: rest) (add_defaults P ns) t)
      as [[ns'|e] t2].
    + cbv beta iota. destruct (ns' !! _UNRECOGNIZED_ARGS_ATTR) as [[| | |l]|] eqn:Hu;
        try (intros [=]; fail).
      * intros [= <- <-]. exists ns'. by rewrite Hu.
      * intros [= <- <-]. exists ns'. by rewrite Hu.
    + destruct (is_ArgumentError e); [|intros [=]].
      intros Hf. by apply never_fail_with in Hf.
  - assert (_parse_known_args error (parse_known_args error d h) P
              (word :: rest) (add_defaults P ns) t = (Raise e, t1)) as ->.
    { unfold _parse_known_args. by rewrite bind_apply, Hc. }
    destruct (is_ArgumentError e); [|intros [=]].
    intros Hf. by apply never_fail_with in Hf.
Qed.

End GreedyParser.

(** The parsers that a [run] command line goes through. *)
Lemma cli_run_parsers prog :
  exists P0 sub pp ca P1 rem,
    cli_heap prog !! 0 = Some P0
    /\ List.filter (fun a => bool_decide (option_strings a = [])) (actions P0)
       = [sub]
    /\ option_strings sub = []
    /\ kind sub = KSubParsers pp command_refs ca
    /\ nargs sub = NargsParser
    /\ dest sub = "command"
    /\ cli_heap prog !! 1 = Some P1
    /\ List.filter (fun a => bool_decide (option_strings a = [])) (actions P1)
       = [rem]
    /\ option_strings rem = []
    /\ kind rem = KStore
    /\ nargs rem = NargsRemainder
    /\ dest rem = "remainder"
    /\ (forall v,
          <["remainder" := v]>
            (add_defaults P1 (<["command" := VStr "run"]> (add_defaults P0 ∅)))
          = list_to_map [("command", VStr "run"); ("remainder", v);
                         ("cd", VNone); ("verbose", VBool false)])
    /\ length (cli_heap prog) = 8.
Proof.
  do 6 eexists.
  split; [reflexivity|]. split; [reflexivity|]. split; [reflexivity|].
  split; [reflexivity|]. split; [reflexivity|]. split; [reflexivity|].
  split; [reflexivity|]. split; [reflexivity|]. split; [reflexivity|].
  split; [reflexivity|]. split; [reflexivity|]. split; [reflexivity|].
  split; [|reflexivity]. intros v. vm_compute. reflexivity.
Qed.

(** ** The command of [run] (lines 126-137) *)

(** X11: [karton run WORD ...], for any word that does not start with a
    dash, followed by anything.  When the command line parses, the word and
    everything after it, flags included, are handed to [do_run] verbatim in
    [remainder]: none of it is taken as a flag of Karton, so [cd] is [None]
    and the verbosity is set to off. *)
Theorem run_takes_the_rest_verbatim (H : Handlers) (argv0 word : string)
    (rest : list string) (w : World) (ns : Namespace) (t' : Out) :
  starts_with_dash word = false ->
  parse_cli (argv0 :: "run" :: word :: rest) (trace w) = (Ret ns, t') ->
  ns = list_to_map [("command", VStr "run");
                    ("remainder", VList (word :: rest));
                    ("cd", VNone); ("verbose", VBool false)]
  /\ run_karton H (argv0 :: "run" :: word :: rest) w
     = do_run H ns
         {| verbosity := false; trace := trace w ++ [SetVerbose false];
            heap := cli_heap (basename argv0) |}.
Proof.
  intros Hs Hp.
  assert (ns = list_to_map [("command", VStr "run");
                            ("remainder", VList (word :: rest));
                            ("cd", VNone); ("verbose", VBool false)]) as Hns.
  { revert Hp. unfold parse_cli, parse_args. cbn [List.hd List.tl].
    set (prog := basename argv0).
    destruct (cli_run_parsers prog)
      as (P0 & sub & pp & ca & P1 & rem & HP0 & Hpos0 & Ho0 & Hk0 & Hn0 & Hd0
          & HP1 & Hpos1 & Ho1 & Hk1 & Hn1 & Hd1 & Hmap & Hlen).
    rewrite Hlen, HP0, bind_apply.
    destruct (parse_known_args error 9 (cli_heap prog) 0
                ("run" :: word :: rest) ∅ (trace w))
      as [[[ns0 argv]|e] t1] eqn:Hpk; [|intros [=]].
    eapply parse_known_args_greedy in Hpk as (ns' & Hta & Hr);
      [|exact HP0|exact Hpos0|exact Ho0|by left|reflexivity].
    rewrite (take_action_subparser _ P0 sub pp command_refs ca "run" 1) in Hta;
      [|exact Hk0|exact Hn0|by rewrite Hd0|reflexivity].
    rewrite bind_apply in Hta.
    destruct (parse_known_args error 8 (cli_heap prog) 1 (word :: rest)
                (<[dest sub := VStr "run"]> (add_defaults P0 ∅)) (trace w))
      as [[[ns2 rest2]|e] t2] eqn:Hpk1; [|discriminate Hta].
    eapply parse_known_args_greedy in Hpk1 as (ns3 & Hta1 & Hr1);
      [|exact HP1|exact Hpos1|exact Ho1|by right|exact Hs].
    rewrite (take_action_remainder _ P1 rem _ _ Hk1 Hn1) in Hta1.
    injection Hta1 as <- <-. rewrite Hd1, Hd0, Hmap in Hr1.
    replace (_ !! _UNRECOGNIZED_ARGS_ATTR) with (@None Value) in Hr1
      by reflexivity.
    injection Hr1 as -> ->. injection Hta as <- <-.
    replace (_ !! _UNRECOGNIZED_ARGS_ATTR) with (@None Value) in Hr
      by reflexivity.
    injection Hr as -> ->. by intros [= <- _]. }
  split; [exact Hns|].
  destruct (run_karton_parsed H _ _ _ _ Hp) as [_ (v & Hv & Hrun)].
  rewrite Hrun. rewrite Hns in Hv |- *.
  assert (v = VBool false) as -> by (vm_compute in Hv; congruence).
  reflexivity.
Qed.

Lemma run_takes_the_rest_verbatim_witness :
  run_karton stub_handlers ["karton"; "run"; "ls"; "-v"; "--no-cd"]
    initial_world
  = do_run stub_handlers
      (list_to_map [("command", VStr "run");
                    ("remainder", VList ["ls"; "-v"; "--no-cd"]);
                    ("cd", VNone); ("verbose", VBool false)])
      {| verbosity := false; trace := [SetVerbose false];
         heap := cli_heap "karton" |}.
Proof.
  destruct (run_takes_the_rest_verbatim stub_handlers "karton" "ls"
              ["-v"; "--no-cd"] initial_world
              (list_to_map [("command", VStr "run");
                            ("remainder", VList ["ls"; "-v"; "--no-cd"]);
                            ("cd", VNone); ("verbose", VBool false)])
              [])
    as [_ Hr]; [reflexivity|vm_compute; reflexivity|].
  exact Hr.
Defined.

(* ===================================================================== *)
(** * The top-level parser has no ambiguous abbreviation *)
(* ===================================================================== *)

Lemma starts_with_dash_spec s :
  starts_with_dash s = true -> exists s', s = String "-" s'.
Proof.
  destruct s as [|[[] [] [] [] [] [] [] []] s']; try discriminate. eauto.
Qed.

Lemma is_long_option_spec s :
  is_long_option s = true -> exists s', s = String "-" (String "-" s').
Proof.
  intros Hl. destruct (starts_with_dash_spec s) as [s1 ->].
  { destruct s as [|[[] [] [] [] [] [] [] []] s']; try discriminate.
    reflexivity. }
  destruct (starts_with_dash_spec s1) as [s2 ->]; [|eauto].
  destruct s1 as [|[[] [] [] [] [] [] [] []] s']; try discriminate.
  reflexivity.
Qed.

Section TopLevel.

Variable error : Parser -> string -> SE Out Empty_set.
Variable P : Parser.
Hypothesis help_only : all_option_strings P = ["-h"; "--help"].

Lemma _get_option_tuples_top s :
  starts_with_dash s = true -> (String.length s =? 1)%nat = false ->
  length (_get_option_tuples P s) <= 1.
Proof.
  intros Hs Hlen. unfold _get_option_tuples. rewrite help_only.
  destruct (is_long_option s) eqn:Hl.
  - apply is_long_option_spec in Hl as [s' ->].
    assert (exists x o,
              match split_once "=" (String "-" (String "-" s')) with
              | Some (a, b) => (a, Some b)
              | None => (String "-" (String "-" s'), None)
              end = (String "-" (String "-" x), o)) as (x & o & ->).
    { simpl. destruct (split_once "=" s') as [[a b]|]; eauto. }
    rewrite length_map. cbn [List.filter].
    assert (startswith "-h" (String "-" (String "-" x)) = false) as ->
      by reflexivity.
    destruct (startswith _ _); simpl; lia.
  - apply starts_with_dash_spec in Hs as [s1 ->].
    destruct s1 as [|c2 s2]; [discriminate Hlen|].
    assert (c2 <> "-"%char) as Hc2 by (intros ->; discriminate Hl).
    cbn [List.flat_map]. rewrite app_nil_r, length_app.
    assert (String.eqb "--help" (substring 0 2 (String "-" (String c2 s2)))
            = false) as ->.
    { apply String.eqb_neq. cbn [substring]. intros [= Heq _]. congruence. }
    assert (startswith "--help" (String "-" (String c2 s2)) = false) as ->.
    { unfold startswith. cbn [String.prefix].
      destruct (ascii_dec "-" "-") as [_|Hne]; [|done].
      destruct (ascii_dec c2 "-") as [->|_]; [done|reflexivity]. }
    destruct (String.eqb _ _); [simpl; lia|].
    destruct (startswith _ _); simpl; lia.
Qed.

Lemma _parse_optional_top s t :
  exists o, _parse_optional error P s t = (Ret o, t).
Proof.
  unfold _parse_optional.
  destruct (String.eqb s ""); [by eexists|].
  destruct (starts_with_dash s) eqn:Hs; [|by eexists]. cbn [negb].
  destruct (find_option (actions P) s); [by eexists|].
  destruct (String.length s =? 1)%nat eqn:Hlen; [by eexists|].
  destruct (match split_once "=" s with
            | Some (option_string, explicit_arg) =>
                match find_option (actions P) option_string with
                | Some a =>
                    Some {| ot_action := Some a;
                            ot_option_string := option_string;
                            ot_explicit_arg := Some explicit_arg |}
                | None => None
                end
            | None => None
            end); [by eexists|].
  pose proof (_get_option_tuples_top s Hs Hlen) as Hle.
  destruct (_get_option_tuples P s) as [|x [|y l]].
  - destruct (_ && _); [by eexists|].
    destruct (contains_char _ _); by eexists.
  - by eexists.
  - simpl in Hle. lia.
Qed.

(** The top-level parser classifies every command line. *)
Lemma classify_top args t :
  exists idx pat, classify error P args t = (Ret (idx, pat), t).
Proof.
  induction args as [|a args IH]; simpl; [by do 2 eexists|].
  destruct (String.eqb a "--"); [by do 2 eexists|].
  rewrite bind_apply. destruct (_parse_optional_top a t) as [o ->].
  rewrite bind_apply. destruct IH as (idx & pat & ->). by do 2 eexists.
Qed.

End TopLevel.

Lemma error_other P message t :
  message <> "too few arguments" ->
  error P message t
  = (Raise (SystemExit 2),
     t ++ [PrintUsage stderr P;
           Write stderr (prog P ++ ": error: " ++ message ++ nl)]).
Proof.
  intros Hne. unfold error.
  destruct (String.eqb_spec message "too few arguments") as [->|_]; [done|].
  unfold argparse_error, exit, mbind, SE_bind, bind, print_usage, emit, modify.
  rewrite app_nonempty_r.
  - simpl. by rewrite <- app_assoc.
  - destruct message; discriminate.
Qed.

(** What the top-level parser is made of. *)
Lemma cli_top_facts prog :
  exists P0 sub pp ca,
    cli_heap prog !! 0 = Some P0
    /\ prog = Argparse.prog P0
    /\ all_option_strings P0 = ["-h"; "--help"]
    /\ List.filter (fun a => bool_decide (option_strings a = [])) (actions P0)
       = [sub]
    /\ option_strings sub = []
    /\ kind sub = KSubParsers pp command_refs ca
    /\ nargs sub = NargsParser
    /\ _get_action_name sub = Some "COMMAND"
    /\ length (cli_heap prog) = 8.
Proof.
  do 4 eexists.
  split; [reflexivity|]. split; [reflexivity|]. split; [reflexivity|].
  split; [reflexivity|]. split; [reflexivity|]. split; [reflexivity|].
  split; [reflexivity|]. split; reflexivity.
Qed.

(** The words for which [repr] is the word between single quotes:
    printable characters, no quote, no backslash. *)
Definition plain_char (c : ascii) : bool :=
  let n := nat_of_ascii c in
  (32 <=? n)%nat && (n <=? 126)%nat && negb (n =? 39)%nat
  && negb (n =? 92)%nat.

Fixpoint plain (s : string) : bool :=
  match s with
  | EmptyString => true
  | String c s' => plain_char c && plain s'
  end.

(** The list of the registered names in the message of argparse. *)
Definition choices_text : string :=
  "'run', 'shell', 'start', 'stop', 'status', 'build', 'help'".

(** The message of argparse for an argument of [COMMAND] that is not one
    of the choices. *)
Definition invalid_choice_message (word : string) : string :=
  "argument COMMAND: invalid choice: " ++ repr word ++ " (choose from "
  ++ choices_text ++ ")".

(** ** A word that is not a command (lines 21-28, 92-93, 217) *)

(** X12: [karton WORD ...], for a plain word that does not start with a
    dash and is not the name of a command, followed by anything.  The
    parser reports an invalid choice through the [error] method, which
    hands every message but [too few arguments] to argparse: the usage and
    one error line that names the word and the seven commands on standard
    error, exit status 2.  The verbosity is not set and no handler runs:
    nothing else is printed. *)
Theorem unknown_command_is_a_usage_error (H : Handlers) (argv0 word : string)
    (rest : list string) (w : World) :
  plain word = true ->
  starts_with_dash word = false ->
  word ∉ command_names ->
  exists P0,
    cli_heap (basename argv0) !! 0 = Some P0
    /\ exit_status (main H (argv0 :: word :: rest) w)
       = (2%Z,
          trace w
          ++ [PrintUsage stderr P0;
              Write stderr
                (basename argv0 ++ ": error: "
                 ++ invalid_choice_message word ++ nl)])
    /\ verbosity (main H (argv0 :: word :: rest) w).2 = verbosity w.
Proof.
  intros _ Hs Hnot.
  assert (odict_get word command_refs = None) as Hnone.
  { destruct (odict_get word command_refs) eqn:Hg; [|reflexivity].
    destruct Hnot. apply command_refs_names. by rewrite Hg. }
  set (prog := basename argv0).
  destruct (cli_top_facts prog)
    as (P0 & sub & pp & ca & HP0 & Hprog & Hall & Hpos & Ho & Hk & Hn & Hname
        & Hlen).
  exists P0. split; [exact HP0|].
  set (message := invalid_choice_message word).
  assert (parse_cli (argv0 :: word :: rest) (trace w)
          = (Raise (SystemExit 2),
             trace w ++ [PrintUsage stderr P0;
                         Write stderr (prog ++ ": error: " ++ message ++ nl)]))
    as Hp.
  { unfold parse_cli, parse_args. cbn [List.hd List.tl]. fold prog.
    rewrite Hlen, bind_apply, parse_known_args_S, HP0, try_except_apply.
    rewrite bind_apply.
    destruct (classify_top error P0 Hall (word :: rest) (trace w))
      as (idx & pat & Hc).
    rewrite (_parse_known_args_greedy error _ P0 sub Hpos Ho (or_introl Hn)
               _ _ _ _ _ _ _ Hs Hc).
    rewrite (take_action_invalid_choice _ P0 sub pp command_refs ca word rest
               _ Hk Hn Hnone).
    unfold argument_error, raise. cbv beta iota. rewrite Hname.
    cbn [is_ArgumentError str_exn]. unfold fail_with. rewrite bind_apply.
    rewrite error_other by discriminate. rewrite <- Hprog. reflexivity. }
  assert (main H (argv0 :: word :: rest) w
          = (Raise (SystemExit 2),
             {| verbosity := verbosity w;
                trace := trace w ++ [PrintUsage stderr P0;
                                     Write stderr (prog ++ ": error: "
                                                   ++ message ++ nl)];
                heap := cli_heap prog |})) as Hm.
  { unfold main. apply main_with_exit. rewrite run_karton_eq, Hp.
    reflexivity. }
  rewrite Hm. split; reflexivity.
Qed.

Lemma unknown_command_is_a_usage_error_witness :
  exists P0,
    cli_heap "karton" !! 0 = Some P0
    /\ karton stub_handlers ["/opt/bin/karton"; "deploy"; "-v"; "--force"]
       = (2%Z,
          [PrintUsage stderr P0;
           Write stderr
             ("karton: error: argument COMMAND: invalid choice: 'deploy' (choose from 'run', 'shell', 'start', 'stop', 'status', 'build', 'help')"
              ++ nl)]).
Proof.
  destruct (unknown_command_is_a_usage_error stub_handlers "/opt/bin/karton"
              "deploy" ["-v"; "--force"] initial_world)
    as (P0 & HP0 & Hr & _); [reflexivity|reflexivity| |].
  { unfold command_names. intros Hin.
    repeat (apply elem_of_cons in Hin as [[=]|Hin]).
    by apply elem_of_nil in Hin. }
  exists P0. split; [exact HP0|exact Hr].
Defined.
